(** * juice: the dynamic SQL renderer and the XML loader

    A shallow embedding of [node.go] (the node tree and its [Accept]
    methods) and of the XML parser ([XMLParser]), with the properties of
    the specification stated over them.

    Go strings are byte sequences: they are modelled as [list ascii].
    A Go function returning [(query, args, err)] returns a triple here. *)

From Stdlib Require Import Ascii String List ZArith Bool Lia Arith SpecFloat.
Import ListNotations.

Set Implicit Arguments.
Set Warnings "-register-all".


(* ===================================================================== *)
(** ** Go strings and the functions of package [strings] the code uses   *)
(* ===================================================================== *)

Definition str := list ascii.

(** A string literal. *)
Definition lit (s : string) : str := list_ascii_of_string s.

Definition eqb_str (a b : str) : bool :=
  if list_eq_dec ascii_dec a b then true else false.

Module strings.

(** [strings.HasPrefix(s, prefix)] *)
Fixpoint HasPrefix (s prefix : str) : bool :=
  match prefix, s with
  | [], _ => true
  | c :: prefix', d :: s' => Ascii.eqb c d && HasPrefix s' prefix'
  | _ :: _, [] => false
  end.

(** [strings.HasSuffix(s, suffix)] *)
Definition HasSuffix (s suffix : str) : bool :=
  (length suffix <=? length s) &&
  eqb_str (skipn (length s - length suffix) s) suffix.

(** [strings.TrimPrefix(s, prefix)] *)
Definition TrimPrefix (s prefix : str) : str :=
  if HasPrefix s prefix then skipn (length prefix) s else s.

(** [strings.TrimSuffix(s, suffix)] *)
Definition TrimSuffix (s suffix : str) : str :=
  if HasSuffix s suffix then firstn (length s - length suffix) s else s.

(** [strings.Replace(s, old, new, 1)]: the first occurrence of [old]
    is replaced; an empty [old] matches at the beginning. *)
Fixpoint Replace1 (s old new : str) : str :=
  if HasPrefix s old then new ++ skipn (length old) s
  else match s with
       | [] => []
       | c :: s' => c :: Replace1 s' old new
       end.

(** [strings.Join(elems, sep)] *)
Fixpoint Join (elems : list str) (sep : str) : str :=
  match elems with
  | [] => []
  | [e] => e
  | e :: rest => e ++ sep ++ Join rest sep
  end.

(** The bytes '\t', '\n', '\v', '\f', '\r', ' ' (Go's [asciiSpace]). *)
Definition asciiSpace (c : ascii) : bool :=
  let n := nat_of_ascii c in
  ((9 <=? n) && (n <=? 13)) || (n =? 32).

(** The two-byte UTF-8 encodings of white space: U+0085, U+00A0. *)
Definition space2 (c1 c2 : ascii) : bool :=
  (nat_of_ascii c1 =? 194) &&
  ((nat_of_ascii c2 =? 133) || (nat_of_ascii c2 =? 160)).

(** The three-byte UTF-8 encodings of white space: U+1680,
    U+2000..U+200A, U+2028, U+2029, U+202F, U+205F, U+3000. *)
Definition space3 (c1 c2 c3 : ascii) : bool :=
  let a := nat_of_ascii c1 in
  let b := nat_of_ascii c2 in
  let c := nat_of_ascii c3 in
  ((a =? 225) && (b =? 154) && (c =? 128)) ||
  ((a =? 226) && (b =? 128) &&
     (((128 <=? c) && (c <=? 138)) || (c =? 168) || (c =? 169) || (c =? 175))) ||
  ((a =? 226) && (b =? 129) && (c =? 159)) ||
  ((a =? 227) && (b =? 128) && (c =? 128)).

(** Leading white space removed, one rune ([unicode.IsSpace]) at a
    time, decoded from the front. *)
Fixpoint TrimLeftSpace (s : str) : str :=
  match s with
  | [] => []
  | c1 :: t1 =>
      if asciiSpace c1 then TrimLeftSpace t1
      else match t1 with
           | [] => s
           | c2 :: t2 =>
               if space2 c1 c2 then TrimLeftSpace t2
               else match t2 with
                    | [] => s
                    | c3 :: t3 =>
                        if space3 c1 c2 c3 then TrimLeftSpace t3 else s
                    end
           end
  end.

(** Trailing white space removed, one rune at a time, decoded from
    the back; the argument is the string reversed. *)
Fixpoint TrimLeftSpaceRev (r : str) : str :=
  match r with
  | [] => []
  | c1 :: t1 =>
      if asciiSpace c1 then TrimLeftSpaceRev t1
      else match t1 with
           | [] => r
           | c2 :: t2 =>
               if space2 c2 c1 then TrimLeftSpaceRev t2
               else match t2 with
                    | [] => r
                    | c3 :: t3 =>
                        if space3 c3 c2 c1 then TrimLeftSpaceRev t3 else r
                    end
           end
  end.

Definition TrimRightSpace (s : str) : str := rev (TrimLeftSpaceRev (rev s)).

(** [strings.TrimSpace(s)]: leading and trailing white space removed. *)
Definition TrimSpace (s : str) : str := TrimRightSpace (TrimLeftSpace s).

(** [strings.Split(s, sep)] for a separator that is not empty: [skip]
    bytes of a separator just found are still to pass, [cur] is the
    piece at hand, reversed. *)
Fixpoint splitFrom (sep : str) (skip : nat) (cur : str) (s : str) : list str :=
  match s with
  | [] => [rev cur]
  | c :: s' =>
      match skip with
      | S k => splitFrom sep k cur s'
      | O =>
          if HasPrefix s sep then rev cur :: splitFrom sep (length sep - 1) [] s'
          else splitFrom sep 0 (c :: cur) s'
      end
  end.

Definition Split (s sep : str) : list str := splitFrom sep 0 [] s.

End strings.

(* ===================================================================== *)
(** ** Values, as package [reflect] shows them                           *)
(* ===================================================================== *)

Module Reflect.

(** [reflect.Kind] *)
Inductive Kind : Set :=
| Invalid | Bool | Int | Int8 | Int16 | Int32 | Int64
| Uint | Uint8 | Uint16 | Uint32 | Uint64 | Uintptr
| Float32 | Float64 | Complex64 | Complex128
| Array | Chan | Func | Interface | Map | Pointer | Slice
| String | Struct | UnsafePointer.

End Reflect.

Inductive IntKind : Set := KInt | KInt8 | KInt16 | KInt32 | KInt64.
Inductive UintKind : Set :=
  KUint | KUint8 | KUint16 | KUint32 | KUint64 | KUintptr.
Inductive FloatKind : Set := KFloat32 | KFloat64.
Inductive OpaqueKind : Set :=
  KComplex64 | KComplex128 | KChan | KFunc | KPointer | KUnsafePointer.

(** A Go value seen through reflection. A map lists its entries in the
    order [MapKeys] returns them in the run at hand. *)
Inductive value : Type :=
| VNil
| VBool (b : bool)
| VInt (k : IntKind) (i : Z)
| VUint (k : UintKind) (u : Z)
| VFloat (k : FloatKind) (f : spec_float)
| VString (s : str)
| VArray (elems : list value)
| VSlice (elems : list value)
| VMap (entries : list (value * value))
| VStruct (fields : list (str * value))
| VInterface (elem : value)
| VOpaque (k : OpaqueKind).

(** [reflect.Value.Kind] *)
Definition Kind (v : value) : Reflect.Kind :=
  match v with
  | VNil => Reflect.Invalid
  | VBool _ => Reflect.Bool
  | VInt KInt _ => Reflect.Int
  | VInt KInt8 _ => Reflect.Int8
  | VInt KInt16 _ => Reflect.Int16
  | VInt KInt32 _ => Reflect.Int32
  | VInt KInt64 _ => Reflect.Int64
  | VUint KUint _ => Reflect.Uint
  | VUint KUint8 _ => Reflect.Uint8
  | VUint KUint16 _ => Reflect.Uint16
  | VUint KUint32 _ => Reflect.Uint32
  | VUint KUint64 _ => Reflect.Uint64
  | VUint KUintptr _ => Reflect.Uintptr
  | VFloat KFloat32 _ => Reflect.Float32
  | VFloat KFloat64 _ => Reflect.Float64
  | VString _ => Reflect.String
  | VArray _ => Reflect.Array
  | VSlice _ => Reflect.Slice
  | VMap _ => Reflect.Map
  | VStruct _ => Reflect.Struct
  | VInterface _ => Reflect.Interface
  | VOpaque KComplex64 => Reflect.Complex64
  | VOpaque KComplex128 => Reflect.Complex128
  | VOpaque KChan => Reflect.Chan
  | VOpaque KFunc => Reflect.Func
  | VOpaque KPointer => Reflect.Pointer
  | VOpaque KUnsafePointer => Reflect.UnsafePointer
  end.

(** A [reflect.Value]: the value and whether [CanInterface] holds. *)
Record Value : Type := mkValue { val : value; CanInterface : bool }.

(** [reflect.Value.Interface]: the value as an [any]; of an interface,
    the element in it. *)
Definition Interface (v : Value) : value :=
  match val v with
  | VInterface e => e
  | x => x
  end.

(** [for value.Kind() == reflect.Interface { value = value.Elem() }] *)
Fixpoint unwrapInterface (v : value) : value :=
  match v with
  | VInterface e => unwrapInterface e
  | x => x
  end.

(** [value.Float() != 0] on IEEE 754 values: false on both zeros only. *)
Definition FloatNonZero (f : spec_float) : bool :=
  match f with
  | S754_zero _ => false
  | _ => true
  end.

(* ===================================================================== *)
(** ** Errors                                                            *)
(* ===================================================================== *)

Inductive error : Type :=
(* node.go *)
| ErrInvalidParameter (param : list str)
| ErrInvalidTextSubstitution (sub : list str)
| ErrParameterNotFound (name : str)
| ErrUnsupportedType (k : Reflect.Kind)
| ErrItemAlreadyExists (item : str)
| ErrCollectionNotFound (collection : str)
| ErrCollectionNotIterable (collection : str)
| ErrCollectionNotSliceOrMap (collection : str)
(* the XML parser *)
| ErrUnknownTag (name : str)
| ErrTestRequired
| ErrItemRequired
| ErrIncludeRefRequired
| ErrNamespaceRequired
| ErrStatementIdRequired (action : str)
| ErrDuplicateStatementId (id : str)
| ErrUnexpectedEndElement (name : str)
| ErrIdRequired
| ErrInvalidURL (url : str)
| ErrInvalidURLSchema
(* errors of code outside these files: the expression evaluator, the
   registry, the XML decoder, the file system *)
| ErrExternal (msg : str)
(* [io.EOF] and [xml.SyntaxError] *)
| EOF
| ErrXMLSyntax (msg : str)
(* a run-time panic *)
| Panic (msg : str).

(** What [Accept] returns: [(query, args, err)]. *)
Definition Result : Type := (str * list value * option error)%type.

Definition query (r : Result) : str := fst (fst r).
Definition args (r : Result) : list value := snd (fst r).
Definition err (r : Result) : option error := snd r.

(* ===================================================================== *)
(** ** Parameters (package [eval])                                       *)
(* ===================================================================== *)

(** Modelled from the spec: the [Parameter] interface of package [eval]
    ([Parameter] is a reserved word here, hence [Param]),
    which is not part of these files. Its one method [Get(name)] returns
    a value and whether it was found. *)
Definition Param : Type := str -> option Value.

(** The first entry of a name in an association list. *)
Fixpoint assocStr (k : str) (l : list (str * value)) : option value :=
  match l with
  | [] => None
  | (k', v) :: l' => if eqb_str k k' then Some v else assocStr k l'
  end.

(** The first entry of a map whose key is that string. *)
Fixpoint assocKey (k : str) (l : list (value * value)) : option value :=
  match l with
  | [] => None
  | (VString k', v) :: l' => if eqb_str k k' then Some v else assocKey k l'
  | _ :: l' => assocKey k l'
  end.

(** Modelled from the spec: path lookup inside a value, "each segment is
    resolved on the current object by exact property/field name, then map
    key"; a path into anything else finds nothing. *)
Fixpoint resolvePath (segs : list str) (v : value) : option value :=
  match segs with
  | [] => Some v
  | seg :: segs' =>
      match unwrapInterface v with
      | VStruct fields =>
          match assocStr seg fields with
          | Some x => resolvePath segs' x
          | None => None
          end
      | VMap entries =>
          match assocKey seg entries with
          | Some x => resolvePath segs' x
          | None => None
          end
      | _ => None
      end
  end.

(** Modelled from the spec: [eval.H], a map from names to values, and its
    [AsParam]: the first segment of the path is a key of the map. *)
Definition H : Type := list (str * value).

Definition AsParam (h : H) : Param :=
  fun name =>
    match strings.Split name (lit ".") with
    | [] => None
    | seg :: segs =>
        match assocStr seg h with
        | Some v =>
            match resolvePath segs v with
            | Some x => Some (mkValue x true)
            | None => None
            end
        | None => None
        end
    end.

(** Modelled from the spec: [eval.ParamGroup], "an ordered list of
    parameter views; get(name) queries each in order, first hit wins". *)
Fixpoint ParamGroup (g : list Param) : Param :=
  fun name =>
    match g with
    | [] => None
    | p :: g' =>
        match p name with
        | Some v => Some v
        | None => ParamGroup g' name
        end
    end.

(** [eval.H{f.Item: item, f.Index: index}]: a map literal; of two equal
    keys the later entry stays. *)
Definition foreachScope (item_name index_name : str) (item index : value) : H :=
  [(index_name, index); (item_name, item)].

(** Modelled from the spec: a compiled expression ([eval.Expression]);
    [Execute(p)] returns a value or an error. *)
Definition Expression : Type := Param -> error + Value.

(** Modelled from the spec: [driver.Translator], "a single-method
    contract: translate(name) -> placeholder_token". *)
Record Translator : Type := mkTranslator { Translate : str -> str }.

(* ===================================================================== *)
(** ** The regular expressions of [TextNode]                             *)
(* ===================================================================== *)

Module regexp.

(** The class [[a-zA-Z0-9_\.]]. *)
Definition nameChar (c : ascii) : bool :=
  let n := nat_of_ascii c in
  ((48 <=? n) && (n <=? 57)) || ((65 <=? n) && (n <=? 90)) ||
  ((97 <=? n) && (n <=? 122)) || (n =? 95) || (n =? 46).

Definition isBlank (c : ascii) : bool := Ascii.eqb c " "%char.

Fixpoint takeWhile (f : ascii -> bool) (s : str) : str :=
  match s with
  | c :: s' => if f c then c :: takeWhile f s' else []
  | [] => []
  end.

Fixpoint dropWhile (f : ascii -> bool) (s : str) : str :=
  match s with
  | c :: s' => if f c then dropWhile f s' else s
  | [] => []
  end.

(** A match of [<sigil>\{ *?([a-zA-Z0-9_\.]+) *?\}] at the very start
    of [s]: the matched text and the captured name. A blank is no name
    character and a brace is neither, so a position has at most one
    match. *)
Definition matchAt (sigil : ascii) (s : str) : option (str * str) :=
  match s with
  | c1 :: c2 :: r =>
      if Ascii.eqb c1 sigil && Ascii.eqb c2 "{"%char then
        let sp1 := takeWhile isBlank r in
        let r1 := dropWhile isBlank r in
        let name := takeWhile nameChar r1 in
        let r2 := dropWhile nameChar r1 in
        let sp2 := takeWhile isBlank r2 in
        let r3 := dropWhile isBlank r2 in
        match name, r3 with
        | _ :: _, c3 :: _ =>
            if Ascii.eqb c3 "}"%char
            then Some (c1 :: c2 :: sp1 ++ name ++ sp2 ++ [c3], name)
            else None
        | _, _ => None
        end
      else None
  | _ => None
  end.

(** The successive non-overlapping matches, leftmost first; [skip] is
    the number of bytes left of the match just found. *)
Fixpoint scan (sigil : ascii) (skip : nat) (s : str) : list (list str) :=
  match s with
  | [] => []
  | _ :: s' =>
      match skip with
      | S k => scan sigil k s'
      | O =>
          match matchAt sigil s with
          | Some (m, name) => [m; name] :: scan sigil (length m - 1) s'
          | None => scan sigil 0 s'
          end
      end
  end.

(** [paramRegex.FindAllStringSubmatch(s, -1)], for
    [paramRegex = `\#\{ *?([a-zA-Z0-9_\.]+) *?\}`]. *)
Definition paramRegex_FindAllStringSubmatch (s : str) : list (list str) :=
  scan "#"%char 0 s.

(** Modelled from the spec: [formatRegexp] is declared outside these
    files; the text substitution pattern is
    [\$\{ *([A-Za-z0-9_.]+) *\}]. *)
Definition formatRegexp_FindAllStringSubmatch (s : str) : list (list str) :=
  scan "$"%char 0 s.

End regexp.

(* ===================================================================== *)
(** ** Nodes                                                             *)
(* ===================================================================== *)

(** [TextNode]: the text and its two precomputed match lists. *)
Record TextNode : Type := mkTextNode {
  value_ : str;
  placeholder : list (list str);
  textSubstitution : list (list str)
}.

(** [NewTextNode(str)], with [build] inlined. *)
Definition NewTextNode (s : str) : TextNode :=
  mkTextNode s
    (regexp.paramRegex_FindAllStringSubmatch s)
    (regexp.formatRegexp_FindAllStringSubmatch s).

Record TrimAttrs : Type := mkTrim {
  Prefix : str;
  PrefixOverrides : list str;
  Suffix : str;
  SuffixOverrides : list str
}.

Record ForeachAttrs : Type := mkForeach {
  Collection : str;
  Item : str;
  Index : str;
  Open : str;
  Close : str;
  Separator : str
}.

(** [valueItem] and [selectFieldAliasItem]. *)
Record valueItem : Type := mkValueItem { column : str; value_text : str }.
Record selectFieldAliasItem : Type :=
  mkAliasItem { alias_column : str; alias : str }.

(** The node kinds of [node.go]. An [IncludeNode] holds its cached
    [sqlNode] (nil at first) and what [mapper.GetSQLNodeByID(refId)]
    answers in the registry at hand: the object graph is the finite
    unfolding of the include references. *)
Inductive Node : Type :=
| NodeGroup (g : list Node)
| pureTextNode (s : str)
| Text (c : TextNode)
| ConditionNode (expr : Expression) (Nodes : list Node)
| WhereNode (Nodes : list Node)
| TrimNode (t : TrimAttrs) (Nodes : list Node)
| ForeachNode (f : ForeachAttrs) (Nodes : list Node)
| SetNode (Nodes : list Node)
| SQLNode (id : str) (nodes : list Node)
| IncludeNode (sqlNode : option Node) (GetSQLNodeByID : error + Node)
| ChooseNode (WhenNodes : list Node) (OtherwiseNode : option Node)
| OtherwiseNode (Nodes : list Node)
| ValuesNode (v : list valueItem)
| SelectFieldAliasNode (s : list selectFieldAliasItem).

(** [IfNode] and [WhenNode] are aliases of [ConditionNode]. *)
Definition IfNode := ConditionNode.
Definition WhenNode := ConditionNode.

(** The error return of every [Accept]: [return "", nil, err]. *)
Definition failed (e : error) : Result := ([], [], Some e).

(* ===================================================================== *)
(** ** Rendering: the [Accept] methods                                   *)
(* ===================================================================== *)

Section Render.

(** [reflectValueToString] is declared outside these files. *)
Variable reflectValueToString : Value -> str.

(** [TextNode.replaceHolder] *)
Fixpoint replaceHolder (params : list (list str)) (query : str)
    (args : list value) (translator : Translator) (p : Param) : Result :=
  match params with
  | [] => (query, args, None)
  | param :: rest =>
      match param with
      | [matched; name] =>
          match p name with
          | None => failed (ErrParameterNotFound name)
          | Some v =>
              let query := strings.Replace1 query matched (Translate translator name) in
              if CanInterface v
              then replaceHolder rest query (args ++ [Interface v]) translator p
              else failed (Panic (lit "reflect.Value.Interface: cannot return value obtained from unexported field or method"))
          end
      | _ => failed (ErrInvalidParameter param)
      end
  end.

(** [TextNode.replaceTextSubstitution] *)
Fixpoint replaceTextSubstitution (subs : list (list str)) (query : str)
    (p : Param) : str * option error :=
  match subs with
  | [] => (query, None)
  | sub :: rest =>
      match sub with
      | [matched; name] =>
          match p name with
          | None => ([], Some (ErrParameterNotFound name))
          | Some v =>
              replaceTextSubstitution rest
                (strings.Replace1 query matched (reflectValueToString v)) p
          end
      | _ => ([], Some (ErrInvalidTextSubstitution sub))
      end
  end.

(** [TextNode.Accept] *)
Definition TextNode_Accept (c : TextNode) (translator : Translator)
    (p : Param) : Result :=
  if (length (placeholder c) =? 0) && (length (textSubstitution c) =? 0)
  then (value_ c, [], None)
  else
    match replaceHolder (placeholder c) (value_ c) [] translator p with
    | (_, _, Some e) => failed e
    | (query, args, None) =>
        match replaceTextSubstitution (textSubstitution c) query p with
        | (_, Some e) => failed e
        | (query, None) => (query, args, None)
        end
    end.

(** [ConditionNode.Match] *)
Definition Match (expr : Expression) (p : Param) : bool * option error :=
  match expr p with
  | inl e => (false, Some e)
  | inr v =>
      match val v with
      | VBool b => (b, None)
      | VInt (KInt | KInt8 | KInt16 | KInt32 | KInt64) i =>
          (negb (Z.eqb i 0), None)
      | VUint (KUint | KUint8 | KUint16 | KUint32 | KUint64) u =>
          (negb (Z.eqb u 0), None)
      | VFloat (KFloat32 | KFloat64) f => (FloatNonZero f, None)
      | VString s => (negb (eqb_str s []), None)
      | x => (false, Some (ErrUnsupportedType (Kind x)))
      end
  end.

(** [ValuesNode.columns] and [ValuesNode.values] *)
Definition columns (v : list valueItem) : str :=
  strings.Join (map column v) (lit ", ").
Definition values (v : list valueItem) : str :=
  strings.Join (map value_text v) (lit ", ").

(** [ValuesNode.Accept] *)
Definition ValuesNode_Accept (v : list valueItem) (translator : Translator)
    (p : Param) : Result :=
  if length v =? 0 then ([], [], None)
  else
    let builder := lit "(" ++ columns v ++ lit ") VALUES (" ++ values v ++ lit ")" in
    TextNode_Accept (NewTextNode builder) translator p.

(** [SelectFieldAliasNode.Accept] *)
Definition SelectFieldAliasNode_Accept (s : list selectFieldAliasItem) : Result :=
  if length s =? 0 then ([], [], None)
  else
    let fields :=
      map (fun item =>
             if negb (eqb_str (alias item) []) &&
                negb (eqb_str (alias item) (alias_column item))
             then alias_column item ++ lit " AS " ++ alias item
             else alias_column item) s in
    (strings.Join fields (lit ", "), [], None).

(** The first entry of [PrefixOverrides] that is a prefix is cut off
    ([break] after the first). *)
Fixpoint trimPrefixOverrides (query : str) (overrides : list str) : str :=
  match overrides with
  | [] => query
  | prefix :: rest =>
      if strings.HasPrefix query prefix then strings.TrimPrefix query prefix
      else trimPrefixOverrides query rest
  end.

Fixpoint trimSuffixOverrides (query : str) (overrides : list str) : str :=
  match overrides with
  | [] => query
  | suffix :: rest =>
      if strings.HasSuffix query suffix then strings.TrimSuffix query suffix
      else trimSuffixOverrides query rest
  end.

(** [for strings.HasSuffix(query, " ") { query = strings.TrimSuffix(query, " ") }],
    on the reversed string. *)
Fixpoint dropBlanks (r : str) : str :=
  match r with
  | c :: r' => if Ascii.eqb c " "%char then dropBlanks r' else r
  | [] => []
  end.

Definition trimTrailingBlanks (query : str) : str := rev (dropBlanks (rev query)).

(** [WhereNode.Accept] on a non-empty query, first step: a leading
    [and]/[AND] or [or]/[OR] is cut off by its length. *)
Definition stripAndOr (query : str) : str :=
  if strings.HasPrefix query (lit "and") || strings.HasPrefix query (lit "AND")
  then skipn 3 query
  else if strings.HasPrefix query (lit "or") || strings.HasPrefix query (lit "OR")
       then skipn 2 query
       else query.

Definition beginsWithWhere (query : str) : bool :=
  strings.HasPrefix query (lit "where") || strings.HasPrefix query (lit "WHERE").

(** Last step: [WHERE] goes in front unless the query begins with it. *)
Definition prependWhere (query : str) : str :=
  if negb (beginsWithWhere query)
  then if negb (strings.HasPrefix query (lit " "))
       then lit "WHERE " ++ query
       else lit "WHERE" ++ query
  else query.

(** The post-processing of [WhereNode.Accept] on a non-empty query. *)
Definition whereShape (query : str) : str :=
  prependWhere (strings.TrimSpace (stripAndOr query)).

(** The post-processing of [SetNode.Accept]. *)
Definition setShape (query : str) : str :=
  let query := if negb (eqb_str query []) then lit "SET " ++ query else query in
  let query := trimTrailingBlanks query in
  strings.TrimSuffix query (lit ",").

Section Loops.

(** The [Accept] of the children, for the loops below. *)
Variable accept : Node -> Translator -> Param -> Result.

(** The loop of [NodeGroup.Accept], which [WhereNode.Accept] and
    [SetNode.Accept] write out again word for word: child [i] of
    [n], the builder and the arguments so far. *)
Fixpoint composeLoop (n i : Z) (nodes : list Node) (translator : Translator)
    (p : Param) (builder : str) (args : list value) : Result :=
  match nodes with
  | [] => (builder, args, None)
  | node :: rest =>
      match accept node translator p with
      | (_, _, Some e) => failed e
      | (q, a, None) =>
          let builder := if 0 <? length q then builder ++ q else builder in
          let args := if 0 <? length a then args ++ a else args in
          let builder :=
            if (i <? n - 1)%Z && (0 <? length q) &&
               negb (strings.HasSuffix q (lit " "))
            then builder ++ lit " " else builder in
          composeLoop n (i + 1) rest translator p builder args
      end
  end.

(** [NodeGroup.Accept] *)
Definition NodeGroup_Accept (g : list Node) (translator : Translator)
    (p : Param) : Result :=
  composeLoop (Z.of_nat (length g)) 0 g translator p [] [].

(** [ConditionNode.Accept] *)
Definition ConditionNode_Accept (expr : Expression) (Nodes : list Node)
    (translator : Translator) (p : Param) : Result :=
  match Match expr p with
  | (_, Some e) => failed e
  | (true, None) => NodeGroup_Accept Nodes translator p
  | (false, None) => ([], [], None)
  end.

(** [WhereNode.Accept] *)
Definition WhereNode_Accept (Nodes : list Node) (translator : Translator)
    (p : Param) : Result :=
  match composeLoop (Z.of_nat (length Nodes)) 0 Nodes translator p [] [] with
  | (_, _, Some e) => failed e
  | (query, args, None) =>
      if eqb_str query [] then (query, args, None)
      else (whereShape query, args, None)
  end.

(** [SetNode.Accept] *)
Definition SetNode_Accept (Nodes : list Node) (translator : Translator)
    (p : Param) : Result :=
  match composeLoop (Z.of_nat (length Nodes)) 0 Nodes translator p [] [] with
  | (_, _, Some e) => failed e
  | (query, args, None) => (setShape query, args, None)
  end.

(** The loop of [TrimNode.Accept]. *)
Fixpoint trimLoop (n i : Z) (nodes : list Node) (translator : Translator)
    (p : Param) (builder : str) (args : list value) : Result :=
  match nodes with
  | [] => (builder, args, None)
  | node :: rest =>
      match accept node translator p with
      | (_, _, Some e) => failed e
      | (q, a, None) =>
          let builder := if 0 <? length q then builder ++ q else builder in
          let builder :=
            if negb (strings.HasSuffix q (lit " ")) && (i <? n - 1)%Z
            then builder ++ lit " " else builder in
          let args := if 0 <? length a then args ++ a else args in
          let builder :=
            if (i <? n - 1)%Z && (0 <? length q) &&
               negb (strings.HasSuffix q (lit " "))
            then builder ++ lit " " else builder in
          trimLoop n (i + 1) rest translator p builder args
      end
  end.

(** [TrimNode.Accept] *)
Definition TrimNode_Accept (t : TrimAttrs) (Nodes : list Node)
    (translator : Translator) (p : Param) : Result :=
  let builder := if negb (eqb_str (Prefix t) []) then Prefix t else [] in
  match trimLoop (Z.of_nat (length Nodes)) 0 Nodes translator p builder [] with
  | (_, _, Some e) => failed e
  | (query, args, None) =>
      let query :=
        if 0 <? length (PrefixOverrides t)
        then trimPrefixOverrides query (PrefixOverrides t) else query in
      let query :=
        if 0 <? length (SuffixOverrides t)
        then trimSuffixOverrides query (SuffixOverrides t) else query in
      let query := if negb (eqb_str (Suffix t) []) then query ++ Suffix t else query in
      (query, args, None)
  end.

(** The inner loop of [acceptSlice] and [acceptMap]: the children,
    one after the other, with nothing between them. *)
Fixpoint foreachNodes (nodes : list Node) (translator : Translator)
    (group : Param) (builder : str) (args : list value) : Result :=
  match nodes with
  | [] => (builder, args, None)
  | node :: rest =>
      match accept node translator group with
      | (_, _, Some e) => failed e
      | (q, a, None) =>
          let builder := if 0 <? length q then builder ++ q else builder in
          let args := if 0 <? length a then args ++ a else args in
          foreachNodes rest translator group builder args
      end
  end.

(** The outer loop of [acceptSlice]: element [i], [end_] the last
    index. *)
Definition sliceLoop (f : ForeachAttrs) (Nodes : list Node) (end_ : Z)
    (translator : Translator) (p : Param) :
    Z -> list value -> str -> list value -> Result :=
  fix loop (i : Z) (items : list value) (builder : str) (args : list value)
      {struct items} : Result :=
    match items with
    | [] => (builder ++ Close f, args, None)
    | item :: rest =>
        let group :=
          ParamGroup [AsParam (foreachScope (Item f) (Index f) item (VInt KInt i)); p] in
        match foreachNodes Nodes translator group builder args with
        | (_, _, Some e) => failed e
        | (builder, args, None) =>
            let builder := if (i <? end_)%Z then builder ++ Separator f else builder in
            loop (i + 1)%Z rest builder args
        end
    end.

(** [ForeachNode.acceptSlice] *)
Definition acceptSlice (f : ForeachAttrs) (Nodes : list Node)
    (elems : list value) (translator : Translator) (p : Param) : Result :=
  let sliceLength := Z.of_nat (length elems) in
  if (sliceLength =? 0)%Z then ([], [], None)
  else sliceLoop f Nodes (sliceLength - 1) translator p 0%Z elems (Open f) [].

(** The outer loop of [acceptMap], over the keys [MapKeys] gave. *)
Definition mapLoop (f : ForeachAttrs) (Nodes : list Node) (end_ : Z)
    (translator : Translator) (p : Param) :
    Z -> list (value * value) -> str -> list value -> Result :=
  fix loop (index : Z) (entries : list (value * value)) (builder : str)
      (args : list value) {struct entries} : Result :=
    match entries with
    | [] => (builder ++ Close f, args, None)
    | (key, item) :: rest =>
        let group :=
          ParamGroup [AsParam (foreachScope (Item f) (Index f) item key); p] in
        match foreachNodes Nodes translator group builder args with
        | (_, _, Some e) => failed e
        | (builder, args, None) =>
            let builder := if (index <? end_)%Z then builder ++ Separator f else builder in
            loop (index + 1)%Z rest builder args
        end
    end.

(** [ForeachNode.acceptMap] *)
Definition acceptMap (f : ForeachAttrs) (Nodes : list Node)
    (entries : list (value * value)) (translator : Translator) (p : Param) : Result :=
  if length entries =? 0 then ([], [], None)
  else mapLoop f Nodes (Z.of_nat (length entries) - 1) translator p 0%Z entries (Open f) [].

(** [ForeachNode.Accept] *)
Definition ForeachNode_Accept (f : ForeachAttrs) (Nodes : list Node)
    (translator : Translator) (p : Param) : Result :=
  match p (Item f) with
  | Some _ => failed (ErrItemAlreadyExists (Item f))
  | None =>
      match p (Collection f) with
      | None => failed (ErrCollectionNotFound (Collection f))
      | Some v =>
          if negb (CanInterface v)
          then failed (ErrCollectionNotIterable (Collection f))
          else
            match unwrapInterface (val v) with
            | VArray elems | VSlice elems => acceptSlice f Nodes elems translator p
            | VMap entries => acceptMap f Nodes entries translator p
            | _ => failed (ErrCollectionNotSliceOrMap (Collection f))
            end
      end
  end.

(** [ChooseNode.Accept] *)
Definition ChooseNode_Accept (WhenNodes : list Node) (OtherwiseNode : option Node)
    (translator : Translator) (p : Param) : Result :=
  (fix loop (whens : list Node) : Result :=
     match whens with
     | node :: rest =>
         match accept node translator p with
         | (_, _, Some e) => failed e
         | (q, a, None) => if 0 <? length q then (q, a, None) else loop rest
         end
     | [] =>
         match OtherwiseNode with
         | Some o => accept o translator p
         | None => ([], [], None)
         end
     end) WhenNodes.

End Loops.

(** [Node.Accept], by the kind of the node. *)
Fixpoint Accept (n : Node) (translator : Translator) (p : Param) {struct n} : Result :=
  match n with
  | NodeGroup g => NodeGroup_Accept Accept g translator p
  | pureTextNode s => (s, [], None)
  | Text c => TextNode_Accept c translator p
  | ConditionNode expr Nodes => ConditionNode_Accept Accept expr Nodes translator p
  | WhereNode Nodes => WhereNode_Accept Accept Nodes translator p
  | TrimNode t Nodes => TrimNode_Accept Accept t Nodes translator p
  | ForeachNode f Nodes => ForeachNode_Accept Accept f Nodes translator p
  | SetNode Nodes => SetNode_Accept Accept Nodes translator p
  | SQLNode _ nodes => NodeGroup_Accept Accept nodes translator p
  | IncludeNode sqlNode lookup =>
      match sqlNode with
      | Some s => Accept s translator p
      | None =>
          match lookup with
          | inl e => failed e
          | inr s => Accept s translator p
          end
      end
  | ChooseNode whens otherwise => ChooseNode_Accept Accept whens otherwise translator p
  | OtherwiseNode Nodes => NodeGroup_Accept Accept Nodes translator p
  | ValuesNode v => ValuesNode_Accept v translator p
  | SelectFieldAliasNode s => SelectFieldAliasNode_Accept s
  end.

End Render.

(* ===================================================================== *)
(** ** The XML loader ([XMLParser])                                      *)
(* ===================================================================== *)


Module XMLParser.

(** [xml.Attr], by its local name. *)
Definition Attr : Type := (str * str)%type.

(** [xml.Token], names by their local part. *)
Inductive Token : Type :=
| StartElement (name : str) (attr : list Attr)
| EndElement (name : str)
| CharData (data : str)
| Comment
| ProcInst
| Directive.

(** The error [decoder.Token()] returns: [io.EOF] or a syntax error. *)
Inductive tokenError : Type :=
| io_EOF
| SyntaxError (msg : str).

(** [err == io.EOF] *)
Definition isEOF (e : tokenError) : bool :=
  match e with
  | io_EOF => true
  | SyntaxError _ => false
  end.

Definition asError (e : tokenError) : error :=
  match e with
  | io_EOF => EOF
  | SyntaxError msg => ErrXMLSyntax msg
  end.

(** [xml.Decoder]: the tokens still to come and the error that follows
    the last of them. *)
Record Decoder : Type := mkDecoder { pending : list Token; final : tokenError }.

(** [decoder.Token()] *)
Definition next (d : Decoder) : (tokenError + Token) * Decoder :=
  match pending d with
  | [] => (inl (final d), d)
  | t :: rest => (inr t, mkDecoder rest (final d))
  end.

(** The node structs as this parser fills them: the raw attribute
    values, and [nilNode] for a nil [Node]. *)
Inductive Node : Type :=
| nilNode
| TextNode (text : str)
| IfNode (Test : str) (Nodes : list Node)
| WhereNode (Nodes : list Node)
| TrimNode (Prefix PrefixOverrides Suffix SuffixOverrides : str) (Nodes : list Node)
| ForeachNode (Collection Item Index Open Close Separator : str) (Nodes : list Node)
| SetNode (Nodes : list Node)
| IncludeNode (RefId : str) (mapper : str).

(** The first attribute of that name ([break] on the first match). *)
Fixpoint firstAttr (name : str) (attr : list Attr) : str :=
  match attr with
  | [] => []
  | (k, v) :: rest => if eqb_str k name then v else firstAttr name rest
  end.

(** The last attribute of that name (every match assigns). *)
Definition lastAttr (name : str) (attr : list Attr) : str :=
  firstAttr name (rev attr).

(** How a loop over the tokens of an element ends: on its end element,
    or by [break] at [io.EOF]. *)
Inductive LoopEnd : Set := Closed | AtEOF.

(** What a parse function returns when the fuel is enough. *)
Definition Parsed (A : Type) : Type := (A * option error * Decoder)%type.

Section Elements.

(** [IfNode.init], which compiles the test and returns the error of
    the expression compiler, if any; declared outside these files. *)
Variable IfNode_init : str -> option str.

(** [defaultParamKey], declared outside these files. *)
Variable defaultParamKey : str.

Section Body.

(** [parseTags] for the children. *)
Variable parseTags : str -> Decoder -> str -> list Attr -> option (Parsed Node).

(** The loop [for { token, err := decoder.Token() ... }] that
    [parseIf], [parseWhere], [parseTrim], [parseForeach], [parseSet],
    [parseStatement] and [parseSQLNode] each write out: a start
    element is parsed by [parseTags] and appended; character data
    that is not blank becomes a [TextNode] ([keepText]: [parseTrim]
    has no such case); the end element [endName] ends the loop; any
    other end element is skipped, or is an error ([strict]:
    [parseStatement]). *)
Fixpoint bodyLoop (fuel : nat) (mapper endName : str) (keepText strict : bool)
    (decoder : Decoder) (nodes : list Node)
    : option (list Node * (error + LoopEnd) * Decoder) :=
  match fuel with
  | O => None
  | S fuel' =>
      match next decoder with
      | (inl e, decoder) =>
          if isEOF e then Some (nodes, inr AtEOF, decoder)
          else Some (nodes, inl (asError e), decoder)
      | (inr token, decoder) =>
          match token with
          | StartElement name attr =>
              match parseTags mapper decoder name attr with
              | None => None
              | Some (_, Some e, decoder) => Some (nodes, inl e, decoder)
              | Some (node, None, decoder) =>
                  bodyLoop fuel' mapper endName keepText strict decoder (nodes ++ [node])
              end
          | CharData text =>
              let char := strings.TrimSpace text in
              if keepText && negb (eqb_str char [])
              then bodyLoop fuel' mapper endName keepText strict decoder
                     (nodes ++ [TextNode char])
              else bodyLoop fuel' mapper endName keepText strict decoder nodes
          | EndElement name =>
              if eqb_str name endName then Some (nodes, inr Closed, decoder)
              else if strict
                   then Some (nodes, inl (ErrUnexpectedEndElement name), decoder)
                   else bodyLoop fuel' mapper endName keepText strict decoder nodes
          | _ => bodyLoop fuel' mapper endName keepText strict decoder nodes
          end
      end
  end.

(** The loop of [parseInclude]: everything up to the end element
    is skipped. *)
Fixpoint includeLoop (fuel : nat) (decoder : Decoder)
    : option ((error + LoopEnd) * Decoder) :=
  match fuel with
  | O => None
  | S fuel' =>
      match next decoder with
      | (inl e, decoder) =>
          if isEOF e then Some (inr AtEOF, decoder)
          else Some (inl (asError e), decoder)
      | (inr (EndElement name), decoder) =>
          if eqb_str name (lit "include") then Some (inr Closed, decoder)
          else includeLoop fuel' decoder
      | (inr _, decoder) => includeLoop fuel' decoder
      end
  end.

(** [parseInclude] *)
Definition parseInclude (fuel : nat) (mapper : str) (decoder : Decoder)
    (attr : list Attr) : option (Parsed Node) :=
  let ref := lastAttr (lit "refid") attr in
  if eqb_str ref [] then Some (nilNode, Some ErrIncludeRefRequired, decoder)
  else
    match includeLoop fuel decoder with
    | None => None
    | Some (inl e, decoder) => Some (nilNode, Some e, decoder)
    | Some (inr _, decoder) => Some (IncludeNode ref mapper, None, decoder)
    end.

(** [parseSet]: at [io.EOF] it returns [nil, nil]. *)
Definition parseSet (fuel : nat) (mapper : str) (decoder : Decoder)
    : option (Parsed Node) :=
  match bodyLoop fuel mapper (lit "set") true false decoder [] with
  | None => None
  | Some (_, inl e, decoder) => Some (nilNode, Some e, decoder)
  | Some (nodes, inr Closed, decoder) => Some (SetNode nodes, None, decoder)
  | Some (_, inr AtEOF, decoder) => Some (nilNode, None, decoder)
  end.

(** [parseIf] *)
Definition parseIf (fuel : nat) (mapper : str) (decoder : Decoder)
    (attr : list Attr) : option (Parsed Node) :=
  let test := firstAttr (lit "test") attr in
  if eqb_str test [] then Some (nilNode, Some ErrTestRequired, decoder)
  else
    match IfNode_init test with
    | Some e => Some (nilNode, Some (ErrExternal e), decoder)
    | None =>
        match bodyLoop fuel mapper (lit "if") true false decoder [] with
        | None => None
        | Some (_, inl e, decoder) => Some (nilNode, Some e, decoder)
        | Some (nodes, inr _, decoder) => Some (IfNode test nodes, None, decoder)
        end
    end.

(** [parseWhere] *)
Definition parseWhere (fuel : nat) (mapper : str) (decoder : Decoder)
    : option (Parsed Node) :=
  match bodyLoop fuel mapper (lit "where") true false decoder [] with
  | None => None
  | Some (_, inl e, decoder) => Some (nilNode, Some e, decoder)
  | Some (nodes, inr _, decoder) => Some (WhereNode nodes, None, decoder)
  end.

(** [parseTrim] *)
Definition parseTrim (fuel : nat) (mapper : str) (decoder : Decoder)
    (attr : list Attr) : option (Parsed Node) :=
  match bodyLoop fuel mapper (lit "trim") false false decoder [] with
  | None => None
  | Some (_, inl e, decoder) => Some (nilNode, Some e, decoder)
  | Some (nodes, inr _, decoder) =>
      Some (TrimNode (lastAttr (lit "prefix") attr)
              (lastAttr (lit "prefixOverrides") attr)
              (lastAttr (lit "suffix") attr)
              (lastAttr (lit "suffixOverrides") attr) nodes, None, decoder)
  end.

(** [parseForeach] *)
Definition parseForeach (fuel : nat) (mapper : str) (decoder : Decoder)
    (attr : list Attr) : option (Parsed Node) :=
  let collection := lastAttr (lit "collection") attr in
  let collection := if eqb_str collection [] then defaultParamKey else collection in
  let item := lastAttr (lit "item") attr in
  if eqb_str item [] then Some (nilNode, Some ErrItemRequired, decoder)
  else
    match bodyLoop fuel mapper (lit "foreach") true false decoder [] with
    | None => None
    | Some (_, inl e, decoder) => Some (nilNode, Some e, decoder)
    | Some (nodes, inr _, decoder) =>
        Some (ForeachNode collection item
                (lastAttr (lit "index") attr) (lastAttr (lit "open") attr)
                (lastAttr (lit "close") attr) (lastAttr (lit "separator") attr)
                nodes, None, decoder)
    end.

End Body.

(** [parseTags]: the dispatch on the tag name of the start element
    [token] (its name and attributes). The fuel bounds the depth of
    the nesting and the length of each loop. *)
Fixpoint parseTags (fuel : nat) (mapper : str) (decoder : Decoder)
    (name : str) (attr : list Attr) {struct fuel} : option (Parsed Node) :=
  match fuel with
  | O => None
  | S fuel' =>
      if eqb_str name (lit "if")
      then parseIf (parseTags fuel') fuel' mapper decoder attr
      else if eqb_str name (lit "where")
      then parseWhere (parseTags fuel') fuel' mapper decoder
      else if eqb_str name (lit "trim")
      then parseTrim (parseTags fuel') fuel' mapper decoder attr
      else if eqb_str name (lit "foreach")
      then parseForeach (parseTags fuel') fuel' mapper decoder attr
      else if eqb_str name (lit "set")
      then parseSet (parseTags fuel') fuel' mapper decoder
      else if eqb_str name (lit "include")
      then parseInclude fuel' mapper decoder attr
      else Some (nilNode, Some (ErrUnknownTag name), decoder)
  end.

(** Modelled from the spec: a statement, "{action, id (local), mapper
    (back-reference), nodes}", with its attribute bag; the struct is
    declared outside these files. *)
Record Statement : Type := mkStatement {
  action : str;
  stmt_attrs : list Attr;
  stmt_mapper : str;
  stmt_Nodes : list Node
}.

(** [Statement.ID]: the attribute [id]. *)
Definition Statement_ID (stmt : Statement) : str :=
  lastAttr (lit "id") (stmt_attrs stmt).

(** Modelled from the spec: [Statement.Key], "the fully-qualified key
    is namespace.id". *)
Definition Statement_Key (stmt : Statement) : str :=
  stmt_mapper stmt ++ lit "." ++ Statement_ID stmt.

(** [SQLNode] as the parser fills it. *)
Record SQLNode : Type := mkSQLNode {
  sql_id : str;
  sql_nodes : list Node;
  sql_mapper : str
}.

(** Modelled from the spec: a mapper, "{namespace, statements,
    sql_fragments, attributes}"; the struct is declared outside these
    files. A Go map is an association list here, ranged over in the
    order of the list. *)
Record Mapper : Type := mkMapper {
  namespace : str;
  resource : str;
  url : str;
  mapper_attrs : list Attr;
  statements : list (str * Statement);
  sqlNodes : list (str * SQLNode)
}.

Fixpoint hasKey (A : Type) (k : str) (m : list (str * A)) : bool :=
  match m with
  | [] => false
  | (k', _) :: m' => eqb_str k k' || hasKey k m'
  end.

(** Modelled from the spec: [Mapper.setSqlNode]; a duplicate id of a
    sql fragment is an error. *)
Definition setSqlNode (mapper : Mapper) (sqlNode : SQLNode) : Mapper * option error :=
  if hasKey (sql_id sqlNode) (sqlNodes mapper)
  then (mapper, Some (ErrExternal (lit "duplicate sql id")))
  else (mkMapper (namespace mapper) (resource mapper) (url mapper)
          (mapper_attrs mapper) (statements mapper)
          ((sql_id sqlNode, sqlNode) :: sqlNodes mapper), None).

(** Modelled from the spec: the registry [Mappers] and
    [setStatementByID], "set_statement(fq_key, stmt) fails on
    duplicate fq_key". *)
Definition Mappers : Type := list (str * Statement).

Definition setStatementByID (mappers : Mappers) (key : str) (stmt : Statement)
    : Mappers * option error :=
  if hasKey key mappers
  then (mappers, Some (ErrExternal (lit "duplicate statement key")))
  else ((key, stmt) :: mappers, None).

(** [parseStatement]: the statement filled in, and the error. *)
Definition parseStatement (fuel : nat) (stmt : Statement) (decoder : Decoder)
    (attr : list Attr) : option (Parsed Statement) :=
  let stmt := mkStatement (action stmt) attr (stmt_mapper stmt) (stmt_Nodes stmt) in
  if eqb_str (Statement_ID stmt) []
  then Some (stmt, Some (ErrStatementIdRequired (action stmt)), decoder)
  else
    match bodyLoop (parseTags fuel) fuel (stmt_mapper stmt) (action stmt)
            true true decoder (stmt_Nodes stmt) with
    | None => None
    | Some (nodes, inl e, decoder) =>
        Some (mkStatement (action stmt) attr (stmt_mapper stmt) nodes, Some e, decoder)
    | Some (nodes, inr _, decoder) =>
        Some (mkStatement (action stmt) attr (stmt_mapper stmt) nodes, None, decoder)
    end.

(** [parseSQLNode] *)
Definition parseSQLNode (fuel : nat) (sqlNode : SQLNode) (decoder : Decoder)
    (attr : list Attr) : option (Parsed SQLNode) :=
  let sqlNode := mkSQLNode (firstAttr (lit "id") attr) (sql_nodes sqlNode)
                   (sql_mapper sqlNode) in
  if eqb_str (sql_id sqlNode) [] then Some (sqlNode, Some ErrIdRequired, decoder)
  else
    match bodyLoop (parseTags fuel) fuel (sql_mapper sqlNode) (lit "sql")
            true false decoder (sql_nodes sqlNode) with
    | None => None
    | Some (nodes, inl e, decoder) =>
        Some (mkSQLNode (sql_id sqlNode) nodes (sql_mapper sqlNode), Some e, decoder)
    | Some (nodes, inr _, decoder) =>
        Some (mkSQLNode (sql_id sqlNode) nodes (sql_mapper sqlNode), None, decoder)
    end.

(** [case Select, Insert, Update, Delete] *)
Definition isAction (name : str) : bool :=
  eqb_str name (lit "select") || eqb_str name (lit "insert") ||
  eqb_str name (lit "update") || eqb_str name (lit "delete").

(** The loop of [parseMapper] over the children of an inline mapper. *)
Fixpoint mapperLoop (fuel fuel0 : nat) (mapper : Mapper) (decoder : Decoder)
    : option (Parsed (option Mapper)) :=
  match fuel with
  | O => None
  | S fuel' =>
      match next decoder with
      | (inl e, decoder) =>
          if isEOF e then Some (Some mapper, None, decoder)
          else Some (None, Some (asError e), decoder)
      | (inr (StartElement name attr), decoder) =>
          if isAction name then
            match parseStatement fuel0
                    (mkStatement name [] (namespace mapper) []) decoder attr with
            | None => None
            | Some (_, Some e, decoder) => Some (None, Some e, decoder)
            | Some (stmt, None, decoder) =>
                let key := Statement_Key stmt in
                if hasKey key (statements mapper)
                then Some (None, Some (ErrDuplicateStatementId (Statement_ID stmt)), decoder)
                else mapperLoop fuel' fuel0
                       (mkMapper (namespace mapper) (resource mapper) (url mapper)
                          (mapper_attrs mapper)
                          ((key, stmt) :: statements mapper) (sqlNodes mapper))
                       decoder
            end
          else if eqb_str name (lit "sql") then
            match parseSQLNode fuel0 (mkSQLNode [] [] (namespace mapper)) decoder attr with
            | None => None
            | Some (_, Some e, decoder) => Some (None, Some e, decoder)
            | Some (sqlNode, None, decoder) =>
                match setSqlNode mapper sqlNode with
                | (_, Some e) => Some (None, Some e, decoder)
                | (mapper, None) => mapperLoop fuel' fuel0 mapper decoder
                end
            end
          else mapperLoop fuel' fuel0 mapper decoder
      | (inr (EndElement name), decoder) =>
          if eqb_str name (lit "mapper") then Some (Some mapper, None, decoder)
          else mapperLoop fuel' fuel0 mapper decoder
      | (inr _, decoder) => mapperLoop fuel' fuel0 mapper decoder
      end
  end.

Section Sources.

(** [p.FS.Open(resource)] followed by [xml.NewDecoder]: the token
    stream of the file, or the error of opening it. *)
Variable FS_Open : str -> error + Decoder.

(** [http.Get(url)] followed by [xml.NewDecoder] on the body. *)
Variable http_Get : str -> error + Decoder.

Section ByReader.

(** [parseMapper] on the stream of the external document. *)
Variable parseMapper : Decoder -> list Attr -> option (Parsed (option Mapper)).

(** The loop of [parseMapperByReader]. The [break] after
    [parseMapper] leaves the [switch] only, so the loop goes on
    to [io.EOF]; [mapper] is the named result. *)
Fixpoint readerLoop (fuel : nat) (mapper : option Mapper) (decoder : Decoder)
    : option (option Mapper * option error) :=
  match fuel with
  | O => None
  | S fuel' =>
      match next decoder with
      | (inl e, decoder) =>
          if isEOF e then Some (mapper, None) else Some (None, Some (asError e))
      | (inr (StartElement name attr), decoder) =>
          if eqb_str name (lit "mapper") then
            match parseMapper decoder attr with
            | None => None
            | Some (_, Some e, _) => Some (None, Some e)
            | Some (mapper, None, decoder) => readerLoop fuel' mapper decoder
            end
          else readerLoop fuel' mapper decoder
      | (inr _, decoder) => readerLoop fuel' mapper decoder
      end
  end.

(** [parseMapperByReader]: [return mapper, err] returns the named
    results; the [err] the loop assigns is its own, so the named
    one is still nil. *)
Definition parseMapperByReader (fuel : nat) (reader : Decoder)
    : option (option Mapper * option error) :=
  readerLoop fuel None reader.

(** [parseMapperByResource] *)
Definition parseMapperByResource (fuel : nat) (resource : str)
    : option (option Mapper * option error) :=
  match FS_Open resource with
  | inl e => Some (None, Some e)
  | inr reader => parseMapperByReader fuel reader
  end.

(** [parseMapperByHttpResponse] *)
Definition parseMapperByHttpResponse (fuel : nat) (url : str)
    : option (option Mapper * option error) :=
  match http_Get url with
  | inl e => Some (None, Some e)
  | inr body => parseMapperByReader fuel body
  end.

(** [parseMapperByURL] *)
Definition parseMapperByURL (fuel : nat) (url : str)
    : option (option Mapper * option error) :=
  match strings.Split url (lit "://") with
  | [schema; path] =>
      if eqb_str schema (lit "file") then parseMapperByResource fuel path
      else if eqb_str schema (lit "http") || eqb_str schema (lit "https")
      then parseMapperByHttpResponse fuel url
      else Some (None, Some ErrInvalidURLSchema)
  | _ => Some (None, Some (ErrInvalidURL url))
  end.

End ByReader.

(** [parseMapper], on the attributes of the start element. A mapper
    with a [resource] or a [url] is the one its document gives, and
    the decoder at hand is left where it is. *)
Fixpoint parseMapper (fuel : nat) (decoder : Decoder) (attr : list Attr)
    {struct fuel} : option (Parsed (option Mapper)) :=
  match fuel with
  | O => None
  | S fuel' =>
      let namespace := lastAttr (lit "namespace") attr in
      if eqb_str namespace [] then Some (None, Some ErrNamespaceRequired, decoder)
      else
        let resource := lastAttr (lit "resource") attr in
        if negb (eqb_str resource []) then
          match parseMapperByResource (parseMapper fuel') fuel' resource with
          | None => None
          | Some (mapper, e) => Some (mapper, e, decoder)
          end
        else
          let url := lastAttr (lit "url") attr in
          if negb (eqb_str url []) then
            match parseMapperByURL (parseMapper fuel') fuel' url with
            | None => None
            | Some (mapper, e) => Some (mapper, e, decoder)
            end
          else
            mapperLoop fuel' fuel' (mkMapper namespace resource url attr [] []) decoder
  end.

(** [for key, stmt := range mapper.statements { ... }] *)
Fixpoint setStatements (mappers : Mappers) (stmts : list (str * Statement))
    : Mappers * option error :=
  match stmts with
  | [] => (mappers, None)
  | (key, stmt) :: rest =>
      match setStatementByID mappers key stmt with
      | (mappers, Some e) => (mappers, Some e)
      | (mappers, None) => setStatements mappers rest
      end
  end.

(** The error of a nil pointer dereference. *)
Definition nilDereference : error :=
  Panic (lit "runtime error: invalid memory address or nil pointer dereference").

(** [parseMappers]: the registry filled in and the error. Ranging
    over [mapper.statements] dereferences [mapper]. *)
Fixpoint parseMappers (fuel : nat) (mappers : Mappers) (decoder : Decoder)
    : option (Parsed Mappers) :=
  match fuel with
  | O => None
  | S fuel' =>
      match next decoder with
      | (inl e, decoder) =>
          if isEOF e then Some (mappers, None, decoder)
          else Some (mappers, Some (asError e), decoder)
      | (inr (StartElement name attr), decoder) =>
          if eqb_str name (lit "mapper") then
            match parseMapper fuel' decoder attr with
            | None => None
            | Some (_, Some e, decoder) => Some (mappers, Some e, decoder)
            | Some (None, None, decoder) => Some (mappers, Some nilDereference, decoder)
            | Some (Some mapper, None, decoder) =>
                match setStatements mappers (statements mapper) with
                | (mappers, Some e) => Some (mappers, Some e, decoder)
                | (mappers, None) => parseMappers fuel' mappers decoder
                end
            end
          else parseMappers fuel' mappers decoder
      | (inr (EndElement name), decoder) =>
          if eqb_str name (lit "mappers") then Some (mappers, None, decoder)
          else parseMappers fuel' mappers decoder
      | (inr _, decoder) => parseMappers fuel' mappers decoder
      end
  end.

End Sources.

End Elements.

End XMLParser.

(* ===================================================================== *)
(** ** The specification's words, as definitions                         *)
(* ===================================================================== *)

(** The fragments and the arguments of the children, each rendered on
    its own. *)
Definition fragments (rvs : Value -> str) (nodes : list Node)
    (translator : Translator) (p : Param) : list str :=
  map (fun n => query (Accept rvs n translator p)) nodes.

Definition arguments (rvs : Value -> str) (nodes : list Node)
    (translator : Translator) (p : Param) : list value :=
  concat (map (fun n => args (Accept rvs n translator p)) nodes).

Definition succeeds (rvs : Value -> str) (translator : Translator) (p : Param)
    (n : Node) : Prop :=
  err (Accept rvs n translator p) = None.

(** The text ends in white space: an ASCII white space byte or the last
    byte of an encoded white space rune. *)
Definition endsInWhitespace (q : str) : bool :=
  negb (eqb_str (strings.TrimRightSpace q) q).

(** The composition rule as the specification words it: the non-empty
    fragments left to right, one blank between two neighbours when the
    first does not end in white space. *)
Fixpoint joinNonEmpty (qs : list str) : str :=
  match qs with
  | [] => []
  | [q] => q
  | q :: rest => q ++ (if endsInWhitespace q then [] else lit " ") ++ joinNonEmpty rest
  end.

Definition composeSpec (qs : list str) : str :=
  joinNonEmpty (filter (fun q => negb (eqb_str q [])) qs).

(** The composition the loop of [NodeGroup.Accept] computes: after every
    fragment but the last, a blank when the fragment is not empty and
    does not end in the blank U+0020. *)
Fixpoint joinFragments (qs : list str) : str :=
  match qs with
  | [] => []
  | [q] => q
  | q :: rest =>
      q ++ (if negb (eqb_str q []) && negb (strings.HasSuffix q (lit " "))
            then lit " " else [])
        ++ joinFragments rest
  end.

(** The where rule as the specification words it: only leading white
    space goes. *)
Definition whereSpec (body : str) : str :=
  if eqb_str body [] then []
  else
    let rest := strings.TrimLeftSpace (stripAndOr body) in
    if beginsWithWhere rest then rest else lit "WHERE " ++ rest.

(** The trim rule as the specification words it: the overrides are cut
    from the body of the children, and only then [prefix] and [suffix]
    are put around it. *)
Definition trimSpec (t : TrimAttrs) (body : str) : str :=
  Prefix t ++ trimSuffixOverrides (trimPrefixOverrides body (PrefixOverrides t))
                (SuffixOverrides t)
           ++ Suffix t.




(* ===================================================================== *)
(** ** Concrete inputs                                                   *)
(* ===================================================================== *)

Module Examples.

(** The translator of a driver with positional [?] placeholders. *)
Definition questionMark : Translator := mkTranslator (fun _ => lit "?").

(** A [reflectValueToString] for the examples: a string as it is. *)
Definition showValue (v : Value) : str :=
  match val v with
  | VString s => s
  | _ => []
  end.

(** A parameter that is a flat map from names to values. *)
Definition params (l : list (str * value)) : Param :=
  fun name =>
    match assocStr name l with
    | Some v => Some (mkValue v true)
    | None => None
    end.

Definition noParams : Param := params [].

(** [<trim prefix="WHERE " prefixOverrides="AND ">AND a=1</trim>] *)
Definition trimWhere : TrimAttrs := mkTrim (lit "WHERE ") [lit "AND "] [] [].
Definition trimWhereNodes : list Node := [pureTextNode (lit "AND a=1")].

(** [<trim suffixOverrides="?">a = #{x}</trim>] with [{x: 1}] *)
Definition trimEatsToken : Node :=
  TrimNode (mkTrim [] [] [] [lit "?"]) [Text (NewTextNode (lit "a = #{x}"))].
Definition paramX : Param := params [(lit "x", VInt KInt 1)].

(** A translator that answers [#{b}] for [a] and [?] for any other
    name, and [{a: 1, b: 2}]. *)
Definition echoTranslator : Translator :=
  mkTranslator (fun name => if eqb_str name (lit "a") then lit "#{b}" else lit "?").
Definition paramAB : Param := params [(lit "a", VInt KInt 1); (lit "b", VInt KInt 2)].

(** [SELECT * FROM users WHERE id = #{id}] with [{id: 7}] *)
Definition selectById : Node :=
  NodeGroup [Text (NewTextNode (lit "SELECT * FROM users WHERE id = #{id}"))].
Definition paramId : Param := params [(lit "id", VInt KInt 7)].

(** A text followed by a child that renders to nothing. *)
Definition textThenEmpty : list Node := [pureTextNode (lit "a"); pureTextNode []].

(** [<where>a </where>], the text kept with its trailing blank. *)
Definition whereTrailingBlank : list Node := [pureTextNode (lit "a ")].

(** A [where] around a body that has its own [WHERE]. *)
Definition whereAlreadyLed : list Node := [pureTextNode (lit "AND WHERE id = 1")].

(** [<foreach collection="ids" item="x" index="i" open="(" close=")"
    separator=",">1</foreach>] *)
Definition foreachIds : ForeachAttrs :=
  mkForeach (lit "ids") (lit "x") (lit "i") (lit "(") (lit ")") (lit ",").
Definition foreachIdsNodes : list Node := [pureTextNode (lit "1")].

(** [{ids: [7, 8], i: 5}]: the index name is taken. *)
Definition paramIndexTaken : Param :=
  params [(lit "ids", VSlice [VInt KInt 7; VInt KInt 8]); (lit "i", VInt KInt 5)].

(** [{ids: [7, 8], x: 5}]: the item name is taken. *)
Definition paramItemTaken : Param :=
  params [(lit "ids", VSlice [VInt KInt 7; VInt KInt 8]); (lit "x", VInt KInt 5)].

(** [{ids: []}] *)
Definition paramEmptyIds : Param := params [(lit "ids", VSlice [])].

(** An expression that evaluates to the integer 3. *)
Definition exprThree : Expression := fun _ => inr (mkValue (VInt KInt 3) true).


(** The tokens after [<if test="id != 0">] in
    [<if test="id != 0">AND id = #{id}</if>]. *)
Definition ifBody : XMLParser.Decoder :=
  XMLParser.mkDecoder
    [XMLParser.CharData (lit "AND id = #{id}"); XMLParser.EndElement (lit "if")]
    XMLParser.io_EOF.

(** The document [<foo></foo>]: well formed, and no mapper in it. *)
Definition docNoMapper : XMLParser.Decoder :=
  XMLParser.mkDecoder
    [XMLParser.StartElement (lit "foo") []; XMLParser.EndElement (lit "foo")]
    XMLParser.io_EOF.

(** A file system with that one document, and no network. *)
Definition oneFile (path : str) : error + XMLParser.Decoder :=
  if eqb_str path (lit "m.xml") then inr docNoMapper
  else inl (ErrExternal (lit "file does not exist")).
Definition noNetwork (url : str) : error + XMLParser.Decoder :=
  inl (ErrExternal (lit "no network")).

(** [<mappers><mapper namespace="a" resource="m.xml"></mapper></mappers>],
    read after the start element [mappers]. *)
Definition mappersByResource : XMLParser.Decoder :=
  XMLParser.mkDecoder
    [XMLParser.StartElement (lit "mapper")
       [(lit "namespace", lit "a"); (lit "resource", lit "m.xml")];
     XMLParser.EndElement (lit "mapper");
     XMLParser.EndElement (lit "mappers")] XMLParser.io_EOF.

(** An [IfNode.init] that accepts every test. *)
Definition initOk (test : str) : option str := None.

End Examples.

(* ===================================================================== *)
(** ** Definitions the proofs use                                        *)
(* ===================================================================== *)

(** A white byte: a byte [strings.TrimSpace] may remove, which is an
    ASCII white space or a byte of an encoded rune. *)
Definition whiteByte (c : ascii) : bool :=
  strings.asciiSpace c || (128 <=? nat_of_ascii c).

(** The where rule as [WhereNode.Accept] computes it: white space goes
    from both ends, and the blank after [WHERE] is always written. *)
Definition whereRule (body : str) : str :=
  if eqb_str body [] then []
  else
    let rest := strings.TrimSpace (stripAndOr body) in
    if beginsWithWhere rest then rest else lit "WHERE " ++ rest.

(** *** Placeholder tokens in the returned SQL *)

(** A byte that can open a placeholder token: an ASCII byte that is no
    white space, no name character and none of [#], [$], [{], [}], [,]
    (such as [?], [:] or [@]). *)
Definition sigil (c : ascii) : bool :=
  (nat_of_ascii c <? 128) && negb (strings.asciiSpace c) &&
  negb (regexp.nameChar c) &&
  negb (Ascii.eqb c "#"%char) && negb (Ascii.eqb c "$"%char) &&
  negb (Ascii.eqb c "{"%char) && negb (Ascii.eqb c "}"%char) &&
  negb (Ascii.eqb c ","%char).

(** A token such as [?], [:name] or [@p1]: a sigil and name characters
    after it. *)
Definition safeToken (t : str) : bool :=
  match t with
  | c :: rest => sigil c && forallb regexp.nameChar rest
  | [] => false
  end.

Definition SafeTranslator (translator : Translator) : Prop :=
  forall name, safeToken (Translate translator name) = true.

Definition noSigil (s : str) : bool := forallb (fun c => negb (sigil c)) s.

(** An override of a [trim] that cannot cut into a token: no sigil in
    it and, for a suffix override, no name character in front. *)
Definition safePrefixOverride (o : str) : bool := noSigil o.

Definition safeSuffixOverride (o : str) : bool :=
  noSigil o &&
  match o with
  | c :: _ => negb (regexp.nameChar c)
  | [] => true
  end.

(** The SQL, cut into literal text and the placeholders the translator
    wrote, each with the name it was asked for and the value bound. *)
Inductive piece : Type :=
| Literal (text : str)
| Placeholder (name : str) (bound : value).

Fixpoint renderPieces (translator : Translator) (ps : list piece) : str :=
  match ps with
  | [] => []
  | Literal text :: rest => text ++ renderPieces translator rest
  | Placeholder name _ :: rest =>
      Translate translator name ++ renderPieces translator rest
  end.

Fixpoint placeholders (ps : list piece) : list (str * value) :=
  match ps with
  | [] => []
  | Literal _ :: rest => placeholders rest
  | Placeholder name bound :: rest => (name, bound) :: placeholders rest
  end.

(** A placeholder or substitution as the regular expressions match it:
    the sigil, a brace, blanks, the name, blanks, a brace. *)
Definition Shape (sg : ascii) (m name : str) : Prop :=
  exists sp1 sp2,
    m = sg :: "{"%char :: sp1 ++ name ++ sp2 ++ ["}"%char] /\
    forallb regexp.isBlank sp1 = true /\
    forallb regexp.nameChar name = true /\ name <> [] /\
    forallb regexp.isBlank sp2 = true.

(** No match of the placeholder pattern begins inside [P], whatever
    follows it. *)
Definition Barrier (P : str) : Prop :=
  forall m name R a b,
    Shape "#"%char m name -> P ++ R = a ++ m ++ b -> length P <= length a.

Fixpoint allNodes (P : Node -> Prop) (nodes : list Node) : Prop :=
  match nodes with
  | [] => True
  | n :: rest => P n /\ allNodes P rest
  end.

(** The trees the loader builds, with overrides that cannot cut into a
    token: every [TextNode] comes from [NewTextNode], and the overrides
    of every [trim] are safe. *)
Fixpoint WellFormed (n : Node) : Prop :=
  match n with
  | NodeGroup g => allNodes WellFormed g
  | pureTextNode _ => True
  | Text c => c = NewTextNode (value_ c)
  | ConditionNode _ Nodes => allNodes WellFormed Nodes
  | WhereNode Nodes => allNodes WellFormed Nodes
  | TrimNode t Nodes =>
      forallb safePrefixOverride (PrefixOverrides t) = true /\
      forallb safeSuffixOverride (SuffixOverrides t) = true /\
      allNodes WellFormed Nodes
  | ForeachNode _ Nodes => allNodes WellFormed Nodes
  | SetNode Nodes => allNodes WellFormed Nodes
  | SQLNode _ nodes => allNodes WellFormed nodes
  | IncludeNode sqlNode lookup =>
      match sqlNode with
      | Some s => WellFormed s
      | None =>
          match lookup with
          | inl _ => True
          | inr s => WellFormed s
          end
      end
  | ChooseNode whens otherwise =>
      allNodes WellFormed whens /\
      match otherwise with
      | Some o => WellFormed o
      | None => True
      end
  | OtherwiseNode Nodes => allNodes WellFormed Nodes
  | ValuesNode _ => True
  | SelectFieldAliasNode _ => True
  end.

(** *** Tactics *)





(* ===================================================================== *)
(** ** Rendering: what the statements below speak of                     *)
(* ===================================================================== *)

(** An error comes with no text and no arguments. *)
Definition Clean (r : Result) : Prop :=
  forall e, err r = Some e -> r = failed e.

(** The captured names of a list of matches. *)
Definition names (ms : list (list str)) : list str :=
  map (fun m => nth 1 m []) ms.

(** Every match is the matched text and one captured name. *)
Definition pairs (ms : list (list str)) : Prop :=
  Forall (fun m => exists matched name, m = [matched; name]) ms.

(** No byte of the text is that one. *)
Definition without (c : ascii) (s : str) : bool :=
  forallb (fun x => negb (Ascii.eqb x c)) s.

(** The parameter group [acceptSlice] and [acceptMap] build for one
    element, given as its index or key and its value. *)
Definition elementGroup (f : ForeachAttrs) (p : Param) (e : value * value) : Param :=
  ParamGroup [AsParam (foreachScope (Item f) (Index f) (snd e) (fst e)); p].

(** The elements of a slice with their indexes, counted from [i]. *)
Fixpoint indexed (i : Z) (items : list value) : list (value * value) :=
  match items with
  | [] => []
  | item :: rest => (VInt KInt i, item) :: indexed (i + 1) rest
  end.

(** The text and the arguments the children give for one element. *)
Definition elementText (rvs : Value -> str) (f : ForeachAttrs) (Nodes : list Node)
    (translator : Translator) (p : Param) (e : value * value) : str :=
  concat (fragments rvs Nodes translator (elementGroup f p e)).

Definition elementArgs (rvs : Value -> str) (f : ForeachAttrs) (Nodes : list Node)
    (translator : Translator) (p : Param) (e : value * value) : list value :=
  arguments rvs Nodes translator (elementGroup f p e).

(** The composition the loop of [TrimNode.Accept] computes: after every
    fragment but the last, a blank when the fragment does not end in
    the blank U+0020, and one more when it is not empty either. *)
Fixpoint trimJoin (qs : list str) : str :=
  match qs with
  | [] => []
  | [q] => q
  | q :: rest =>
      q ++ (if negb (strings.HasSuffix q (lit " ")) then lit " " else [])
        ++ (if negb (eqb_str q []) && negb (strings.HasSuffix q (lit " "))
            then lit " " else [])
        ++ trimJoin rest
  end.

(** What [TrimNode.Accept] does to the text of its loop. *)
Definition trimFinish (t : TrimAttrs) (query : str) : str :=
  let query :=
    if 0 <? length (PrefixOverrides t)
    then trimPrefixOverrides query (PrefixOverrides t) else query in
  let query :=
    if 0 <? length (SuffixOverrides t)
    then trimSuffixOverrides query (SuffixOverrides t) else query in
  if negb (eqb_str (Suffix t) []) then query ++ Suffix t else query.

(** The kinds [ForeachNode.Accept] ranges over. *)
Definition iterableKind (k : Reflect.Kind) : bool :=
  match k with
  | Reflect.Array | Reflect.Slice | Reflect.Map => true
  | _ => false
  end.

(* ===================================================================== *)
(** ** Result maps: the column sets of [node.go]                         *)
(* ===================================================================== *)

Module ResultMap.

(** [fmt.Errorf("field mapping %s is unbiguous", column)] *)
Inductive columnsError : Type :=
| ErrUnbiguous (column : str).

(** A [map[string]struct{}]: its keys, the latest first. Ranging over
    it goes through the list in order. *)
Definition columnSet : Type := list str.

Definition has (k : str) (m : columnSet) : bool := existsb (eqb_str k) m.

(** [resultNode] *)
Record resultNode : Type := mkResultNode { property : str; column : str }.

(** [resultGroup] *)
Definition resultGroup : Type := list resultNode.

(** The loop of [resultGroup.Columns]. *)
Fixpoint resultGroup_loop (r : resultGroup) (m : columnSet)
    : columnsError + columnSet :=
  match r with
  | [] => inr m
  | v :: rest =>
      if has (column v) m then inl (ErrUnbiguous (column v))
      else resultGroup_loop rest (column v :: m)
  end.

(** [resultGroup.Columns] *)
Definition resultGroup_Columns (r : resultGroup) : columnsError + columnSet :=
  resultGroup_loop r [].

(** [for k, v := range src { if _, ok := dst[k]; ok { return nil, err };
    dst[k] = v }], the loop that [association.Columns],
    [associationGroup.Columns], [collection.Columns] and
    [collectionGroup.Columns] each write out. *)
Fixpoint mergeColumns (src dst : columnSet) : columnsError + columnSet :=
  match src with
  | [] => inr dst
  | k :: rest =>
      if has k dst then inl (ErrUnbiguous k)
      else mergeColumns rest (k :: dst)
  end.

(** [association]: results and associations, nested. *)
Inductive association : Type :=
| mkAssociation (property : str) (results : resultGroup)
    (associations : list association).

Definition associationGroup : Type := list association.

Section Groups.

(** [association.Columns] for the members of a group. *)
Variable association_Columns : association -> columnsError + columnSet.

(** The loop of [associationGroup.Columns]. *)
Fixpoint associationGroup_loop (a : list association) (m : columnSet)
    : columnsError + columnSet :=
  match a with
  | [] => inr m
  | assoc :: rest =>
      match association_Columns assoc with
      | inl e => inl e
      | inr columns =>
          match mergeColumns columns m with
          | inl e => inl e
          | inr m => associationGroup_loop rest m
          end
      end
  end.

End Groups.

(** [association.Columns] *)
Fixpoint association_Columns (a : association) : columnsError + columnSet :=
  match a with
  | mkAssociation _ results associations =>
      match resultGroup_Columns results with
      | inl e => inl e
      | inr resultGroupColumns =>
          match mergeColumns resultGroupColumns [] with
          | inl e => inl e
          | inr columns =>
              match associationGroup_loop association_Columns associations [] with
              | inl e => inl e
              | inr associationGroupColumns =>
                  mergeColumns associationGroupColumns columns
              end
          end
      end
  end.

(** [associationGroup.Columns] *)
Definition associationGroup_Columns (a : associationGroup) : columnsError + columnSet :=
  associationGroup_loop association_Columns a [].

(** [collection] *)
Record collection : Type := mkCollection {
  collection_property : str;
  collection_resultGroup : resultGroup;
  collection_associationGroup : associationGroup
}.

(** [collection.Columns] *)
Definition collection_Columns (c : collection) : columnsError + columnSet :=
  match resultGroup_Columns (collection_resultGroup c) with
  | inl e => inl e
  | inr resultGroupColumns =>
      match mergeColumns resultGroupColumns [] with
      | inl e => inl e
      | inr m =>
          match associationGroup_Columns (collection_associationGroup c) with
          | inl e => inl e
          | inr associationGroupColumns => mergeColumns associationGroupColumns m
          end
      end
  end.

(** [collectionGroup.Columns] *)
Fixpoint collectionGroup_loop (c : list collection) (m : columnSet)
    : columnsError + columnSet :=
  match c with
  | [] => inr m
  | coll :: rest =>
      match collection_Columns coll with
      | inl e => inl e
      | inr columns =>
          match mergeColumns columns m with
          | inl e => inl e
          | inr m => collectionGroup_loop rest m
          end
      end
  end.

Definition collectionGroup_Columns (c : list collection) : columnsError + columnSet :=
  collectionGroup_loop c [].

(** Every column an association maps, its own results first. *)
Fixpoint allColumns (a : association) : list str :=
  match a with
  | mkAssociation _ results associations =>
      map column results ++
      (fix all (l : list association) : list str :=
         match l with
         | [] => []
         | x :: rest => allColumns x ++ all rest
         end) associations
  end.

Definition groupColumns (g : list association) : list str :=
  concat (map allColumns g).

Definition collectionColumns (c : collection) : list str :=
  map column (collection_resultGroup c) ++
  groupColumns (collection_associationGroup c).

(** The same keys. *)
Definition sameKeys (a b : list str) : Prop := forall k, In k a <-> In k b.

(** How often a column is mapped. *)
Definition occurrences (k : str) (cols : list str) : nat :=
  count_occ (list_eq_dec ascii_dec) cols k.

(** What a [Columns] call says of the columns [cols] it went through:
    a set of exactly those columns when they are pairwise distinct, and
    otherwise an error that names a column mapped twice. *)
Definition Collects (res : columnsError + columnSet) (cols : list str) : Prop :=
  match res with
  | inr m => NoDup cols /\ NoDup m /\ sameKeys m cols
  | inl (ErrUnbiguous k) => 2 <= occurrences k cols
  end.

End ResultMap.

(* ===================================================================== *)
(** ** The XML loader: environments                                      *)
(* ===================================================================== *)

Module Environments.

Import XMLParser.

(** The errors of [parseEnvironments] and [parseEnvironment]: those of
    the decoder, of [strconv.Atoi], and their own. *)
Inductive loadError : Type :=
| Decoding (e : tokenError)
| ErrAtoi (text : str)
| ErrDefaultEnvironmentRequired
| ErrEnvironmentIdRequired
| ErrDuplicateEnvironmentId (id : str).

(** [Environment], by the fields the parser assigns. *)
Record Environment : Type := mkEnvironment {
  ID : str;
  DataSource : str;
  Driver : str;
  MaxIdleConnNum : Z;
  MaxOpenConnNum : Z;
  MaxConnLifetime : Z;
  MaxIdleConnLifetime : Z
}.

(** [Environments]: the default id and the map from ids. *)
Record Environments : Type := mkEnvironments {
  Default : str;
  envs : list (str * Environment)
}.

(** The loop of [parseCharData]: the character data seen last. *)
Fixpoint charDataLoop (endElementName : str) (charData : str)
    (tokens : list Token) (final : tokenError) : str * option tokenError * Decoder :=
  match tokens with
  | [] =>
      if isEOF final then (charData, None, mkDecoder [] final)
      else ([], Some final, mkDecoder [] final)
  | CharData data :: rest => charDataLoop endElementName data rest final
  | EndElement name :: rest =>
      if eqb_str name endElementName then (charData, None, mkDecoder rest final)
      else charDataLoop endElementName charData rest final
  | _ :: rest => charDataLoop endElementName charData rest final
  end.

(** [parseCharData] *)
Definition parseCharData (decoder : Decoder) (endElementName : str)
    : str * option tokenError * Decoder :=
  charDataLoop endElementName [] (pending decoder) (final decoder).

Section Parser.

(** [strconv.Atoi]: the integer, or nothing when it returns an error. *)
Variable Atoi : str -> option Z.

(** [parseIntCharData] *)
Definition parseIntCharData (decoder : Decoder) (endElementName : str)
    : Z * option loadError * Decoder :=
  match parseCharData decoder endElementName with
  | (_, Some e, decoder) => (0%Z, Some (Decoding e), decoder)
  | (charData, None, decoder) =>
      match Atoi charData with
      | Some n => (n, None, decoder)
      | None => (0%Z, Some (ErrAtoi charData), decoder)
      end
  end.

(** [parseMaxIdleConnNum], [parseDataSource], [parseDriver],
    [parseMaxOpenConnNum], [parseMaxConnLifetime] and
    [parseMaxIdleConnLifetime], each with the end element it names. *)
Definition parseMaxIdleConnNum (decoder : Decoder) :=
  parseIntCharData decoder (lit "maxIdleConnNum").
Definition parseDataSource (decoder : Decoder) :=
  parseCharData decoder (lit "dataSource").
Definition parseDriver (decoder : Decoder) :=
  parseCharData decoder (lit "driver").
Definition parseMaxOpenConnNum (decoder : Decoder) :=
  parseIntCharData decoder (lit "maxOpenConnNum").
Definition parseMaxConnLifetime (decoder : Decoder) :=
  parseIntCharData decoder (lit "maxConnLifetime").
Definition parseMaxIdleConnLifetime (decoder : Decoder) :=
  parseIntCharData decoder (lit "maxIdleConnLifetime").

(** The loop of [parseEnvironment]. *)
Fixpoint environmentLoop (fuel : nat) (env : Environment) (decoder : Decoder)
    : option (option Environment * option loadError * Decoder) :=
  match fuel with
  | O => None
  | S fuel' =>
      match next decoder with
      | (inl e, decoder) =>
          if isEOF e then Some (Some env, None, decoder)
          else Some (None, Some (Decoding e), decoder)
      | (inr (StartElement name _), decoder) =>
          if eqb_str name (lit "dataSource") then
            match parseDataSource decoder with
            | (_, Some e, decoder) => Some (None, Some (Decoding e), decoder)
            | (s, None, decoder) =>
                environmentLoop fuel'
                  (mkEnvironment (ID env) s (Driver env) (MaxIdleConnNum env)
                     (MaxOpenConnNum env) (MaxConnLifetime env)
                     (MaxIdleConnLifetime env)) decoder
            end
          else if eqb_str name (lit "driver") then
            match parseDriver decoder with
            | (_, Some e, decoder) => Some (None, Some (Decoding e), decoder)
            | (s, None, decoder) =>
                environmentLoop fuel'
                  (mkEnvironment (ID env) (DataSource env) s (MaxIdleConnNum env)
                     (MaxOpenConnNum env) (MaxConnLifetime env)
                     (MaxIdleConnLifetime env)) decoder
            end
          else if eqb_str name (lit "maxIdleConnNum") then
            match parseMaxIdleConnNum decoder with
            | (_, Some e, decoder) => Some (None, Some e, decoder)
            | (n, None, decoder) =>
                environmentLoop fuel'
                  (mkEnvironment (ID env) (DataSource env) (Driver env) n
                     (MaxOpenConnNum env) (MaxConnLifetime env)
                     (MaxIdleConnLifetime env)) decoder
            end
          else if eqb_str name (lit "maxOpenConnNum") then
            match parseMaxOpenConnNum decoder with
            | (_, Some e, decoder) => Some (None, Some e, decoder)
            | (n, None, decoder) =>
                environmentLoop fuel'
                  (mkEnvironment (ID env) (DataSource env) (Driver env)
                     (MaxIdleConnNum env) n (MaxConnLifetime env)
                     (MaxIdleConnLifetime env)) decoder
            end
          else if eqb_str name (lit "maxLifetime") then
            match parseMaxConnLifetime decoder with
            | (_, Some e, decoder) => Some (None, Some e, decoder)
            | (n, None, decoder) =>
                environmentLoop fuel'
                  (mkEnvironment (ID env) (DataSource env) (Driver env)
                     (MaxIdleConnNum env) (MaxOpenConnNum env) n
                     (MaxIdleConnLifetime env)) decoder
            end
          else if eqb_str name (lit "maxIdleConnLifetime") then
            match parseMaxIdleConnLifetime decoder with
            | (_, Some e, decoder) => Some (None, Some e, decoder)
            | (n, None, decoder) =>
                environmentLoop fuel'
                  (mkEnvironment (ID env) (DataSource env) (Driver env)
                     (MaxIdleConnNum env) (MaxOpenConnNum env)
                     (MaxConnLifetime env) n) decoder
            end
          else environmentLoop fuel' env decoder
      | (inr (EndElement name), decoder) =>
          if eqb_str name (lit "environment") then Some (Some env, None, decoder)
          else environmentLoop fuel' env decoder
      | (inr _, decoder) => environmentLoop fuel' env decoder
      end
  end.

(** [parseEnvironment], on the attributes of the start element. *)
Definition parseEnvironment (fuel : nat) (decoder : Decoder) (attr : list Attr)
    : option (option Environment * option loadError * Decoder) :=
  let id := firstAttr (lit "id") attr in
  if eqb_str id [] then Some (None, Some ErrEnvironmentIdRequired, decoder)
  else environmentLoop fuel (mkEnvironment id [] [] 0 0 0 0) decoder.

(** The loop of [parseEnvironments]. *)
Fixpoint environmentsLoop (fuel : nat) (envs : Environments) (decoder : Decoder)
    : option (option Environments * option loadError * Decoder) :=
  match fuel with
  | O => None
  | S fuel' =>
      match next decoder with
      | (inl e, decoder) =>
          if isEOF e then Some (Some envs, None, decoder)
          else Some (None, Some (Decoding e), decoder)
      | (inr (StartElement name attr), decoder) =>
          if eqb_str name (lit "environment") then
            match parseEnvironment fuel' decoder attr with
            | None => None
            | Some (_, Some e, decoder) => Some (None, Some e, decoder)
            | Some (None, None, decoder) => Some (None, None, decoder)
            | Some (Some environment, None, decoder) =>
                if hasKey (ID environment) (Environments.envs envs)
                then Some (None, Some (ErrDuplicateEnvironmentId (ID environment)), decoder)
                else environmentsLoop fuel'
                       (mkEnvironments (Default envs)
                          ((ID environment, environment) :: Environments.envs envs))
                       decoder
            end
          else environmentsLoop fuel' envs decoder
      | (inr (EndElement name), decoder) =>
          if eqb_str name (lit "environments") then Some (Some envs, None, decoder)
          else environmentsLoop fuel' envs decoder
      | (inr _, decoder) => environmentsLoop fuel' envs decoder
      end
  end.

(** [parseEnvironments], on the attributes of the start element. *)
Definition parseEnvironments (fuel : nat) (decoder : Decoder) (attr : list Attr)
    : option (option Environments * option loadError * Decoder) :=
  let default := firstAttr (lit "default") attr in
  if eqb_str default [] then Some (None, Some ErrDefaultEnvironmentRequired, decoder)
  else environmentsLoop fuel (mkEnvironments default []) decoder.

End Parser.

(** The character data seen last among the tokens, [charData] when
    there is none. *)
Fixpoint lastCharData (charData : str) (tokens : list Token) : str :=
  match tokens with
  | [] => charData
  | CharData data :: rest => lastCharData data rest
  | _ :: rest => lastCharData charData rest
  end.

(** No end element of that name among the tokens. *)
Fixpoint noEndElement (name : str) (tokens : list Token) : bool :=
  match tokens with
  | [] => true
  | EndElement n :: rest => negb (eqb_str n name) && noEndElement name rest
  | _ :: rest => noEndElement name rest
  end.

(** What holds of the environments registered so far: no id twice,
    each under its own id, and no id empty. *)
Definition Registered (envs : Environments) : Prop :=
  NoDup (map fst (Environments.envs envs)) /\
  forall k env, In (k, env) (Environments.envs envs) -> k = ID env /\ ID env <> [].

End Environments.

(* ===================================================================== *)
(** ** The XML loader: the text of a body                                *)
(* ===================================================================== *)

Module Bodies.

Import XMLParser.

(** A token that is neither a start nor an end element. *)
Definition leaf (t : Token) : bool :=
  match t with
  | StartElement _ _ | EndElement _ => false
  | _ => true
  end.

(** The text nodes of the character data among the tokens: each piece
    trimmed, the blank ones left out. *)
Fixpoint textNodes (tokens : list Token) : list Node :=
  match tokens with
  | [] => []
  | CharData text :: rest =>
      let char := strings.TrimSpace text in
      if negb (eqb_str char []) then TextNode char :: textNodes rest
      else textNodes rest
  | _ :: rest => textNodes rest
  end.

(** A tree as the parser leaves it: no text node is empty, an [if] has
    a test, a [foreach] an item and a collection (its own or the
    default one), an [include] a reference and the mapper it was read
    in. A nil node stands where [parseSet] met the end of the input. *)
Fixpoint wellParsed (defaultParamKey mapper : str) (n : Node) : Prop :=
  let all :=
    fix all (l : list Node) : Prop :=
      match l with
      | [] => True
      | x :: rest => wellParsed defaultParamKey mapper x /\ all rest
      end in
  match n with
  | nilNode => True
  | TextNode text => text <> []
  | IfNode test nodes => test <> [] /\ all nodes
  | WhereNode nodes => all nodes
  | TrimNode _ _ _ _ nodes => all nodes
  | ForeachNode collection item _ _ _ _ nodes =>
      item <> [] /\ (collection <> [] \/ collection = defaultParamKey) /\ all nodes
  | SetNode nodes => all nodes
  | IncludeNode ref m => ref <> [] /\ m = mapper
  end.

End Bodies.

(* ===================================================================== *)
(** ** Sample inputs                                                     *)
(* ===================================================================== *)

Module Samples.

Import XMLParser.

(** A stand-in for [strconv.Atoi] on unsigned decimal numerals. *)
Fixpoint digitsFrom (acc : Z) (s : str) : option Z :=
  match s with
  | [] => Some acc
  | c :: rest =>
      let n := nat_of_ascii c in
      if (48 <=? n)%nat && (n <=? 57)%nat
      then digitsFrom (10 * acc + Z.of_nat (n - 48)) rest
      else None
  end.

Definition atoiDigits (s : str) : option Z :=
  match s with
  | [] => None
  | _ => digitsFrom 0 s
  end.

(** [<driver>my<!-- -->sql</driver>] and what follows it. *)
Definition driverText : list Token := [CharData (lit "my"); Comment; CharData (lit "sql")].
Definition afterDriver : list Token := [EndElement (lit "environment")].

(** [<maxLifetime>60</maxLifetime><driver>7</driver></environment>]
    and a second environment after it. *)
Definition afterMaxLifetime : list Token :=
  [CharData (lit "60"); EndElement (lit "maxLifetime");
   StartElement (lit "driver") []; CharData (lit "7"); EndElement (lit "driver");
   EndElement (lit "environment");
   StartElement (lit "environment") [(lit "id", lit "test")];
   EndElement (lit "environment")].

(** An environment with only an id. *)
Definition bareEnvironment : Environments.Environment :=
  Environments.mkEnvironment (lit "prod") [] [] 0 0 0 0.

(** The tokens after [<environments default="prod">] of a document
    with the environments [prod] and [test]. *)
Definition twoEnvironments : Decoder :=
  mkDecoder
    [StartElement (lit "environment") [(lit "id", lit "prod")];
     StartElement (lit "driver") []; CharData (lit "mysql"); EndElement (lit "driver");
     EndElement (lit "environment");
     StartElement (lit "environment") [(lit "id", lit "test")];
     EndElement (lit "environment");
     EndElement (lit "environments")]
    io_EOF.

(** The tokens between [<where>] and [</where>] in
    [<where>  a = 1 <!-- c -->  </where>]. *)
Definition paddedText : list Token :=
  [CharData (lit "  a = 1 "); Comment; CharData (lit "  ")].

End Samples.

Module Inputs.

(** A group whose second child needs a parameter that is not there. *)
Definition brokenGroup : Node :=
  NodeGroup [pureTextNode (lit "SELECT 1 WHERE"); Text (NewTextNode (lit "id = #{id}"))].

(** A [when] whose test holds and whose body is empty, one with a
    text, and an [otherwise]. *)
Definition emptyWhen : Node := ConditionNode Examples.exprThree [].
Definition whenB : Node := ConditionNode Examples.exprThree [pureTextNode (lit "b")].
Definition otherwiseC : Node := OtherwiseNode [pureTextNode (lit "c")].

(** The bodies [#{x}] and [#{i}=#{x}] of a [foreach], the parameters
    [{ids: [7, 8]}], [{ids: {a: 1, b: 2}}] and [{ids: "7,8"}]. *)
Definition foreachItem : list Node := [Text (NewTextNode (lit "#{x}"))].
Definition foreachEntry : list Node := [Text (NewTextNode (lit "#{i}=#{x}"))].
Definition idsSlice : Value := mkValue (VSlice [VInt KInt 7; VInt KInt 8]) true.
Definition idsMap : Value :=
  mkValue (VMap [(VString (lit "a"), VInt KInt 1); (VString (lit "b"), VInt KInt 2)]) true.
Definition idsString : Value := mkValue (VString (lit "7,8")) true.
Definition paramIds : Param :=
  Examples.params [(lit "ids", VSlice [VInt KInt 7; VInt KInt 8])].
Definition paramIdsMap : Param :=
  Examples.params
    [(lit "ids", VMap [(VString (lit "a"), VInt KInt 1); (VString (lit "b"), VInt KInt 2)])].
Definition paramIdsString : Param := Examples.params [(lit "ids", VString (lit "7,8"))].

(** Two texts, for the body of a [trim]. *)
Definition twoTexts : list Node := [pureTextNode (lit "a"); pureTextNode (lit "b")].

(** A text that names [a] twice. *)
Definition repeated : str := lit "a = #{a} AND b = #{b} OR a = #{a}".

(** [<where>order_id = 1</where>] *)
Definition whereOrder : list Node := [pureTextNode (lit "order_id = 1")].

(** Translators with the tokens [$1] and [$], whatever the name, and the
    bytes their tokens begin with; the byte [?]. *)
Definition dollarOne : Translator := mkTranslator (fun _ => lit "$1").
Definition bareDollar : Translator := mkTranslator (fun _ => lit "$").
Definition isDollar (c : ascii) : bool := Ascii.eqb c "$"%char.
Definition isQuestionMark (c : ascii) : bool := Ascii.eqb c "?"%char.

(** [{a: 1, t: "X"}] *)
Definition paramAT : Param :=
  Examples.params [(lit "a", VInt KInt 1); (lit "t", VString (lit "X"))].

End Inputs.
(* ===================================================================== *)
(** ** Placeholder tokens and the arguments of a render                  *)
(* ===================================================================== *)

(** A byte a placeholder token can begin with: an ASCII byte that is no
    white space, no name character and none of [{], [}], [,] (such as
    [?], [:], [@], [$]). *)
Definition starter (c : ascii) : bool :=
  (nat_of_ascii c <? 128) && negb (strings.asciiSpace c) &&
  negb (regexp.nameChar c) &&
  negb (Ascii.eqb c "{"%char) && negb (Ascii.eqb c "}"%char) &&
  negb (Ascii.eqb c ","%char).

(** A token that begins with a byte of [mk]: that byte and name
    characters after it, at least one when the byte is [#] or [$] (so
    [?], [:name], [@p1], [$1], and not a bare [$]). *)
Definition tokenOf (mk : ascii -> bool) (t : str) : bool :=
  match t with
  | c :: rest =>
      mk c && forallb regexp.nameChar rest &&
      (negb (Ascii.eqb c "#"%char || Ascii.eqb c "$"%char) || negb (eqb_str rest []))
  | [] => false
  end.

(** The translator writes tokens that begin with the bytes of [mk]. *)
Definition Tokens (mk : ascii -> bool) (translator : Translator) : Prop :=
  (forall c, mk c = true -> starter c = true) /\
  (forall name, tokenOf mk (Translate translator name) = true).

(** No byte of [mk] in the text. *)
Definition avoids (mk : ascii -> bool) (s : str) : bool :=
  forallb (fun c => negb (mk c)) s.

(** The number of bytes of [mk] in the text: of tokens, when the text
    holds these bytes in its tokens only. *)
Definition countOf (mk : ascii -> bool) (s : str) : nat := length (filter mk s).

(** An override of a [trim] that cannot cut into a token: no byte of
    [mk] in it and, for a suffix override, no name character in front. *)
Definition prefixOverrideFor (mk : ascii -> bool) (o : str) : bool := avoids mk o.

Definition suffixOverrideFor (mk : ascii -> bool) (o : str) : bool :=
  avoids mk o &&
  match o with
  | c :: _ => negb (regexp.nameChar c)
  | [] => true
  end.

(** The trees the loader builds, with overrides that cannot cut into a
    token that begins with a byte of [mk]. *)
Fixpoint WellFormedFor (mk : ascii -> bool) (n : Node) : Prop :=
  match n with
  | NodeGroup g => allNodes (WellFormedFor mk) g
  | pureTextNode _ => True
  | Text c => c = NewTextNode (value_ c)
  | ConditionNode _ Nodes => allNodes (WellFormedFor mk) Nodes
  | WhereNode Nodes => allNodes (WellFormedFor mk) Nodes
  | TrimNode t Nodes =>
      forallb (prefixOverrideFor mk) (PrefixOverrides t) = true /\
      forallb (suffixOverrideFor mk) (SuffixOverrides t) = true /\
      allNodes (WellFormedFor mk) Nodes
  | ForeachNode _ Nodes => allNodes (WellFormedFor mk) Nodes
  | SetNode Nodes => allNodes (WellFormedFor mk) Nodes
  | SQLNode _ nodes => allNodes (WellFormedFor mk) nodes
  | IncludeNode sqlNode lookup =>
      match sqlNode with
      | Some s => WellFormedFor mk s
      | None =>
          match lookup with
          | inl _ => True
          | inr s => WellFormedFor mk s
          end
      end
  | ChooseNode whens otherwise =>
      allNodes (WellFormedFor mk) whens /\
      match otherwise with
      | Some o => WellFormedFor mk o
      | None => True
      end
  | OtherwiseNode Nodes => allNodes (WellFormedFor mk) Nodes
  | ValuesNode _ => True
  | SelectFieldAliasNode _ => True
  end.

(** The value a scope gives a name, as an argument. *)
Definition argumentOf (scope : Param) (name : str) : value :=
  match scope name with
  | Some v => Interface v
  | None => VNil
  end.

(** The placeholders of a text, in the order of its matches, each with
    the value the scope gives its name. *)
Definition textHoles (scope : Param) (ms : list (list str)) : list (str * value) :=
  map (fun name => (name, argumentOf scope name)) (names ms).

(** The text [ValuesNode.Accept] builds. *)
Definition valuesText (v : list valueItem) : str :=
  lit "(" ++ columns v ++ lit ") VALUES (" ++ values v ++ lit ")".

(** The placeholders a render goes through, left to right, each with
    its name and the value its name has in the scope in force there:
    the parameter of the call, and inside a [foreach] the scope of the
    element at hand in front of it. A condition that does not hold
    contributes nothing, a [choose] contributes the branch it returns,
    a [foreach] its children once for every element, in order. *)
Fixpoint holes (rvs : Value -> str) (translator : Translator) (n : Node)
    (p : Param) {struct n} : list (str * value) :=
  match n with
  | NodeGroup g => concat (map (fun c => holes rvs translator c p) g)
  | pureTextNode _ => []
  | Text c => textHoles p (placeholder c)
  | ConditionNode expr Nodes =>
      match Match expr p with
      | (true, None) => concat (map (fun c => holes rvs translator c p) Nodes)
      | _ => []
      end
  | WhereNode Nodes => concat (map (fun c => holes rvs translator c p) Nodes)
  | TrimNode _ Nodes => concat (map (fun c => holes rvs translator c p) Nodes)
  | ForeachNode f Nodes =>
      match p (Collection f) with
      | Some v =>
          match unwrapInterface (val v) with
          | VArray elems | VSlice elems =>
              concat (map (fun e =>
                             concat (map (fun c =>
                                            holes rvs translator c (elementGroup f p e))
                                       Nodes))
                        (indexed 0 elems))
          | VMap entries =>
              concat (map (fun e =>
                             concat (map (fun c =>
                                            holes rvs translator c (elementGroup f p e))
                                       Nodes))
                        entries)
          | _ => []
          end
      | None => []
      end
  | SetNode Nodes => concat (map (fun c => holes rvs translator c p) Nodes)
  | SQLNode _ nodes => concat (map (fun c => holes rvs translator c p) nodes)
  | IncludeNode sqlNode lookup =>
      match sqlNode with
      | Some s => holes rvs translator s p
      | None =>
          match lookup with
          | inl _ => []
          | inr s => holes rvs translator s p
          end
      end
  | ChooseNode whens otherwise =>
      (fix pick (ws : list Node) : list (str * value) :=
         match ws with
         | w :: rest =>
             if 0 <? length (query (Accept rvs w translator p))
             then holes rvs translator w p
             else pick rest
         | [] =>
             match otherwise with
             | Some o => holes rvs translator o p
             | None => []
             end
         end) whens
  | OtherwiseNode Nodes => concat (map (fun c => holes rvs translator c p) Nodes)
  | ValuesNode v =>
      if length v =? 0 then []
      else textHoles p (placeholder (NewTextNode (valuesText v)))
  | SelectFieldAliasNode _ => []
  end.

(** The literal text of a text node is made of bytes [ok] admits:
    the text itself and, when it has substitutions, what
    [reflectValueToString] writes. *)
Definition AdmitsText (ok : ascii -> bool) (rvs : Value -> str) (c : TextNode) : Prop :=
  forallb ok (value_ c) = true /\
  (textSubstitution c = [] \/ forall v, forallb ok (rvs v) = true).

(** All the literal text a render of the tree can write is made of
    bytes [ok] admits. *)
Fixpoint Admits (ok : ascii -> bool) (rvs : Value -> str) (n : Node) : Prop :=
  match n with
  | NodeGroup g => allNodes (Admits ok rvs) g
  | pureTextNode s => forallb ok s = true
  | Text c => AdmitsText ok rvs c
  | ConditionNode _ Nodes => allNodes (Admits ok rvs) Nodes
  | WhereNode Nodes => allNodes (Admits ok rvs) Nodes
  | TrimNode t Nodes =>
      forallb ok (Prefix t) = true /\ forallb ok (Suffix t) = true /\
      allNodes (Admits ok rvs) Nodes
  | ForeachNode f Nodes =>
      forallb ok (Open f) = true /\ forallb ok (Close f) = true /\
      forallb ok (Separator f) = true /\ allNodes (Admits ok rvs) Nodes
  | SetNode Nodes => allNodes (Admits ok rvs) Nodes
  | SQLNode _ nodes => allNodes (Admits ok rvs) nodes
  | IncludeNode sqlNode lookup =>
      match sqlNode with
      | Some s => Admits ok rvs s
      | None =>
          match lookup with
          | inl _ => True
          | inr s => Admits ok rvs s
          end
      end
  | ChooseNode whens otherwise =>
      allNodes (Admits ok rvs) whens /\
      match otherwise with
      | Some o => Admits ok rvs o
      | None => True
      end
  | OtherwiseNode Nodes => allNodes (Admits ok rvs) Nodes
  | ValuesNode v => AdmitsText ok rvs (NewTextNode (valuesText v))
  | SelectFieldAliasNode s =>
      forallb ok (query (SelectFieldAliasNode_Accept s)) = true
  end.

(** The statement is plain for [mk]: none of its literal text holds a
    byte a token begins with. *)
Definition Plain (mk : ascii -> bool) (rvs : Value -> str) (n : Node) : Prop :=
  Admits (fun c => negb (mk c)) rvs n.

(** A string made of literal bytes that [ok] admits and of the tokens
    of the holes, in order. *)
Inductive Dec (ok : ascii -> bool) (translator : Translator)
    : str -> list (str * value) -> Prop :=
| Dec_nil : Dec ok translator [] []
| Dec_char (c : ascii) (s : str) (holes : list (str * value)) :
    ok c = true ->
    Dec ok translator s holes -> Dec ok translator (c :: s) holes
| Dec_token (name : str) (bound : value) (s : str) (holes : list (str * value)) :
    Dec ok translator s holes ->
    Dec ok translator (Translate translator name ++ s) ((name, bound) :: holes).

(** The literal text of the pieces. *)
Fixpoint literals (ps : list piece) : str :=
  match ps with
  | [] => []
  | Literal text :: rest => text ++ literals rest
  | Placeholder _ _ :: rest => literals rest
  end.

(** The SQL and the arguments are those of the holes: the SQL is made
    of literal bytes and of one token for each hole, in order, and the
    arguments are the values of the holes. *)
Definition Shown (ok : ascii -> bool) (translator : Translator) (sql : str)
    (args : list value) (h : list (str * value)) : Prop :=
  Dec ok translator sql h /\ args = map snd h.

(** A node whose every successful render returns the SQL and the
    arguments of its holes. *)
Definition Corresponds (ok : ascii -> bool) (rvs : Value -> str)
    (translator : Translator) (n : Node) : Prop :=
  forall p q a,
    Accept rvs n translator p = (q, a, None) ->
    Shown ok translator q a (holes rvs translator n p).

(* ===================================================================== *)
(** ** Properties                                                        *)
(* ===================================================================== *)

Unset Implicit Arguments.

(** *** Tactics and basic facts *)

Lemma eqb_str_true (a b : str) : eqb_str a b = true <-> a = b.
Proof. unfold eqb_str. destruct (list_eq_dec ascii_dec a b); split; congruence. Qed.

Lemma eqb_str_false (a b : str) : eqb_str a b = false <-> a <> b.
Proof. unfold eqb_str. destruct (list_eq_dec ascii_dec a b); split; congruence. Qed.

Lemma eqb_str_refl (a : str) : eqb_str a a = true.
Proof. now apply eqb_str_true. Qed.

(** *** Conditions *)



(** *** Foreach *)

(** C7. A [foreach] whose collection resolves to an empty slice, array
    or map returns the empty string and no arguments, whatever [open],
    [close] and [separator] are; when the item name is free and the
    value can be read, it does so without an error. *)
Theorem C7_empty_foreach :
  forall (rvs : Value -> str) (f : ForeachAttrs) (Nodes : list Node)
         (translator : Translator) (p : Param) (v : Value),
    p (Collection f) = Some v ->
    (unwrapInterface (val v) = VSlice [] \/
     unwrapInterface (val v) = VArray [] \/
     unwrapInterface (val v) = VMap []) ->
    query (Accept rvs (ForeachNode f Nodes) translator p) = [] /\
    args (Accept rvs (ForeachNode f Nodes) translator p) = [] /\
    (p (Item f) = None -> CanInterface v = true ->
     Accept rvs (ForeachNode f Nodes) translator p = ([], [], None)).
Proof.
  intros rvs f Nodes translator p v Hc Hempty.
  cbn [Accept]. unfold ForeachNode_Accept. rewrite Hc.
  destruct (p (Item f)) as [x|].
  - repeat split; intros; congruence.
  - destruct (CanInterface v); cbn [negb].
    + destruct Hempty as [E|[E|E]]; rewrite E; repeat split.
    + repeat split; intros; congruence.
Qed.

Lemma C7_empty_foreach_witness :
  query (Accept Examples.showValue
           (ForeachNode Examples.foreachIds Examples.foreachIdsNodes)
           Examples.questionMark Examples.paramEmptyIds) = [].
Proof.
  apply (C7_empty_foreach Examples.showValue Examples.foreachIds
           Examples.foreachIdsNodes Examples.questionMark
           Examples.paramEmptyIds (mkValue (VSlice []) true)).
  - reflexivity.
  - left. reflexivity.
Defined.

(** C6, as the code has it. When the item name of a [foreach] is
    already defined in the enclosing scope the render fails with "item
    already exists", and returns no SQL and no arguments. The index name
    is not looked up. *)
Theorem C6_item_already_exists :
  forall (rvs : Value -> str) (f : ForeachAttrs) (Nodes : list Node)
         (translator : Translator) (p : Param),
    p (Item f) <> None ->
    Accept rvs (ForeachNode f Nodes) translator p =
    ([], [], Some (ErrItemAlreadyExists (Item f))).
Proof.
  intros rvs f Nodes translator p Hitem.
  cbn [Accept]. unfold ForeachNode_Accept.
  destruct (p (Item f)); [reflexivity | congruence].
Qed.

Lemma C6_item_already_exists_witness :
  Accept Examples.showValue
    (ForeachNode Examples.foreachIds Examples.foreachIdsNodes)
    Examples.questionMark Examples.paramItemTaken =
  ([], [], Some (ErrItemAlreadyExists (lit "x"))).
Proof.
  apply (C6_item_already_exists Examples.showValue Examples.foreachIds
           Examples.foreachIdsNodes Examples.questionMark Examples.paramItemTaken).
  vm_compute. discriminate.
Defined.

(** C6 as stated fails: with the index attribute set to [i] and [i]
    defined in the enclosing scope, the render succeeds. *)
Lemma C6_index_not_checked :
  Index Examples.foreachIds = lit "i" /\
  Examples.paramIndexTaken (Index Examples.foreachIds) =
    Some (mkValue (VInt KInt 5) true) /\
  Accept Examples.showValue
    (ForeachNode Examples.foreachIds Examples.foreachIdsNodes)
    Examples.questionMark Examples.paramIndexTaken =
  (lit "(1,1)", [], None).
Proof. repeat split. Qed.

(** *** Trim *)

(** C2, at the failing input
    [<trim prefix="WHERE " prefixOverrides="AND ">AND a=1</trim>]:
    [TrimNode.Accept] writes the prefix into the builder before the
    children, so the override [AND ] is matched against
    [WHERE AND a=1] and nothing is cut; the rule of the specification
    gives [WHERE a=1]. *)
Theorem C2_prefix_written_before_overrides :
  Accept Examples.showValue (TrimNode Examples.trimWhere Examples.trimWhereNodes)
    Examples.questionMark Examples.noParams = (lit "WHERE AND a=1", [], None) /\
  trimSpec Examples.trimWhere
    (query (Accept Examples.showValue (NodeGroup Examples.trimWhereNodes)
              Examples.questionMark Examples.noParams)) = lit "WHERE a=1".
Proof. split; reflexivity. Qed.

(** *** The loader *)

(** C10, at the failing input: the document [<foo></foo>] has no mapper
    element, and [parseMapperByReader] returns a nil mapper with a nil
    error; [parseMappers], reading
    [<mapper namespace="a" resource="m.xml">], then ranges over the
    statements of that nil mapper. *)
Theorem C10_nil_mapper_nil_error :
  XMLParser.parseMapperByReader
    (XMLParser.parseMapper Examples.initOk (lit "_") Examples.oneFile Examples.noNetwork 5)
    5 Examples.docNoMapper = Some (None, None) /\
  XMLParser.parseMappers Examples.initOk (lit "_") Examples.oneFile Examples.noNetwork
    9 [] Examples.mappersByResource =
  Some ([], Some XMLParser.nilDereference,
        XMLParser.mkDecoder
          [XMLParser.EndElement (lit "mapper"); XMLParser.EndElement (lit "mappers")]
          XMLParser.io_EOF).
Proof. split; reflexivity. Qed.

(** *** White space *)

Lemma space2_white c1 c2 :
  strings.space2 c1 c2 = true -> whiteByte c1 = true /\ whiteByte c2 = true.
Proof.
  unfold strings.space2, whiteByte. intros H.
  apply andb_prop in H. destruct H as [H1 H2].
  apply Nat.eqb_eq in H1. apply orb_prop in H2.
  rewrite H1. split.
  - apply orb_true_r.
  - destruct H2 as [H2|H2]; apply Nat.eqb_eq in H2; rewrite H2; apply orb_true_r.
Qed.

Lemma space3_white c1 c2 c3 :
  strings.space3 c1 c2 c3 = true ->
  whiteByte c1 = true /\ whiteByte c2 = true /\ whiteByte c3 = true.
Proof.
  unfold strings.space3, whiteByte. intros H.
  assert (G : 128 <= nat_of_ascii c1 /\ 128 <= nat_of_ascii c2 /\ 128 <= nat_of_ascii c3).
  { repeat match type of H with
           | (_ || _ = true) => apply orb_prop in H; destruct H as [H|H]
           end;
    repeat match goal with
           | H : _ && _ = true |- _ => apply andb_prop in H; destruct H
           | H : _ || _ = true |- _ => apply orb_prop in H; destruct H
           | H : (_ =? _) = true |- _ => apply Nat.eqb_eq in H
           | H : (_ <=? _) = true |- _ => apply Nat.leb_le in H
           end; lia. }
  destruct G as (G1 & G2 & G3).
  repeat split; apply orb_true_iff; right; now apply Nat.leb_le.
Qed.

Lemma TrimLeftSpace_split_le n :
  forall s, length s <= n ->
    exists a, s = a ++ strings.TrimLeftSpace s /\ forallb whiteByte a = true.
Proof.
  induction n as [|n IH]; intros s Hlen.
  - destruct s; [|simpl in Hlen; lia]. exists []. split; reflexivity.
  - destruct s as [|c1 t1]; [exists []; split; reflexivity|].
    simpl in Hlen. cbn [strings.TrimLeftSpace].
    destruct (strings.asciiSpace c1) eqn:E1.
    { destruct (IH t1 ltac:(lia)) as (a & Ha & Hw).
      exists (c1 :: a). split; [simpl; congruence|].
      simpl. rewrite Hw. unfold whiteByte. rewrite E1. reflexivity. }
    destruct t1 as [|c2 t2]; [exists []; split; reflexivity|].
    simpl in Hlen.
    destruct (strings.space2 c1 c2) eqn:E2.
    { destruct (IH t2 ltac:(lia)) as (a & Ha & Hw).
      apply space2_white in E2. destruct E2 as [W1 W2].
      exists (c1 :: c2 :: a). split; [simpl; congruence|].
      simpl. now rewrite W1, W2, Hw. }
    destruct t2 as [|c3 t3]; [exists []; split; reflexivity|].
    simpl in Hlen.
    destruct (strings.space3 c1 c2 c3) eqn:E3.
    { destruct (IH t3 ltac:(lia)) as (a & Ha & Hw).
      apply space3_white in E3. destruct E3 as (W1 & W2 & W3).
      exists (c1 :: c2 :: c3 :: a). split; [simpl; congruence|].
      simpl. now rewrite W1, W2, W3, Hw. }
    exists []. split; reflexivity.
Qed.

Lemma TrimLeftSpace_split s :
  exists a, s = a ++ strings.TrimLeftSpace s /\ forallb whiteByte a = true.
Proof. exact (@TrimLeftSpace_split_le (length s) s (le_n _)). Qed.

Lemma TrimLeftSpace_head_le n :
  forall s c r, length s <= n -> strings.TrimLeftSpace s = c :: r ->
    strings.asciiSpace c = false.
Proof.
  induction n as [|n IH]; intros s c r Hlen H.
  - destruct s; [discriminate|simpl in Hlen; lia].
  - destruct s as [|c1 t1]; [discriminate|].
    simpl in Hlen. cbn [strings.TrimLeftSpace] in H.
    destruct (strings.asciiSpace c1) eqn:E1; [eapply IH; [|eassumption]; lia|].
    destruct t1 as [|c2 t2]; [congruence|]. simpl in Hlen.
    destruct (strings.space2 c1 c2); [eapply IH; [|eassumption]; lia|].
    destruct t2 as [|c3 t3]; [congruence|]. simpl in Hlen.
    destruct (strings.space3 c1 c2 c3); [eapply IH; [|eassumption]; lia|].
    congruence.
Qed.

Lemma TrimLeftSpaceRev_split_le n :
  forall s, length s <= n ->
    exists a, s = a ++ strings.TrimLeftSpaceRev s /\ forallb whiteByte a = true.
Proof.
  induction n as [|n IH]; intros s Hlen.
  - destruct s; [|simpl in Hlen; lia]. exists []. split; reflexivity.
  - destruct s as [|c1 t1]; [exists []; split; reflexivity|].
    simpl in Hlen. cbn [strings.TrimLeftSpaceRev].
    destruct (strings.asciiSpace c1) eqn:E1.
    { destruct (IH t1 ltac:(lia)) as (a & Ha & Hw).
      exists (c1 :: a). split; [simpl; congruence|].
      simpl. rewrite Hw. unfold whiteByte. rewrite E1. reflexivity. }
    destruct t1 as [|c2 t2]; [exists []; split; reflexivity|].
    simpl in Hlen.
    destruct (strings.space2 c2 c1) eqn:E2.
    { destruct (IH t2 ltac:(lia)) as (a & Ha & Hw).
      apply space2_white in E2. destruct E2 as [W1 W2].
      exists (c1 :: c2 :: a). split; [simpl; congruence|].
      simpl. now rewrite W1, W2, Hw. }
    destruct t2 as [|c3 t3]; [exists []; split; reflexivity|].
    simpl in Hlen.
    destruct (strings.space3 c3 c2 c1) eqn:E3.
    { destruct (IH t3 ltac:(lia)) as (a & Ha & Hw).
      apply space3_white in E3. destruct E3 as (W1 & W2 & W3).
      exists (c1 :: c2 :: c3 :: a). split; [simpl; congruence|].
      simpl. now rewrite W1, W2, W3, Hw. }
    exists []. split; reflexivity.
Qed.

Lemma forallb_rev (A : Type) (f : A -> bool) (l : list A) :
  forallb f (rev l) = forallb f l.
Proof.
  induction l as [|x l IH]; [reflexivity|].
  simpl. rewrite forallb_app, IH. simpl. rewrite andb_true_r. apply andb_comm.
Qed.

Lemma TrimRightSpace_split s :
  exists b, s = strings.TrimRightSpace s ++ b /\ forallb whiteByte b = true.
Proof.
  unfold strings.TrimRightSpace.
  destruct (@TrimLeftSpaceRev_split_le (length (rev s)) (rev s) (le_n _)) as (a & Ha & Hw).
  exists (rev a). split.
  - rewrite <- (rev_involutive s) at 1. rewrite Ha at 1. now rewrite rev_app_distr.
  - now rewrite forallb_rev.
Qed.

(** [strings.TrimSpace] cuts white bytes off both ends. *)
Lemma TrimSpace_split s :
  exists a b, s = a ++ strings.TrimSpace s ++ b /\
              forallb whiteByte a = true /\ forallb whiteByte b = true.
Proof.
  unfold strings.TrimSpace.
  destruct (TrimLeftSpace_split s) as (a & Ha & Hwa).
  destruct (TrimRightSpace_split (strings.TrimLeftSpace s)) as (b & Hb & Hwb).
  exists a, b. repeat split; try assumption.
  rewrite <- Hb. exact Ha.
Qed.

Lemma TrimSpace_head s c r :
  strings.TrimSpace s = c :: r -> strings.asciiSpace c = false.
Proof.
  unfold strings.TrimSpace. intros H.
  destruct (TrimRightSpace_split (strings.TrimLeftSpace s)) as (b & Hb & _).
  rewrite H in Hb. simpl in Hb.
  eapply (@TrimLeftSpace_head_le (length s) s); [apply le_n | exact Hb].
Qed.

(** *** Composition *)

Lemma app_if_nonempty (A : Type) (b q : list A) :
  (if 0 <? length q then b ++ q else b) = b ++ q.
Proof. destruct q; simpl; [now rewrite app_nil_r | reflexivity]. Qed.

Lemma nonempty_eqb (q : str) : (0 <? length q) = negb (eqb_str q []).
Proof. destruct q; reflexivity. Qed.

(** The loop of [NodeGroup.Accept], when every child renders, appends
    the joined fragments to the builder and the arguments of the
    children, in order, to the arguments. *)
Lemma composeLoop_joinFragments (rvs : Value -> str) (translator : Translator) (p : Param) :
  forall (nodes : list Node) (n i : Z) (builder : str) (a : list value),
    Forall (succeeds rvs translator p) nodes ->
    n = (i + Z.of_nat (length nodes))%Z ->
    composeLoop (Accept rvs) n i nodes translator p builder a =
    (builder ++ joinFragments (fragments rvs nodes translator p),
     a ++ arguments rvs nodes translator p, None).
Proof.
  induction nodes as [|node rest IH]; intros n i builder a Hok Hn.
  - simpl. now rewrite !app_nil_r.
  - inversion Hok as [|? ? Hnode Hrest]; subst.
    cbn [composeLoop]. unfold succeeds, err in Hnode.
    unfold fragments, arguments in *. cbn [map concat].
    destruct (Accept rvs node translator p) as [[q a'] e] eqn:E.
    simpl in Hnode. subst e. unfold query, args. cbn [fst snd].
    rewrite !app_if_nonempty, nonempty_eqb.
    rewrite (IH (i + Z.of_nat (length (node :: rest)))%Z (i + 1)%Z);
      [|assumption|cbn [length]; lia].
    destruct rest as [|node' rest'].
    + replace (i <? i + Z.of_nat (length [node]) - 1)%Z with false
        by (symmetry; apply Z.ltb_ge; simpl; lia).
      simpl. now rewrite !app_nil_r.
    + replace (i <? i + Z.of_nat (length (node :: node' :: rest')) - 1)%Z with true
        by (symmetry; apply Z.ltb_lt; cbn [length]; lia).
      cbn [andb map joinFragments].
      destruct (negb (eqb_str q []) && negb (strings.HasSuffix q (lit " ")));
        now rewrite <- !app_assoc.
Qed.

(** The inner loop of [foreach] appends the fragments with nothing
    between them. *)
Lemma foreachNodes_concat (rvs : Value -> str) (translator : Translator) (group : Param) :
  forall (nodes : list Node) (builder : str) (a : list value),
    Forall (succeeds rvs translator group) nodes ->
    foreachNodes (Accept rvs) nodes translator group builder a =
    (builder ++ concat (fragments rvs nodes translator group),
     a ++ arguments rvs nodes translator group, None).
Proof.
  induction nodes as [|node rest IH]; intros builder a Hok.
  - simpl. now rewrite !app_nil_r.
  - inversion Hok as [|? ? Hnode Hrest]; subst.
    cbn [foreachNodes]. unfold succeeds, err in Hnode.
    unfold fragments, arguments in *. cbn [map concat].
    destruct (Accept rvs node translator group) as [[q a'] e] eqn:E.
    simpl in Hnode. subst e. unfold query, args. cbn [fst snd].
    rewrite !app_if_nonempty, IH by assumption.
    now rewrite <- !app_assoc.
Qed.

(** [strings.TrimSpace] leaves no blank in front, so [WhereNode.Accept]
    always writes [WHERE] with the blank. *)
Lemma prependWhere_TrimSpace (q : str) :
  prependWhere (strings.TrimSpace q) =
  if beginsWithWhere (strings.TrimSpace q) then strings.TrimSpace q
  else lit "WHERE " ++ strings.TrimSpace q.
Proof.
  unfold prependWhere.
  destruct (beginsWithWhere (strings.TrimSpace q)); [reflexivity|].
  cbn [negb].
  destruct (strings.TrimSpace q) as [|c r] eqn:E; [reflexivity|].
  apply TrimSpace_head in E.
  cbn [strings.HasPrefix lit list_ascii_of_string].
  destruct (Ascii.eqb_spec " "%char c) as [<-|]; [discriminate E|reflexivity].
Qed.

Lemma whereRule_whereShape (body : str) :
  whereRule body = if eqb_str body [] then [] else whereShape body.
Proof.
  unfold whereRule, whereShape. now rewrite prependWhere_TrimSpace.
Qed.

(** [WhereNode.Accept] in terms of the composition of its children. *)
Lemma WhereNode_of_body (rvs : Value -> str) (nodes : list Node)
    (translator : Translator) (p : Param) (body : str) (a : list value) :
  Accept rvs (NodeGroup nodes) translator p = (body, a, None) ->
  Accept rvs (WhereNode nodes) translator p = (whereRule body, a, None).
Proof.
  cbn [Accept]. unfold NodeGroup_Accept, WhereNode_Accept. intros ->.
  rewrite whereRule_whereShape.
  destruct (eqb_str body []) eqn:E; [|reflexivity].
  apply eqb_str_true in E. now subst.
Qed.

(** C3, as the code has it. When every child renders, a [NodeGroup]
    (and with it the body of an [if]/[when] that matches, of an
    [otherwise] and of a [sql] fragment) returns the fragments of its
    children left to right, with one blank after every fragment but the
    last that is not empty and does not end in the blank U+0020, and the
    arguments of the children in order; [where] and [set] shape that
    same composition; the children of one [foreach] element are joined
    with nothing between them. *)
Theorem C3_composition :
  forall (rvs : Value -> str) (nodes : list Node) (translator : Translator) (p : Param),
    Forall (succeeds rvs translator p) nodes ->
    let body := joinFragments (fragments rvs nodes translator p) in
    let a := arguments rvs nodes translator p in
    Accept rvs (NodeGroup nodes) translator p = (body, a, None) /\
    Accept rvs (OtherwiseNode nodes) translator p = (body, a, None) /\
    (forall id, Accept rvs (SQLNode id nodes) translator p = (body, a, None)) /\
    (forall expr, Match expr p = (true, None) ->
       Accept rvs (ConditionNode expr nodes) translator p = (body, a, None)) /\
    Accept rvs (WhereNode nodes) translator p = (whereRule body, a, None) /\
    Accept rvs (SetNode nodes) translator p = (setShape body, a, None) /\
    (forall builder a0,
       foreachNodes (Accept rvs) nodes translator p builder a0 =
       (builder ++ concat (fragments rvs nodes translator p), a0 ++ a, None)).
Proof.
  intros rvs nodes translator p Hok body a.
  assert (G : Accept rvs (NodeGroup nodes) translator p = (body, a, None)).
  { cbn [Accept]. unfold NodeGroup_Accept.
    now rewrite (composeLoop_joinFragments rvs translator p nodes (Z.of_nat (length nodes)) 0%Z [] [] Hok eq_refl). }
  repeat split.
  - exact G.
  - exact G.
  - intros id. exact G.
  - intros expr Hm. cbn [Accept]. unfold ConditionNode_Accept. rewrite Hm. exact G.
  - now apply WhereNode_of_body.
  - cbn [Accept] in *. unfold SetNode_Accept, NodeGroup_Accept in *. now rewrite G.
  - intros builder a0. now apply foreachNodes_concat.
Qed.

Lemma C3_composition_witness :
  Accept Examples.showValue (NodeGroup Examples.textThenEmpty)
    Examples.questionMark Examples.noParams = (lit "a ", [], None).
Proof.
  apply (C3_composition Examples.showValue Examples.textThenEmpty
           Examples.questionMark Examples.noParams).
  repeat constructor.
Defined.

(** C3 as stated fails: a text followed by a child that renders to
    nothing keeps the blank written after the text, a trailing blank
    after the last non-empty fragment. *)
Lemma C3_trailing_blank :
  Forall (succeeds Examples.showValue Examples.questionMark Examples.noParams)
    Examples.textThenEmpty /\
  query (Accept Examples.showValue (NodeGroup Examples.textThenEmpty)
           Examples.questionMark Examples.noParams) = lit "a " /\
  composeSpec (fragments Examples.showValue Examples.textThenEmpty
                 Examples.questionMark Examples.noParams) = lit "a".
Proof. repeat split; repeat constructor. Qed.

(** *** Where *)

(** C5. When the children of a [where] compose to a body that is not
    empty and that, after the and/or cut and the trimming, begins with
    [where] or [WHERE], the result is that trimmed text itself: no
    second [WHERE] is put in front. *)
Theorem C5_where_not_duplicated :
  forall (rvs : Value -> str) (nodes : list Node) (translator : Translator)
         (p : Param) (body : str) (a : list value),
    Accept rvs (NodeGroup nodes) translator p = (body, a, None) ->
    body <> [] ->
    beginsWithWhere (strings.TrimSpace (stripAndOr body)) = true ->
    Accept rvs (WhereNode nodes) translator p =
    (strings.TrimSpace (stripAndOr body), a, None).
Proof.
  intros rvs nodes translator p body a H Hne Hw.
  rewrite (WhereNode_of_body _ _ _ _ _ _ H). unfold whereRule.
  apply eqb_str_false in Hne. now rewrite Hne, Hw.
Qed.

Lemma C5_where_not_duplicated_witness :
  Accept Examples.showValue (WhereNode Examples.whereAlreadyLed)
    Examples.questionMark Examples.noParams = (lit "WHERE id = 1", [], None).
Proof.
  apply (C5_where_not_duplicated Examples.showValue Examples.whereAlreadyLed
           Examples.questionMark Examples.noParams (lit "AND WHERE id = 1") []).
  - reflexivity.
  - discriminate.
  - reflexivity.
Defined.

(** *** The tag dispatch of the parser *)

Section Dispatch.

Variable IfNode_init : str -> option str.
Variable defaultParamKey : str.

Local Abbreviation parseTags := (XMLParser.parseTags IfNode_init defaultParamKey).

Lemma next_token (d d' : XMLParser.Decoder) (t : XMLParser.Token) :
  XMLParser.next d = (inr t, d') ->
  length (XMLParser.pending d) = S (length (XMLParser.pending d')).
Proof.
  unfold XMLParser.next. destruct (XMLParser.pending d) eqn:E; intros H.
  - discriminate.
  - injection H as _ <-. reflexivity.
Qed.

Lemma next_error (d d' : XMLParser.Decoder) (e : XMLParser.tokenError) :
  XMLParser.next d = (inl e, d') -> d' = d.
Proof.
  unfold XMLParser.next. destruct (XMLParser.pending d); intros H.
  - now injection H as _ <-.
  - discriminate.
Qed.


(** A parse function for the children that ends, and leaves no more
    tokens than it found, on every decoder shorter than [bound]. *)
Definition EndsBelow (bound : nat)
    (rec : str -> XMLParser.Decoder -> str -> list XMLParser.Attr ->
           option (XMLParser.Parsed XMLParser.Node)) : Prop :=
  forall mapper d name attr,
    length (XMLParser.pending d) + 1 < bound ->
    exists node e d',
      rec mapper d name attr = Some (node, e, d') /\
      length (XMLParser.pending d') <= length (XMLParser.pending d).


Lemma bodyLoop_ends rec bound (Hrec : EndsBelow bound rec) :
  forall fuel mapper endName keepText strict d nodes,
    length (XMLParser.pending d) < fuel ->
    length (XMLParser.pending d) < bound ->
    exists nodes' r d',
      XMLParser.bodyLoop rec fuel mapper endName keepText strict d nodes =
        Some (nodes', r, d') /\
      length (XMLParser.pending d') <= length (XMLParser.pending d).
Proof.
  induction fuel as [|fuel IH]; intros mapper endName keepText strict d nodes Hf Hb.
  - lia.
  - cbn [XMLParser.bodyLoop].
    destruct (XMLParser.next d) as [[e|token] d1] eqn:En.
    + apply next_error in En. subst d1.
      destruct (XMLParser.isEOF e); do 3 eexists; split; try reflexivity; lia.
    + apply next_token in En.
      assert (Hcont : forall nodes1 d2,
                 length (XMLParser.pending d2) <= length (XMLParser.pending d1) ->
                 exists nodes' r d',
                   XMLParser.bodyLoop rec fuel mapper endName keepText strict d2 nodes1 =
                     Some (nodes', r, d') /\
                   length (XMLParser.pending d') <= length (XMLParser.pending d)).
      { intros nodes1 d2 Hle.
        destruct (IH mapper endName keepText strict d2 nodes1) as (n' & r & d' & E & Hd');
          try lia.
        exists n', r, d'. split; [exact E | lia]. }
      destruct token as [name attr|name|text| | | ].
      * destruct (Hrec mapper d1 name attr) as (node & e & d2 & E & Hle); [lia|].
        rewrite E. destruct e as [e|].
        -- do 3 eexists; split; [reflexivity | lia].
        -- now apply Hcont.
      * destruct (eqb_str name endName); [do 3 eexists; split; [reflexivity | lia]|].
        destruct strict; [do 3 eexists; split; [reflexivity | lia]|].
        now apply Hcont.
      * destruct (keepText && negb (eqb_str (strings.TrimSpace text) []));
          now apply Hcont.
      * now apply Hcont.
      * now apply Hcont.
      * now apply Hcont.
Qed.

Lemma includeLoop_ends :
  forall fuel d,
    length (XMLParser.pending d) < fuel ->
    exists r d',
      XMLParser.includeLoop fuel d = Some (r, d') /\
      length (XMLParser.pending d') <= length (XMLParser.pending d).
Proof.
  induction fuel as [|fuel IH]; intros d Hf; [lia|].
  cbn [XMLParser.includeLoop].
  destruct (XMLParser.next d) as [[e|token] d1] eqn:En.
  - apply next_error in En. subst d1.
    destruct (XMLParser.isEOF e); do 2 eexists; split; try reflexivity; lia.
  - apply next_token in En.
    destruct (IH d1) as (r & d' & E & Hd'); [lia|].
    destruct token as [name attr|name|text| | | ];
      try (exists r, d'; split; [exact E | lia]).
    destruct (eqb_str name (lit "include")).
    + do 2 eexists; split; [reflexivity | lia].
    + exists r, d'; split; [exact E | lia].
Qed.

(** With more fuel than tokens, [parseTags] returns. *)
Lemma parseTags_ends : forall fuel, EndsBelow fuel (parseTags fuel).
Proof.
  induction fuel as [|fuel IH]; intros mapper d name attr Hlen; [lia|].
  cbn [XMLParser.parseTags].
  assert (Hloop : forall endName keepText strict,
             exists nodes' r d',
               XMLParser.bodyLoop (parseTags fuel) fuel mapper endName keepText strict d [] =
                 Some (nodes', r, d') /\
               length (XMLParser.pending d') <= length (XMLParser.pending d)).
  { intros. apply (bodyLoop_ends (parseTags fuel) fuel IH); lia. }
  destruct (eqb_str name (lit "if")).
  { unfold XMLParser.parseIf.
    destruct (eqb_str _ []); [do 3 eexists; split; [reflexivity | lia]|].
    destruct (IfNode_init _); [do 3 eexists; split; [reflexivity | lia]|].
    destruct (Hloop (lit "if") true false) as (ns & r & d' & E & Hd). rewrite E.
    destruct r; do 3 eexists; split; try reflexivity; lia. }
  destruct (eqb_str name (lit "where")).
  { unfold XMLParser.parseWhere.
    destruct (Hloop (lit "where") true false) as (ns & r & d' & E & Hd). rewrite E.
    destruct r; do 3 eexists; split; try reflexivity; lia. }
  destruct (eqb_str name (lit "trim")).
  { unfold XMLParser.parseTrim.
    destruct (Hloop (lit "trim") false false) as (ns & r & d' & E & Hd). rewrite E.
    destruct r; do 3 eexists; split; try reflexivity; lia. }
  destruct (eqb_str name (lit "foreach")).
  { unfold XMLParser.parseForeach.
    destruct (eqb_str _ []); [do 3 eexists; split; [reflexivity | lia]|].
    destruct (Hloop (lit "foreach") true false) as (ns & r & d' & E & Hd). rewrite E.
    destruct r; do 3 eexists; split; try reflexivity; lia. }
  destruct (eqb_str name (lit "set")).
  { unfold XMLParser.parseSet.
    destruct (Hloop (lit "set") true false) as (ns & r & d' & E & Hd). rewrite E.
    destruct r as [e|[|]]; do 3 eexists; split; try reflexivity; lia. }
  destruct (eqb_str name (lit "include")).
  { unfold XMLParser.parseInclude.
    destruct (eqb_str _ []); [do 3 eexists; split; [reflexivity | lia]|].
    destruct (includeLoop_ends fuel d) as (r & d' & E & Hd); [lia|]. rewrite E.
    destruct r; do 3 eexists; split; try reflexivity; lia. }
  do 3 eexists; split; [reflexivity | lia].
Qed.






End Dispatch.



(** *** Placeholder tokens: bytes *)

Lemma sigil_facts (c : ascii) :
  sigil c = true ->
  regexp.nameChar c = false /\ whiteByte c = false /\
  c <> "#"%char /\ c <> "$"%char /\ c <> "{"%char /\ c <> "}"%char /\
  c <> ","%char /\ c <> " "%char.
Proof.
  unfold sigil, whiteByte. intros H.
  rewrite !andb_true_iff, !negb_true_iff in H.
  destruct H as (((((((H1 & H2) & H3) & H4) & H5) & H6) & H7) & H8).
  apply Nat.ltb_lt in H1.
  repeat split; try assumption.
  - rewrite H2. apply Nat.leb_gt. exact H1.
  - intros ->. discriminate.
  - intros ->. discriminate.
  - intros ->. discriminate.
  - intros ->. discriminate.
  - intros ->. discriminate.
  - intros ->. discriminate.
Qed.

Lemma whiteByte_not_nameChar (c : ascii) :
  whiteByte c = true -> regexp.nameChar c = false.
Proof.
  unfold whiteByte, strings.asciiSpace, regexp.nameChar. intros H.
  destruct (regexp.nameChar c) eqn:E; [|unfold regexp.nameChar in E; exact E].
  exfalso. unfold regexp.nameChar in E.
  repeat match goal with
         | H : _ || _ = true |- _ => apply orb_prop in H; destruct H as [H|H]
         | H : _ && _ = true |- _ => apply andb_prop in H; destruct H as [H ?]
         | H : (_ <=? _) = true |- _ => apply Nat.leb_le in H
         | H : (_ =? _) = true |- _ => apply Nat.eqb_eq in H
         end; lia.
Qed.

Lemma isBlank_spec (c : ascii) : regexp.isBlank c = true <-> c = " "%char.
Proof. unfold regexp.isBlank. apply Ascii.eqb_eq. Qed.

Lemma isBlank_not_nameChar (c : ascii) :
  regexp.isBlank c = true -> regexp.nameChar c = false.
Proof. intros H. apply isBlank_spec in H. subst. reflexivity. Qed.

Lemma safeToken_inv (t : str) :
  safeToken t = true ->
  exists c rest, t = c :: rest /\ sigil c = true /\ forallb regexp.nameChar rest = true.
Proof.
  destruct t as [|c rest]; [discriminate|]. simpl. intros H.
  apply andb_prop in H. destruct H. now exists c, rest.
Qed.

(** *** Placeholder tokens: the bytes a token begins with *)

Lemma starter_facts (c : ascii) :
  starter c = true ->
  regexp.nameChar c = false /\ whiteByte c = false /\
  c <> "{"%char /\ c <> "}"%char /\ c <> ","%char /\ c <> " "%char.
Proof.
  unfold starter, whiteByte. intros H.
  rewrite !andb_true_iff, !negb_true_iff in H.
  destruct H as (((((H1 & H2) & H3) & H4) & H5) & H6).
  apply Nat.ltb_lt in H1.
  repeat split; try assumption.
  - rewrite H2. apply Nat.leb_gt. exact H1.
  - intros ->. discriminate.
  - intros ->. discriminate.
  - intros ->. discriminate.
  - intros ->. discriminate.
Qed.

Lemma sigil_starter (c : ascii) : sigil c = true -> starter c = true.
Proof.
  unfold sigil, starter. intros H.
  rewrite !andb_true_iff in H.
  destruct H as (((((((H1 & H2) & H3) & H4) & H5) & H6) & H7) & H8).
  now rewrite H1, H2, H3, H6, H7, H8.
Qed.

Lemma nameChar_not_starter (c : ascii) : regexp.nameChar c = true -> starter c = false.
Proof.
  intros H. destruct (starter c) eqn:E; [|reflexivity].
  apply starter_facts in E. destruct E as [E _]. congruence.
Qed.

Lemma whiteByte_not_starter (c : ascii) : whiteByte c = true -> starter c = false.
Proof.
  intros H. destruct (starter c) eqn:E; [|reflexivity].
  apply starter_facts in E. destruct E as (_ & E & _). congruence.
Qed.

Lemma isBlank_not_starter (c : ascii) : regexp.isBlank c = true -> starter c = false.
Proof. intros H. apply isBlank_spec in H. subst. reflexivity. Qed.

Lemma forallb_impl (f g : ascii -> bool) (s : str) :
  (forall c, f c = true -> g c = true) ->
  forallb f s = true -> forallb g s = true.
Proof.
  intros Hfg H. rewrite forallb_forall in *. auto.
Qed.

Lemma forallb_mid (f : ascii -> bool) (a b c : str) :
  forallb f (a ++ b ++ c) = true ->
  forallb f a = true /\ forallb f b = true /\ forallb f c = true.
Proof.
  rewrite !forallb_app, !andb_true_iff. tauto.
Qed.

(** *** Placeholder tokens: strings made of literals and tokens *)

Section Decomposition.

Variable ok : ascii -> bool.
Variable mk : ascii -> bool.
Variable translator : Translator.
Hypothesis tokens : Tokens mk translator.

Lemma mk_starter (c : ascii) : mk c = true -> starter c = true.
Proof. apply (proj1 tokens). Qed.

Lemma not_starter_not_mk (c : ascii) : starter c = false -> mk c = false.
Proof.
  intros H. destruct (mk c) eqn:E; [|reflexivity].
  apply mk_starter in E. congruence.
Qed.

Lemma avoids_of (f : ascii -> bool) (s : str) :
  (forall c, f c = true -> starter c = false) ->
  forallb f s = true -> avoids mk s = true.
Proof.
  intros Hf H. unfold avoids. rewrite forallb_forall in *.
  intros c Hc. rewrite (not_starter_not_mk c (Hf c (H c Hc))). reflexivity.
Qed.

Lemma avoids_app (a b : str) : avoids mk (a ++ b) = avoids mk a && avoids mk b.
Proof. unfold avoids. apply forallb_app. Qed.

(** A token: a byte of [mk], then name characters, at least one after
    [#] or [$]. *)
Lemma token_inv (name : str) :
  exists c rest,
    Translate translator name = c :: rest /\ mk c = true /\
    forallb regexp.nameChar rest = true /\
    (c = "#"%char \/ c = "$"%char -> rest <> []).
Proof.
  pose proof (proj2 tokens name) as H. unfold tokenOf in H.
  destruct (Translate translator name) as [|c rest]; [discriminate|].
  rewrite !andb_true_iff in H. destruct H as [[Hc Hrest] Htwo].
  exists c, rest. repeat split; try assumption.
  intros Hc' ->. rewrite orb_true_iff in Htwo. destruct Htwo as [Htwo|Htwo].
  - apply negb_true_iff in Htwo. apply orb_false_iff in Htwo.
    destruct Htwo as [H1 H2]. apply Ascii.eqb_neq in H1. apply Ascii.eqb_neq in H2.
    destruct Hc'; contradiction.
  - discriminate.
Qed.

Lemma Dec_literal (l : str) : forallb ok l = true -> Dec ok translator l [].
Proof.
  induction l as [|c l IH]; intros H; [constructor|].
  cbn [forallb] in H. apply andb_prop in H. destruct H as [Hc Hl].
  constructor; auto.
Qed.

Lemma Dec_app (s1 s2 : str) (h1 h2 : list (str * value)) :
  Dec ok translator s1 h1 -> Dec ok translator s2 h2 ->
  Dec ok translator (s1 ++ s2) (h1 ++ h2).
Proof.
  induction 1; intros D2; simpl.
  - exact D2.
  - constructor; auto.
  - rewrite <- app_assoc. constructor. auto.
Qed.

Lemma Dec_app_literal_l (l s : str) (h : list (str * value)) :
  forallb ok l = true -> Dec ok translator s h -> Dec ok translator (l ++ s) h.
Proof. intros Hl D. exact (Dec_app l s [] h (Dec_literal l Hl) D). Qed.

Lemma Dec_app_literal_r (s l : str) (h : list (str * value)) :
  forallb ok l = true -> Dec ok translator s h -> Dec ok translator (s ++ l) h.
Proof.
  intros Hl D. rewrite <- (app_nil_r h). exact (Dec_app s l h [] D (Dec_literal l Hl)).
Qed.

Lemma Dec_one_token (name : str) (bound : value) :
  Dec ok translator (Translate translator name) [(name, bound)].
Proof.
  rewrite <- (app_nil_r (Translate translator name)). constructor. constructor.
Qed.

Lemma Dec_nil_inv (h : list (str * value)) : Dec ok translator [] h -> h = [].
Proof.
  intros D. inversion D as [| |name bound s holes D' E]; [reflexivity|].
  destruct (token_inv name) as (c & rest & Et & _).
  rewrite Et in E. discriminate.
Qed.

(** A byte in front that no token begins with is a literal byte. *)
Lemma Dec_strip_char (c : ascii) (s : str) (h : list (str * value)) :
  Dec ok translator (c :: s) h -> mk c = false -> Dec ok translator s h.
Proof.
  intros D Hc. inversion D as [|c' s' h' Hok D' E|name bound s' h' D' E]; subst.
  - assumption.
  - destruct (token_inv name) as (c0 & rest & Et & Hs & _).
    rewrite Et in E. simpl in E. injection E as -> _. congruence.
Qed.

Lemma Dec_strip_prefix (o s : str) (h : list (str * value)) :
  Dec ok translator (o ++ s) h -> avoids mk o = true -> Dec ok translator s h.
Proof.
  induction o as [|c o IH]; intros D Ho; [exact D|].
  unfold avoids in Ho. cbn [forallb] in Ho.
  apply andb_prop in Ho. destruct Ho as [Hc Ho].
  apply negb_true_iff in Hc. apply IH; [|exact Ho].
  eapply Dec_strip_char; eassumption.
Qed.

(** An occurrence of a text lies between tokens, so that both sides
    are made of literals and tokens on their own, when the text begins
    with no name character and holds no byte of [mk] after its first
    byte, and either its first byte is none of [mk] or it is [#] or [$]
    with no name character behind it. *)
Lemma Dec_split (c0 : ascii) (m' : str) :
  regexp.nameChar c0 = false -> avoids mk m' = true ->
  (mk c0 = true ->
   (c0 = "#"%char \/ c0 = "$"%char) /\
   exists c1 m'', m' = c1 :: m'' /\ regexp.nameChar c1 = false) ->
  forall (s : str) (h : list (str * value)),
    Dec ok translator s h ->
    forall a b, s = a ++ (c0 :: m') ++ b ->
      exists h1 h2, h = h1 ++ h2 /\ Dec ok translator a h1 /\ Dec ok translator b h2.
Proof.
  intros Hhd Hav Hmk s h D.
  induction D as [|c s h Hc D IH|name bound s h D IH]; intros a b E.
  - destruct a; discriminate.
  - destruct a as [|c' a].
    + simpl in E. injection E as -> ->.
      exists [], h. split; [reflexivity|]. split; [constructor|].
      eapply Dec_strip_prefix; eassumption.
    + simpl in E. injection E as -> ->.
      destruct (IH a b eq_refl) as (h1 & h2 & -> & D1 & D2).
      exists h1, h2. split; [reflexivity|]. split; [constructor|]; assumption.
  - destruct (token_inv name) as (ct & rest & Et & Hs & Hrest & Htwo).
    destruct (app_eq_app _ _ _ _ E) as [l [[E1 E2]|[E1 E2]]].
    + (* [a] is a prefix of the token: the token ends where [a] ends, or
         it would run into the text *)
      destruct l as [|cl l].
      * rewrite app_nil_r in E1. simpl in E2. subst s.
        destruct (IH [] b eq_refl) as (h1 & h2 & -> & D1 & D2).
        apply Dec_nil_inv in D1. subst h1.
        exists [(name, bound)], h2. split; [reflexivity|]. split; [|exact D2].
        rewrite <- E1. apply Dec_one_token.
      * exfalso. simpl in E2. injection E2 as -> E2.
        rewrite Et in E1. destruct a as [|ca a0].
        -- simpl in E1. injection E1 as -> El.
           destruct (Hmk Hs) as (Hc0 & c1 & m'' & -> & Hc1).
           destruct rest as [|r1 rest']; [now apply (Htwo Hc0)|].
           subst l. simpl in E2. injection E2 as -> _.
           simpl in Hrest. apply andb_prop in Hrest. destruct Hrest as [Hr1 _].
           congruence.
        -- simpl in E1. injection E1 as _ E1.
           rewrite E1, forallb_app in Hrest. apply andb_prop in Hrest.
           destruct Hrest as [_ Hrest]. simpl in Hrest.
           apply andb_prop in Hrest. destruct Hrest as [Hrest _].
           congruence.
    + (* the token is a prefix of [a] *)
      destruct (IH l b E2) as (h1 & h2 & -> & D1 & D2).
      exists ((name, bound) :: h1), h2. split; [reflexivity|]. split; [|exact D2].
      rewrite E1. constructor. exact D1.
Qed.

Lemma Dec_strip_suffix (s o : str) (h : list (str * value)) :
  Dec ok translator (s ++ o) h -> suffixOverrideFor mk o = true ->
  Dec ok translator s h.
Proof.
  intros D Ho. destruct o as [|c o'].
  - now rewrite app_nil_r in D.
  - unfold suffixOverrideFor in Ho.
    apply andb_prop in Ho. destruct Ho as [Hav Hhd].
    unfold avoids in Hav. cbn [forallb] in Hav.
    apply andb_prop in Hav. destruct Hav as [Hc Hav].
    apply negb_true_iff in Hc. apply negb_true_iff in Hhd.
    destruct (Dec_split c o' Hhd Hav) with (s := s ++ c :: o') (h := h)
      (a := s) (b := @nil ascii) as (h1 & h2 & -> & D1 & D2).
    + intros Hmk. congruence.
    + exact D.
    + now rewrite app_nil_r.
    + apply Dec_nil_inv in D2. subst. now rewrite app_nil_r.
Qed.

(** The pieces of a string made of literals and tokens. *)
Lemma Dec_pieces (s : str) (h : list (str * value)) :
  Dec ok translator s h ->
  exists ps,
    s = renderPieces translator ps /\ placeholders ps = h /\
    forallb ok (literals ps) = true.
Proof.
  induction 1 as [|c s h Hc D (ps & E & Eh & El)|name bound s h D (ps & E & Eh & El)].
  - exists []. repeat split.
  - exists (Literal [c] :: ps). repeat split; simpl; try congruence.
    now rewrite Hc.
  - exists (Placeholder name bound :: ps). repeat split; simpl; congruence.
Qed.

Lemma countOf_app (a b : str) : countOf mk (a ++ b) = countOf mk a + countOf mk b.
Proof. unfold countOf. now rewrite filter_app, length_app. Qed.

Lemma countOf_avoids (s : str) : avoids mk s = true -> countOf mk s = 0.
Proof.
  unfold countOf, avoids. induction s as [|c s IH]; [reflexivity|].
  cbn [forallb filter]. intros H. apply andb_prop in H. destruct H as [Hc Hs].
  apply negb_true_iff in Hc. rewrite Hc. auto.
Qed.

(** A token holds one byte of [mk], its first. *)
Lemma countOf_token (name : str) : countOf mk (Translate translator name) = 1.
Proof.
  destruct (token_inv name) as (c & rest & -> & Hc & Hrest & _).
  change (c :: rest) with ([c] ++ rest). rewrite countOf_app.
  rewrite (countOf_avoids rest (avoids_of regexp.nameChar rest nameChar_not_starter Hrest)).
  unfold countOf. cbn [filter]. now rewrite Hc.
Qed.

(** When no literal byte is a byte of [mk], the bytes of [mk] in the
    string are as many as the holes. *)
Lemma Dec_count (s : str) (h : list (str * value)) :
  (forall c, ok c = true -> mk c = false) ->
  Dec ok translator s h -> countOf mk s = length h.
Proof.
  intros Hstrict. induction 1 as [|c s h Hc D IH|name bound s h D IH].
  - reflexivity.
  - change (c :: s) with ([c] ++ s). rewrite countOf_app, IH.
    unfold countOf. cbn [filter app]. now rewrite (Hstrict c Hc).
  - rewrite countOf_app, countOf_token, IH. reflexivity.
Qed.

End Decomposition.

(** *** Prefixes, suffixes and the first occurrence *)

Lemma HasPrefix_true (s prefix : str) :
  strings.HasPrefix s prefix = true <-> exists r, s = prefix ++ r.
Proof.
  revert s. induction prefix as [|c prefix IH]; intros s.
  - split; [intros _; now exists s | intros _; now destruct s].
  - destruct s as [|d s]; simpl.
    + split; [discriminate | intros [r E]; discriminate].
    + rewrite andb_true_iff, IH. split.
      * intros [Hc [r ->]]. apply Ascii.eqb_eq in Hc. subst. now exists r.
      * intros [r E]. injection E as -> ->. split; [apply Ascii.eqb_refl | now exists r].
Qed.

Lemma skipn_length_app (A : Type) (a b : list A) : skipn (length a) (a ++ b) = b.
Proof. induction a; simpl; auto. Qed.

Lemma firstn_length_app (A : Type) (a b : list A) : firstn (length a) (a ++ b) = a.
Proof. induction a; simpl; congruence. Qed.

Lemma HasSuffix_true (s suffix : str) :
  strings.HasSuffix s suffix = true <-> exists r, s = r ++ suffix.
Proof.
  unfold strings.HasSuffix. rewrite andb_true_iff, eqb_str_true, Nat.leb_le. split.
  - intros [Hle E]. exists (firstn (length s - length suffix) s).
    pose proof (firstn_skipn (length s - length suffix) s) as F.
    rewrite E in F. symmetry. exact F.
  - intros [r ->]. rewrite length_app. split; [lia|].
    replace (length r + length suffix - length suffix) with (length r) by lia.
    apply skipn_length_app.
Qed.

Lemma TrimPrefix_app (prefix r : str) : strings.TrimPrefix (prefix ++ r) prefix = r.
Proof.
  unfold strings.TrimPrefix.
  replace (strings.HasPrefix (prefix ++ r) prefix) with true
    by (symmetry; apply HasPrefix_true; now exists r).
  apply skipn_length_app.
Qed.

Lemma TrimSuffix_app (r suffix : str) : strings.TrimSuffix (r ++ suffix) suffix = r.
Proof.
  unfold strings.TrimSuffix.
  replace (strings.HasSuffix (r ++ suffix) suffix) with true
    by (symmetry; apply HasSuffix_true; now exists r).
  rewrite length_app.
  replace (length r + length suffix - length suffix) with (length r) by lia.
  apply firstn_length_app.
Qed.

Lemma TrimSuffix_cases (s suffix : str) :
  (exists r, s = r ++ suffix /\ strings.TrimSuffix s suffix = r) \/
  strings.TrimSuffix s suffix = s.
Proof.
  destruct (strings.HasSuffix s suffix) eqn:E.
  - apply HasSuffix_true in E. destruct E as [r ->]. left. exists r.
    split; [reflexivity | apply TrimSuffix_app].
  - right. unfold strings.TrimSuffix. now rewrite E.
Qed.

(** [strings.Replace] with [n = 1] rewrites an occurrence, or nothing. *)
Lemma Replace1_cases (s old new : str) :
  (exists a b, s = a ++ old ++ b /\ strings.Replace1 s old new = a ++ new ++ b) \/
  strings.Replace1 s old new = s.
Proof.
  induction s as [|c s IH].
  - cbn [strings.Replace1]. destruct (strings.HasPrefix [] old) eqn:E.
    + apply HasPrefix_true in E. destruct E as [r E].
      symmetry in E. apply app_eq_nil in E. destruct E as [-> ->].
      left. exists [], []. split; reflexivity.
    + now right.
  - cbn [strings.Replace1]. destruct (strings.HasPrefix (c :: s) old) eqn:E.
    + apply HasPrefix_true in E. destruct E as [r E].
      left. exists [], r. simpl. split; [exact E|].
      rewrite E. now rewrite skipn_length_app.
    + destruct IH as [(a & b & Es & Er)|Er].
      * left. exists (c :: a), b. simpl. split; congruence.
      * right. congruence.
Qed.

(** [strings.Replace] with [n = 1] rewrites the leftmost occurrence. *)
Lemma Replace1_first (old new : str) :
  forall (a b : str),
    (forall a' b', a ++ old ++ b = a' ++ old ++ b' -> length a <= length a') ->
    strings.Replace1 (a ++ old ++ b) old new = a ++ new ++ b.
Proof.
  induction a as [|c a IH]; intros b Hmin.
  - simpl. destruct (old ++ b) as [|d r] eqn:E.
    + destruct old; [|discriminate]. simpl in *. subst. reflexivity.
    + cbn [strings.Replace1].
      replace (strings.HasPrefix (d :: r) old) with true
        by (symmetry; apply HasPrefix_true; exists b; now rewrite E).
      rewrite <- E. now rewrite skipn_length_app.
  - cbn [app strings.Replace1].
    destruct (strings.HasPrefix (c :: a ++ old ++ b) old) eqn:E.
    + apply HasPrefix_true in E. destruct E as [r E].
      specialize (Hmin [] r). simpl in Hmin. specialize (Hmin E). lia.
    + f_equal. apply IH. intros a' b' E'.
      specialize (Hmin (c :: a') b'). simpl in Hmin.
      rewrite E' in Hmin. specialize (Hmin eq_refl). lia.
Qed.

(** *** The regular expressions *)

Lemma takeWhile_dropWhile (f : ascii -> bool) (s : str) :
  s = regexp.takeWhile f s ++ regexp.dropWhile f s.
Proof.
  induction s as [|c s IH]; [reflexivity|].
  simpl. destruct (f c); simpl; congruence.
Qed.

Lemma takeWhile_all (f : ascii -> bool) (s : str) :
  forallb f (regexp.takeWhile f s) = true.
Proof.
  induction s as [|c s IH]; [reflexivity|].
  simpl. destruct (f c) eqn:E; simpl; [now rewrite E|reflexivity].
Qed.

Lemma dropWhile_head (f : ascii -> bool) (s : str) (c : ascii) (r : str) :
  regexp.dropWhile f s = c :: r -> f c = false.
Proof.
  induction s as [|d s IH]; [discriminate|].
  simpl. destruct (f d) eqn:E; [exact IH|]. intros H. injection H as <- _. exact E.
Qed.

Lemma takeWhile_app (f : ascii -> bool) (a : str) (c : ascii) (z : str) :
  forallb f a = true -> f c = false ->
  regexp.takeWhile f (a ++ c :: z) = a /\ regexp.dropWhile f (a ++ c :: z) = c :: z.
Proof.
  induction a as [|d a IH]; intros Ha Hc; simpl.
  - now rewrite Hc.
  - simpl in Ha. apply andb_prop in Ha. destruct Ha as [Hd Ha].
    rewrite Hd. destruct (IH Ha Hc) as [-> ->]. now split.
Qed.

(** What [matchAt] finds has the shape of the pattern and stands in
    front. *)
Lemma matchAt_some (sg : ascii) (s m name : str) :
  regexp.matchAt sg s = Some (m, name) ->
  Shape sg m name /\ exists z, s = m ++ z.
Proof.
  unfold regexp.matchAt.
  destruct s as [|c1 [|c2 r]]; try discriminate.
  destruct (Ascii.eqb_spec c1 sg) as [->|]; [|discriminate].
  destruct (Ascii.eqb_spec c2 "{"%char) as [->|]; [|discriminate].
  cbn [andb].
  pose proof (takeWhile_dropWhile regexp.isBlank r) as Er.
  pose proof (takeWhile_all regexp.isBlank r) as Hsp1.
  remember (regexp.takeWhile regexp.isBlank r) as sp1 eqn:Esp1.
  remember (regexp.dropWhile regexp.isBlank r) as r1 eqn:Er1.
  pose proof (takeWhile_dropWhile regexp.nameChar r1) as Er1'.
  pose proof (takeWhile_all regexp.nameChar r1) as Hnm.
  remember (regexp.takeWhile regexp.nameChar r1) as nm eqn:Enm.
  remember (regexp.dropWhile regexp.nameChar r1) as r2 eqn:Er2.
  pose proof (takeWhile_dropWhile regexp.isBlank r2) as Er2'.
  pose proof (takeWhile_all regexp.isBlank r2) as Hsp2.
  remember (regexp.takeWhile regexp.isBlank r2) as sp2 eqn:Esp2.
  remember (regexp.dropWhile regexp.isBlank r2) as r3 eqn:Er3.
  destruct nm as [|n0 nm']; [discriminate|].
  destruct r3 as [|c3 z]; [discriminate|].
  destruct (Ascii.eqb_spec c3 "}"%char) as [->|]; [|discriminate].
  intros H. injection H as <- <-. split.
  - exists sp1, sp2. repeat split; try assumption. discriminate.
  - exists z. rewrite Er, Er1', Er2'. cbn [app]. do 2 f_equal.
    rewrite <- !app_assoc. f_equal. cbn [app]. f_equal.
    rewrite <- !app_assoc. reflexivity.
Qed.

(** A text of the shape of the pattern is matched wherever it stands in
    front. *)
Lemma matchAt_shape (sg : ascii) (m name z : str) :
  Shape sg m name -> regexp.matchAt sg (m ++ z) = Some (m, name).
Proof.
  intros (sp1 & sp2 & -> & Hsp1 & Hname & Hne & Hsp2).
  destruct name as [|n0 name']; [congruence|].
  assert (Hn0 : regexp.nameChar n0 = true)
    by (simpl in Hname; apply andb_prop in Hname; tauto).
  assert (Hb0 : regexp.isBlank n0 = false).
  { destruct (regexp.isBlank n0) eqn:E; [|reflexivity].
    apply isBlank_not_nameChar in E. congruence. }
  assert (E : (sg :: "{"%char :: sp1 ++ (n0 :: name') ++ sp2 ++ ["}"%char]) ++ z =
              sg :: "{"%char :: sp1 ++ n0 :: name' ++ sp2 ++ "}"%char :: z).
  { cbn [app]. do 2 f_equal. rewrite <- !app_assoc. f_equal. cbn [app]. f_equal.
    rewrite <- !app_assoc. reflexivity. }
  rewrite E. unfold regexp.matchAt. rewrite !Ascii.eqb_refl. cbn [andb]. cbv zeta.
  destruct (takeWhile_app regexp.isBlank sp1 n0
              (name' ++ sp2 ++ "}"%char :: z) Hsp1 Hb0) as [E1 E2].
  rewrite E1, E2.
  assert (Hsplit :
    regexp.takeWhile regexp.nameChar (n0 :: name' ++ sp2 ++ "}"%char :: z) = n0 :: name' /\
    regexp.dropWhile regexp.nameChar (n0 :: name' ++ sp2 ++ "}"%char :: z) =
      sp2 ++ "}"%char :: z).
  { destruct sp2 as [|b0 sp2'].
    - apply (takeWhile_app regexp.nameChar (n0 :: name') "}"%char z Hname). reflexivity.
    - simpl in Hsp2. apply andb_prop in Hsp2. destruct Hsp2 as [Hb _].
      apply (takeWhile_app regexp.nameChar (n0 :: name') b0 (sp2' ++ "}"%char :: z) Hname).
      now apply isBlank_not_nameChar. }
  destruct Hsplit as [E3 E4]. rewrite E3, E4.
  destruct (takeWhile_app regexp.isBlank sp2 "}"%char z Hsp2 eq_refl) as [E5 E6].
  rewrite E5, E6. rewrite Ascii.eqb_refl. reflexivity.
Qed.

Lemma scan_skip (sg : ascii) (a s : str) :
  regexp.scan sg (length a) (a ++ s) = regexp.scan sg 0 s.
Proof. induction a as [|c a IH]; [reflexivity|]. simpl. exact IH. Qed.

(** The first match of a scan: the text before it, where no match
    begins, and the scan of what follows it. *)
Lemma scan_first (sg : ascii) :
  forall (s : str) (hit : list str) (rest : list (list str)),
    regexp.scan sg 0 s = hit :: rest ->
    exists l m name z,
      hit = [m; name] /\ s = l ++ m ++ z /\ regexp.scan sg 0 z = rest /\
      Shape sg m name /\
      (forall a m' name' b,
         Shape sg m' name' -> s = a ++ m' ++ b -> length l <= length a).
Proof.
  induction s as [|c s IH]; intros hit rest H; [discriminate|].
  cbn [regexp.scan] in H.
  destruct (regexp.matchAt sg (c :: s)) as [[m name]|] eqn:E.
  - injection H as <- H.
    destruct (matchAt_some _ _ _ _ E) as [Hshape [z Ez]].
    exists [], m, name, z. repeat split; try assumption.
    + destruct m as [|c' m']; [destruct Hshape as (? & ? & ? & _); discriminate|].
      simpl in Ez. injection Ez as -> ->.
      simpl in H. rewrite Nat.sub_0_r in H. now rewrite scan_skip in H.
    + intros. simpl. lia.
  - destruct (IH hit rest H) as (l & m & name & z & -> & -> & Hz & Hshape & Hmin).
    exists (c :: l), m, name, z. repeat split; try assumption.
    intros a m' name' b Hs' Ea. destruct a as [|c' a].
    + simpl in Ea. rewrite Ea, (matchAt_shape sg m' name' b Hs') in E. discriminate.
    + simpl in Ea. injection Ea as _ Ea. simpl.
      specialize (Hmin a m' name' b Hs' Ea). lia.
Qed.

(** *** Placeholder tokens: [TextNode] *)

Lemma app_split_lt (A : Type) (x y a w : list A) :
  x ++ y = a ++ w -> length a < length x ->
  exists x2, x2 <> [] /\ x = a ++ x2 /\ w = x2 ++ y.
Proof.
  intros E Hlen. destruct (app_eq_app _ _ _ _ E) as [k [[E1 E2]|[E1 E2]]].
  - exists k. repeat split; try assumption.
    intros ->. rewrite app_nil_r in E1. subst. lia.
  - subst a. rewrite length_app in Hlen. lia.
Qed.

Lemma app_split_ge (A : Type) (x y a w : list A) :
  x ++ y = a ++ w -> length x <= length a ->
  exists a2, a = x ++ a2 /\ y = a2 ++ w.
Proof.
  intros E Hlen. destruct (app_eq_app _ _ _ _ E) as [k [[E1 E2]|[E1 E2]]].
  - subst x. rewrite length_app in Hlen. destruct k; [|simpl in Hlen; lia].
    exists []. simpl in E2. subst w. rewrite !app_nil_r. now split.
  - exists k. now split.
Qed.

Lemma not_starter_of (f : ascii -> bool) (s : str) :
  (forall c, f c = true -> starter c = false) ->
  forallb f s = true -> forallb (fun c => negb (starter c)) s = true.
Proof.
  intros Hf. apply forallb_impl. intros c H. now rewrite (Hf c H).
Qed.

(** A match of either pattern: its first byte, a brace, and after the
    first byte nothing a token could begin with. *)
Lemma Shape_bytes (sg : ascii) (m name : str) :
  Shape sg m name ->
  exists m1,
    m = sg :: "{"%char :: m1 /\
    forallb (fun c => negb (starter c)) ("{"%char :: m1) = true.
Proof.
  intros (sp1 & sp2 & -> & Hsp1 & Hname & Hne & Hsp2).
  exists (sp1 ++ name ++ sp2 ++ ["}"%char]). split; [reflexivity|].
  cbn [forallb]. rewrite !forallb_app. cbn [forallb].
  rewrite (not_starter_of regexp.isBlank sp1 isBlank_not_starter Hsp1).
  rewrite (not_starter_of regexp.nameChar name nameChar_not_starter Hname).
  rewrite (not_starter_of regexp.isBlank sp2 isBlank_not_starter Hsp2).
  reflexivity.
Qed.

Section TextNodes.

Variable rvs : Value -> str.
Variable ok : ascii -> bool.
Variable mk : ascii -> bool.
Variable translator : Translator.
Hypothesis tokens : Tokens mk translator.
Variable p : Param.

Lemma not_starter_avoids (s : str) :
  forallb (fun c => negb (starter c)) s = true -> avoids mk s = true.
Proof.
  apply (avoids_of mk translator tokens (fun c => negb (starter c))).
  intros c H. now apply negb_true_iff in H.
Qed.

Lemma Barrier_nil : Barrier [].
Proof. intros m name R a b _ _. simpl. lia. Qed.

(** After the text before a match and the token written for it, still no
    match begins in what has been written. *)
Lemma Barrier_step (P l m z : str) (name : str) :
  Barrier P ->
  (forall a m' name' b,
     Shape "#"%char m' name' -> l ++ m ++ z = a ++ m' ++ b -> length l <= length a) ->
  Barrier (P ++ l ++ Translate translator name).
Proof.
  intros HP Hmin m' name' R a b Hs E.
  set (t := Translate translator name) in *.
  destruct (le_lt_dec (length (P ++ l ++ t)) (length a)) as [|Hlt]; [assumption|].
  exfalso.
  destruct (Shape_bytes _ _ _ Hs) as (m1 & Em' & Hm1).
  destruct (token_inv mk translator tokens name) as (c0 & rest & Et & Hc0 & Hrest & Htwo).
  fold t in Et.
  destruct (le_lt_dec (length P) (length a)) as [HPa|HPa].
  2:{ rewrite <- app_assoc in E. specialize (HP m' name' _ a b Hs E). lia. }
  rewrite <- app_assoc in E.
  destruct (app_split_ge _ _ _ _ _ E HPa) as (a2 & -> & E2).
  rewrite length_app in Hlt. rewrite !length_app in Hlt.
  destruct (le_lt_dec (length l) (length a2)) as [Hla|Hla].
  - (* the match would begin inside the token *)
    rewrite <- app_assoc in E2.
    destruct (app_split_ge _ _ _ _ _ E2 Hla) as (a3 & -> & E3).
    rewrite length_app in Hlt.
    assert (Hlt3 : length a3 < length t) by lia.
    destruct (app_split_lt _ _ _ _ _ E3 Hlt3) as (t2 & Hne2 & Et2 & Em).
    rewrite Em' in Em. rewrite Et in Et2.
    destruct a3 as [|ca a3'].
    + (* at its first byte: a name character would be a brace *)
      simpl in Et2. subst t2.
      simpl in Em. injection Em as Ec Em. subst c0.
      destruct rest as [|r1 rest']; [exact (Htwo (or_introl eq_refl) eq_refl)|].
      simpl in Em. injection Em as Er _. subst r1.
      simpl in Hrest. discriminate.
    + (* further on: a name character would be [#] *)
      simpl in Et2. injection Et2 as _ Et2.
      destruct t2 as [|c2 t2']; [congruence|].
      simpl in Em. injection Em as Ec _. subst c2.
      rewrite Et2, forallb_app in Hrest. apply andb_prop in Hrest.
      destruct Hrest as [_ Hrest]. simpl in Hrest. discriminate.
  - (* the match would begin inside the text before the next match *)
    rewrite <- app_assoc in E2.
    destruct (app_split_lt _ _ _ _ _ E2 Hla) as (l2 & Hne2 & El & Em).
    destruct (app_eq_app _ _ _ _ Em) as [k [[E1 E3]|[E1 E3]]].
    + (* the match ends with the text, or it would run into the token *)
      destruct k as [|ck k'].
      * rewrite app_nil_r in E1. subst l2.
        assert (E4 : l ++ m ++ z = a2 ++ m' ++ (m ++ z))
          by (rewrite El, <- app_assoc; reflexivity).
        specialize (Hmin _ _ _ _ Hs E4). lia.
      * rewrite Et in E3. simpl in E3. injection E3 as Ec _. subst ck.
        (* the first byte of the token would be a later byte of the match *)
        rewrite Em' in E1. destruct l2 as [|cl l2']; [congruence|].
        simpl in E1. injection E1 as _ E1.
        rewrite E1 in Hm1. rewrite forallb_app in Hm1.
        apply andb_prop in Hm1. destruct Hm1 as [_ Hm1]. cbn [forallb] in Hm1.
        apply andb_prop in Hm1. destruct Hm1 as [Hm1 _].
        apply negb_true_iff in Hm1.
        pose proof (mk_starter mk translator tokens _ Hc0). congruence.
    + assert (E4 : l ++ m ++ z = a2 ++ m' ++ (k ++ m ++ z))
        by (rewrite El, E1, <- !app_assoc; reflexivity).
      specialize (Hmin _ _ _ _ Hs E4). lia.
Qed.

Lemma textHoles_cons (m name : str) (rest : list (list str)) (v : Value) :
  p name = Some v ->
  textHoles p ([m; name] :: rest) = (name, Interface v) :: textHoles p rest.
Proof.
  intros Ev. unfold textHoles, names, argumentOf. cbn [map nth]. now rewrite Ev.
Qed.

(** [replaceHolder] on the matches of the text still to come. *)
Lemma replaceHolder_scan :
  forall (ms : list (list str)) (R P : str) (hs : list (str * value))
         (q : str) (args : list value),
    regexp.scan "#"%char 0 R = ms ->
    forallb ok R = true ->
    Barrier P -> Dec ok translator P hs ->
    replaceHolder ms (P ++ R) (map snd hs) translator p = (q, args, None) ->
    Shown ok translator q args (hs ++ textHoles p ms).
Proof.
  induction ms as [|hit rest IH]; intros R P hs q args Hscan HR HP HD H.
  - simpl in H. injection H as <- <-.
    unfold textHoles. cbn [names map]. rewrite app_nil_r. split; [|reflexivity].
    now apply Dec_app_literal_r.
  - destruct (scan_first _ _ _ _ Hscan)
      as (l & m & name & z & -> & -> & Hz & Hshape & Hmin).
    cbn [replaceHolder] in H.
    destruct (p name) as [v|] eqn:Ev; [|discriminate].
    destruct (CanInterface v); [|discriminate].
    destruct (forallb_mid _ _ _ _ HR) as (Hl & _ & Hzok).
    assert (Hrep : strings.Replace1 (P ++ l ++ m ++ z) m (Translate translator name) =
                   (P ++ l ++ Translate translator name) ++ z).
    { replace (P ++ l ++ m ++ z) with ((P ++ l) ++ m ++ z)
        by (rewrite <- app_assoc; reflexivity).
      rewrite Replace1_first; [now rewrite <- !app_assoc|].
      intros a' b' E. rewrite length_app.
      destruct (le_lt_dec (length P) (length a')) as [HPa|HPa].
      - rewrite <- app_assoc in E.
        destruct (app_split_ge _ _ _ _ _ E HPa) as (a2 & -> & E2).
        specialize (Hmin _ _ _ _ Hshape E2). rewrite length_app. lia.
      - rewrite <- app_assoc in E. specialize (HP _ _ _ _ _ Hshape E). lia. }
    rewrite Hrep in H.
    rewrite (textHoles_cons m name rest v Ev).
    replace (hs ++ (name, Interface v) :: textHoles p rest)
      with ((hs ++ [(name, Interface v)]) ++ textHoles p rest)
      by (rewrite <- app_assoc; reflexivity).
    apply (IH z (P ++ l ++ Translate translator name)
             (hs ++ [(name, Interface v)]) q args Hz Hzok).
    + eapply Barrier_step; eauto.
    + apply Dec_app; [exact HD|]. apply Dec_app_literal_l; [exact Hl|].
      apply Dec_one_token.
    + rewrite map_app. exact H.
Qed.

(** [replaceTextSubstitution] on the matches of a text keeps the tokens. *)
Lemma replaceTextSubstitution_scan :
  forall (subs : list (list str)) (R q0 : str) (hs : list (str * value)) (q : str),
    regexp.scan "$"%char 0 R = subs ->
    (subs = [] \/ forall v, forallb ok (rvs v) = true) ->
    Dec ok translator q0 hs ->
    replaceTextSubstitution rvs subs q0 p = (q, None) ->
    Dec ok translator q hs.
Proof.
  induction subs as [|hit rest IH]; intros R q0 hs q Hscan Hsub HD H.
  - simpl in H. now injection H as <-.
  - destruct Hsub as [Hsub|Hsub]; [discriminate|].
    destruct (scan_first _ _ _ _ Hscan)
      as (l & m & name & z & -> & -> & Hz & Hshape & _).
    cbn [replaceTextSubstitution] in H.
    destruct (p name) as [v|]; [|discriminate].
    apply (IH z _ hs q Hz) in H; [exact H | now right |].
    destruct (Shape_bytes _ _ _ Hshape) as (m1 & -> & Hm1).
    destruct (Replace1_cases q0 ("$"%char :: "{"%char :: m1) (rvs v))
      as [(a & b & -> & ->) | ->]; [|exact HD].
    destruct (Dec_split ok mk translator tokens "$"%char ("{"%char :: m1))
      with (s := a ++ ("$"%char :: "{"%char :: m1) ++ b) (h := hs) (a := a) (b := b)
      as (h1 & h2 & -> & D1 & D2).
    + reflexivity.
    + now apply not_starter_avoids.
    + intros _. split; [now right|]. exists "{"%char, m1. now split.
    + exact HD.
    + reflexivity.
    + apply Dec_app; [exact D1|]. apply Dec_app_literal_l; [apply Hsub | exact D2].
Qed.

(** A [TextNode] built by [NewTextNode] returns the SQL and the
    arguments of its placeholders. *)
Lemma TextNode_Accept_shown (s q : str) (args : list value) :
  AdmitsText ok rvs (NewTextNode s) ->
  TextNode_Accept rvs (NewTextNode s) translator p = (q, args, None) ->
  Shown ok translator q args (textHoles p (placeholder (NewTextNode s))).
Proof.
  intros [Hs Hsub].
  unfold TextNode_Accept, NewTextNode in *.
  cbn [placeholder textSubstitution value_] in *.
  destruct (regexp.paramRegex_FindAllStringSubmatch s) as [|hit ms] eqn:Ems.
  - destruct (regexp.formatRegexp_FindAllStringSubmatch s) as [|hit' ms'] eqn:Ems'.
    + cbn. intros H. injection H as <- <-. split; [|reflexivity].
      now apply Dec_literal.
    + cbn [length Nat.eqb andb replaceHolder].
      destruct (replaceTextSubstitution rvs _ s p) as [q2 [e|]] eqn:E2;
        [discriminate|].
      intros H. injection H as <- <-. split; [|reflexivity].
      unfold textHoles. cbn [names map].
      exact (replaceTextSubstitution_scan _ s s [] q2 Ems' Hsub
               (Dec_literal ok translator s Hs) E2).
  - cbn [length Nat.eqb andb].
    destruct (replaceHolder _ s [] translator p) as [[q1 a1] [e|]] eqn:E1;
      [discriminate|].
    destruct (replaceTextSubstitution rvs _ q1 p) as [q2 [e|]] eqn:E2;
      [discriminate|].
    intros H. injection H as <- <-.
    destruct (replaceHolder_scan _ s [] [] q1 a1 Ems Hs Barrier_nil
                (Dec_nil ok translator) E1) as [D Ea].
    cbn [app] in D, Ea. split; [|exact Ea].
    eapply replaceTextSubstitution_scan; [reflexivity | exact Hsub | exact D | exact E2].
Qed.

End TextNodes.

(** *** Placeholder tokens: shaping the text *)

Section Shaping.

Variable ok : ascii -> bool.
Variable mk : ascii -> bool.
Variable translator : Translator.
Hypothesis tokens : Tokens mk translator.
Hypothesis ok_plain : forall c, starter c = false -> ok c = true.

Local Abbreviation D := (Dec ok translator).

(** A text with nothing in it a token could begin with is literal. *)
Lemma ok_of (l : str) :
  forallb (fun c => negb (starter c)) l = true -> forallb ok l = true.
Proof.
  apply forallb_impl. intros c H. apply ok_plain. now apply negb_true_iff in H.
Qed.

Lemma white_suffix_safe (b : str) :
  forallb whiteByte b = true -> suffixOverrideFor mk b = true.
Proof.
  intros Hb. unfold suffixOverrideFor.
  rewrite (avoids_of mk translator tokens whiteByte b whiteByte_not_starter Hb).
  cbn [andb]. destruct b as [|c b']; [reflexivity|].
  simpl in Hb. apply andb_prop in Hb. destruct Hb as [Hc _].
  now rewrite (whiteByte_not_nameChar c Hc).
Qed.

Lemma TrimSpace_Dec (q : str) (h : list (str * value)) :
  D q h -> D (strings.TrimSpace q) h.
Proof.
  intros H. destruct (TrimSpace_split q) as (a & b & E & Ha & Hb).
  rewrite E in H.
  apply (Dec_strip_prefix ok mk translator tokens a) in H;
    [|exact (avoids_of mk translator tokens whiteByte a whiteByte_not_starter Ha)].
  apply (Dec_strip_suffix ok mk translator tokens _ b) in H; [exact H|].
  now apply white_suffix_safe.
Qed.

Lemma skipn_prefix_Dec (prefix q : str) (h : list (str * value)) :
  forallb regexp.nameChar prefix = true -> strings.HasPrefix q prefix = true ->
  D q h -> D (skipn (length prefix) q) h.
Proof.
  intros Hns Hp H. apply HasPrefix_true in Hp. destruct Hp as [r ->].
  rewrite skipn_length_app.
  eapply (Dec_strip_prefix ok mk translator tokens); [exact H|].
  exact (avoids_of mk translator tokens regexp.nameChar prefix nameChar_not_starter Hns).
Qed.

Lemma stripAndOr_Dec (q : str) (h : list (str * value)) :
  D q h -> D (stripAndOr q) h.
Proof.
  intros H. unfold stripAndOr.
  destruct (strings.HasPrefix q (lit "and")) eqn:E1.
  { exact (skipn_prefix_Dec (lit "and") q h eq_refl E1 H). }
  destruct (strings.HasPrefix q (lit "AND")) eqn:E2.
  { exact (skipn_prefix_Dec (lit "AND") q h eq_refl E2 H). }
  cbn [orb].
  destruct (strings.HasPrefix q (lit "or")) eqn:E3.
  { exact (skipn_prefix_Dec (lit "or") q h eq_refl E3 H). }
  destruct (strings.HasPrefix q (lit "OR")) eqn:E4.
  { exact (skipn_prefix_Dec (lit "OR") q h eq_refl E4 H). }
  exact H.
Qed.

Lemma prependWhere_Dec (q : str) (h : list (str * value)) :
  D q h -> D (prependWhere q) h.
Proof.
  intros H. unfold prependWhere.
  destruct (negb (beginsWithWhere q)); [|exact H].
  destruct (negb (strings.HasPrefix q (lit " ")));
    (apply (Dec_app_literal_l ok translator); [apply ok_of; reflexivity | exact H]).
Qed.

Lemma whereShape_Dec (q : str) (h : list (str * value)) :
  D q h -> D (whereShape q) h.
Proof.
  intros H. unfold whereShape.
  now apply prependWhere_Dec, TrimSpace_Dec, stripAndOr_Dec.
Qed.

Lemma dropBlanks_split (r : str) :
  exists bl, r = bl ++ dropBlanks r /\ forallb regexp.isBlank bl = true.
Proof.
  induction r as [|c r (bl & E & Hbl)]; [exists []; now split|].
  simpl. destruct (Ascii.eqb c " "%char) eqn:Ec.
  - exists (c :: bl). split; [simpl; congruence|].
    simpl. unfold regexp.isBlank at 1. now rewrite Ec.
  - exists []. now split.
Qed.

Lemma blank_suffix_safe (b : str) :
  forallb regexp.isBlank b = true -> suffixOverrideFor mk b = true.
Proof.
  intros Hb. unfold suffixOverrideFor.
  rewrite (avoids_of mk translator tokens regexp.isBlank b isBlank_not_starter Hb).
  cbn [andb]. destruct b as [|c b']; [reflexivity|].
  simpl in Hb. apply andb_prop in Hb. destruct Hb as [Hc _].
  now rewrite (isBlank_not_nameChar c Hc).
Qed.

Lemma trimTrailingBlanks_Dec (q : str) (h : list (str * value)) :
  D q h -> D (trimTrailingBlanks q) h.
Proof.
  intros H. unfold trimTrailingBlanks.
  destruct (dropBlanks_split (rev q)) as (bl & E & Hbl).
  assert (Eq : q = rev (dropBlanks (rev q)) ++ rev bl).
  { rewrite <- rev_app_distr, <- E. symmetry. apply rev_involutive. }
  rewrite Eq in H.
  apply (Dec_strip_suffix ok mk translator tokens _ (rev bl)) in H; [exact H|].
  apply blank_suffix_safe. now rewrite forallb_rev.
Qed.

Lemma comma_suffix_safe : suffixOverrideFor mk (lit ",") = true.
Proof.
  unfold suffixOverrideFor.
  rewrite (avoids_of mk translator tokens (fun c => Ascii.eqb c ","%char) (lit ",")).
  - reflexivity.
  - intros c H. apply Ascii.eqb_eq in H. now subst.
  - reflexivity.
Qed.

Lemma setShape_Dec (q : str) (h : list (str * value)) :
  D q h -> D (setShape q) h.
Proof.
  intros H. unfold setShape.
  set (q1 := if negb (eqb_str q []) then lit "SET " ++ q else q).
  assert (D1 : D q1 h).
  { unfold q1. destruct (negb (eqb_str q [])); [|exact H].
    apply (Dec_app_literal_l ok translator); [apply ok_of; reflexivity | exact H]. }
  apply trimTrailingBlanks_Dec in D1.
  destruct (TrimSuffix_cases (trimTrailingBlanks q1) (lit ",")) as [(r & E & ->)| ->];
    [|exact D1].
  rewrite E in D1.
  exact (Dec_strip_suffix ok mk translator tokens r (lit ",") h D1 comma_suffix_safe).
Qed.

Lemma trimPrefixOverrides_Dec (overrides : list str) (q : str) (h : list (str * value)) :
  forallb (prefixOverrideFor mk) overrides = true ->
  D q h -> D (trimPrefixOverrides q overrides) h.
Proof.
  induction overrides as [|o rest IH]; intros Hsafe H; [exact H|].
  simpl in Hsafe. apply andb_prop in Hsafe. destruct Hsafe as [Ho Hrest].
  cbn [trimPrefixOverrides].
  destruct (strings.HasPrefix q o) eqn:E; [|now apply IH].
  apply HasPrefix_true in E. destruct E as [r ->].
  rewrite TrimPrefix_app.
  eapply (Dec_strip_prefix ok mk translator tokens); eassumption.
Qed.

Lemma trimSuffixOverrides_Dec (overrides : list str) (q : str) (h : list (str * value)) :
  forallb (suffixOverrideFor mk) overrides = true ->
  D q h -> D (trimSuffixOverrides q overrides) h.
Proof.
  induction overrides as [|o rest IH]; intros Hsafe H; [exact H|].
  simpl in Hsafe. apply andb_prop in Hsafe. destruct Hsafe as [Ho Hrest].
  cbn [trimSuffixOverrides].
  destruct (strings.HasSuffix q o) eqn:E; [|now apply IH].
  apply HasSuffix_true in E. destruct E as [r ->].
  rewrite TrimSuffix_app.
  eapply (Dec_strip_suffix ok mk translator tokens); eassumption.
Qed.

End Shaping.

(** *** Placeholder tokens: the node tree *)

Section NestedInduction.

Variable P : Node -> Prop.

Hypothesis case_NodeGroup : forall g, allNodes P g -> P (NodeGroup g).
Hypothesis case_pureTextNode : forall s, P (pureTextNode s).
Hypothesis case_Text : forall c, P (Text c).
Hypothesis case_ConditionNode :
  forall expr Nodes, allNodes P Nodes -> P (ConditionNode expr Nodes).
Hypothesis case_WhereNode : forall Nodes, allNodes P Nodes -> P (WhereNode Nodes).
Hypothesis case_TrimNode : forall t Nodes, allNodes P Nodes -> P (TrimNode t Nodes).
Hypothesis case_ForeachNode : forall f Nodes, allNodes P Nodes -> P (ForeachNode f Nodes).
Hypothesis case_SetNode : forall Nodes, allNodes P Nodes -> P (SetNode Nodes).
Hypothesis case_SQLNode : forall id nodes, allNodes P nodes -> P (SQLNode id nodes).
Hypothesis case_IncludeNode :
  forall sqlNode lookup,
    match sqlNode with Some s => P s | None => True end ->
    match lookup with inr s => P s | inl _ => True end ->
    P (IncludeNode sqlNode lookup).
Hypothesis case_ChooseNode :
  forall whens otherwise,
    allNodes P whens ->
    match otherwise with Some o => P o | None => True end ->
    P (ChooseNode whens otherwise).
Hypothesis case_OtherwiseNode : forall Nodes, allNodes P Nodes -> P (OtherwiseNode Nodes).
Hypothesis case_ValuesNode : forall v, P (ValuesNode v).
Hypothesis case_SelectFieldAliasNode : forall s, P (SelectFieldAliasNode s).

(** Induction over a node tree, the children of a node taken together. *)
Lemma Node_nested_ind : forall n, P n.
Proof.
  fix IH 1. intros n.
  assert (all : forall l, allNodes P l).
  { fix IHl 1. intros [|x r]; [exact I | exact (conj (IH x) (IHl r))]. }
  destruct n as [g|s|c|expr Nodes|Nodes|t Nodes|f Nodes|Nodes|id nodes
                |sqlNode lookup|whens otherwise|Nodes|v|s].
  - apply case_NodeGroup, all.
  - apply case_pureTextNode.
  - apply case_Text.
  - apply case_ConditionNode, all.
  - apply case_WhereNode, all.
  - apply case_TrimNode, all.
  - apply case_ForeachNode, all.
  - apply case_SetNode, all.
  - apply case_SQLNode, all.
  - apply case_IncludeNode.
    + destruct sqlNode; [apply IH | exact I].
    + destruct lookup; [exact I | apply IH].
  - apply case_ChooseNode; [apply all|]. destruct otherwise; [apply IH | exact I].
  - apply case_OtherwiseNode, all.
  - apply case_ValuesNode.
  - apply case_SelectFieldAliasNode.
Qed.

End NestedInduction.

Lemma allNodes_mp (P Q : Node -> Prop) (l : list Node) :
  allNodes (fun n => P n -> Q n) l -> allNodes P l -> allNodes Q l.
Proof.
  induction l as [|x r IH]; [trivial|]. simpl. intros [H1 H2] [H3 H4]. auto.
Qed.

Lemma allNodes_mp2 (P Q R : Node -> Prop) (l : list Node) :
  allNodes (fun n => P n -> Q n -> R n) l ->
  allNodes P l -> allNodes Q l -> allNodes R l.
Proof.
  induction l as [|x r IH]; [trivial|].
  simpl. intros [H1 H2] [H3 H4] [H5 H6]. auto.
Qed.

Section Correspondence.

Variable rvs : Value -> str.
Variable ok : ascii -> bool.
Variable mk : ascii -> bool.
Variable translator : Translator.
Hypothesis tokens : Tokens mk translator.
Hypothesis ok_plain : forall c, starter c = false -> ok c = true.

Local Abbreviation Sh := (Shown ok translator).
Local Abbreviation Corr := (Corresponds ok rvs translator).
Local Abbreviation hs := (holes rvs translator).

Lemma Shown_literal (l : str) : forallb ok l = true -> Sh l [] [].
Proof. intros H. split; [now apply Dec_literal | reflexivity]. Qed.

Lemma Shown_nil : Sh [] [] [].
Proof. split; [constructor | reflexivity]. Qed.

Lemma Shown_app (s1 s2 : str) (a1 a2 : list value) (h1 h2 : list (str * value)) :
  Sh s1 a1 h1 -> Sh s2 a2 h2 -> Sh (s1 ++ s2) (a1 ++ a2) (h1 ++ h2).
Proof.
  intros [D1 ->] [D2 ->]. split; [now apply Dec_app | now rewrite map_app].
Qed.

Lemma Shown_app_literal (s l : str) (a : list value) (h : list (str * value)) :
  forallb ok l = true -> Sh s a h -> Sh (s ++ l) a h.
Proof.
  intros Hl [D ->]. split; [now apply Dec_app_literal_r | reflexivity].
Qed.

Lemma Shown_shape (f : str -> str) (q : str) (a : list value) (h : list (str * value)) :
  (forall q h, Dec ok translator q h -> Dec ok translator (f q) h) ->
  Sh q a h -> Sh (f q) a h.
Proof. intros Hf [D E]. split; auto. Qed.

Lemma blank_ok : forallb ok (lit " ") = true.
Proof. apply (ok_of ok ok_plain). reflexivity. Qed.

Lemma composeLoop_shown (nodes : list Node) :
  allNodes Corr nodes ->
  forall n i p builder a hb q args,
    Sh builder a hb ->
    composeLoop (Accept rvs) n i nodes translator p builder a = (q, args, None) ->
    Sh q args (hb ++ concat (map (fun c => hs c p) nodes)).
Proof.
  induction nodes as [|node rest IH]; intros Hall n i p builder a hb q args Hb H.
  - simpl in H. injection H as <- <-. cbn [map concat]. now rewrite app_nil_r.
  - destruct Hall as [Hnode Hrest]. cbn [composeLoop] in H.
    destruct (Accept rvs node translator p) as [[q1 a1] [e|]] eqn:E; [discriminate|].
    apply Hnode in E. rewrite !app_if_nonempty in H.
    cbn [map concat]. rewrite app_assoc.
    eapply (IH Hrest); [|exact H].
    destruct (_ && _); [apply Shown_app_literal; [apply blank_ok|]|];
      now apply Shown_app.
Qed.

Lemma trimLoop_shown (nodes : list Node) :
  allNodes Corr nodes ->
  forall n i p builder a hb q args,
    Sh builder a hb ->
    trimLoop (Accept rvs) n i nodes translator p builder a = (q, args, None) ->
    Sh q args (hb ++ concat (map (fun c => hs c p) nodes)).
Proof.
  induction nodes as [|node rest IH]; intros Hall n i p builder a hb q args Hb H.
  - simpl in H. injection H as <- <-. cbn [map concat]. now rewrite app_nil_r.
  - destruct Hall as [Hnode Hrest]. cbn [trimLoop] in H.
    destruct (Accept rvs node translator p) as [[q1 a1] [e|]] eqn:E; [discriminate|].
    apply Hnode in E. rewrite !app_if_nonempty in H.
    cbn [map concat]. rewrite app_assoc.
    eapply (IH Hrest); [|exact H].
    destruct (_ && _); [apply Shown_app_literal; [apply blank_ok|]|];
      (destruct (_ && _); [apply Shown_app_literal; [apply blank_ok|]|]);
      now apply Shown_app.
Qed.

Lemma foreachNodes_shown (nodes : list Node) :
  allNodes Corr nodes ->
  forall group builder a hb q args,
    Sh builder a hb ->
    foreachNodes (Accept rvs) nodes translator group builder a = (q, args, None) ->
    Sh q args (hb ++ concat (map (fun c => hs c group) nodes)).
Proof.
  induction nodes as [|node rest IH]; intros Hall group builder a hb q args Hb H.
  - simpl in H. injection H as <- <-. cbn [map concat]. now rewrite app_nil_r.
  - destruct Hall as [Hnode Hrest]. cbn [foreachNodes] in H.
    destruct (Accept rvs node translator group) as [[q1 a1] [e|]] eqn:E; [discriminate|].
    apply Hnode in E. rewrite !app_if_nonempty in H.
    cbn [map concat]. rewrite app_assoc.
    eapply (IH Hrest); [|exact H]. now apply Shown_app.
Qed.

Lemma sliceLoop_shown (f : ForeachAttrs) (nodes : list Node) (end_ : Z) (p : Param) :
  allNodes Corr nodes ->
  forallb ok (Close f) = true -> forallb ok (Separator f) = true ->
  forall items i builder a hb q args,
    Sh builder a hb ->
    sliceLoop (Accept rvs) f nodes end_ translator p i items builder a = (q, args, None) ->
    Sh q args
      (hb ++ concat (map (fun e => concat (map (fun c => hs c (elementGroup f p e)) nodes))
                       (indexed i items))).
Proof.
  intros Hall Hclose Hsep.
  induction items as [|item rest IH]; intros i builder a hb q args Hb H.
  - simpl in H. injection H as <- <-. cbn [indexed map concat]. rewrite app_nil_r.
    now apply Shown_app_literal.
  - cbn [sliceLoop] in H.
    change (ParamGroup [AsParam (foreachScope (Item f) (Index f) item (VInt KInt i)); p])
      with (elementGroup f p (VInt KInt i, item)) in H.
    destruct (foreachNodes _ _ _ _ _ _) as [[b1 a1] [e|]] eqn:E; [discriminate|].
    apply (foreachNodes_shown nodes Hall _ _ _ _ _ _ Hb) in E.
    cbn [indexed map concat]. rewrite app_assoc.
    eapply IH; [|exact H].
    destruct (i <? end_)%Z; [now apply Shown_app_literal | exact E].
Qed.

Lemma mapLoop_shown (f : ForeachAttrs) (nodes : list Node) (end_ : Z) (p : Param) :
  allNodes Corr nodes ->
  forallb ok (Close f) = true -> forallb ok (Separator f) = true ->
  forall entries i builder a hb q args,
    Sh builder a hb ->
    mapLoop (Accept rvs) f nodes end_ translator p i entries builder a = (q, args, None) ->
    Sh q args
      (hb ++ concat (map (fun e => concat (map (fun c => hs c (elementGroup f p e)) nodes))
                       entries)).
Proof.
  intros Hall Hclose Hsep.
  induction entries as [|[key item] rest IH]; intros i builder a hb q args Hb H.
  - simpl in H. injection H as <- <-. cbn [map concat]. rewrite app_nil_r.
    now apply Shown_app_literal.
  - cbn [mapLoop] in H.
    change (ParamGroup [AsParam (foreachScope (Item f) (Index f) item key); p])
      with (elementGroup f p (key, item)) in H.
    destruct (foreachNodes _ _ _ _ _ _) as [[b1 a1] [e|]] eqn:E; [discriminate|].
    apply (foreachNodes_shown nodes Hall _ _ _ _ _ _ Hb) in E.
    cbn [map concat]. rewrite app_assoc.
    eapply IH; [|exact H].
    destruct (i <? end_)%Z; [now apply Shown_app_literal | exact E].
Qed.

Lemma NodeGroup_shown (nodes : list Node) :
  allNodes Corr nodes ->
  forall p q a,
    NodeGroup_Accept (Accept rvs) nodes translator p = (q, a, None) ->
    Sh q a (concat (map (fun c => hs c p) nodes)).
Proof.
  intros Hall p q a H. unfold NodeGroup_Accept in H.
  exact (composeLoop_shown nodes Hall _ _ p [] [] [] q a Shown_nil H).
Qed.

(** Every well-formed node whose literal text [ok] admits returns the
    SQL and the arguments of its holes. *)
Lemma WellFormed_Corresponds :
  forall n, WellFormedFor mk n -> Admits ok rvs n -> Corr n.
Proof.
  apply (Node_nested_ind (fun n => WellFormedFor mk n -> Admits ok rvs n -> Corr n)).
  - (* NodeGroup *)
    intros g IH Hwf Had p q a H. cbn [Accept] in H. cbn [holes].
    exact (NodeGroup_shown g (allNodes_mp2 _ _ _ _ IH Hwf Had) p q a H).
  - (* pureTextNode *)
    intros s _ Had p q a H. cbn [Accept] in H. injection H as <- <-.
    cbn [holes]. now apply Shown_literal.
  - (* TextNode *)
    intros c Hwf Had p q a H. cbn [Accept WellFormedFor Admits holes] in *.
    rewrite Hwf in *.
    exact (TextNode_Accept_shown rvs ok mk translator tokens p _ q a Had H).
  - (* ConditionNode *)
    intros expr Nodes IH Hwf Had p q a H. cbn [Accept] in H. cbn [holes].
    unfold ConditionNode_Accept in H.
    destruct (Match expr p) as [[|] [e|]]; try discriminate.
    + exact (NodeGroup_shown Nodes (allNodes_mp2 _ _ _ _ IH Hwf Had) p q a H).
    + injection H as <- <-. apply Shown_nil.
  - (* WhereNode *)
    intros Nodes IH Hwf Had p q a H. cbn [Accept] in H. cbn [holes].
    unfold WhereNode_Accept in H.
    destruct (composeLoop _ _ _ _ _ _ _ _) as [[q0 a0] [e|]] eqn:E; [discriminate|].
    apply (composeLoop_shown Nodes (allNodes_mp2 _ _ _ _ IH Hwf Had) _ _ p [] [] []
             q0 a0 Shown_nil) in E.
    cbn [app] in E.
    destruct (eqb_str q0 []); injection H as <- <-; [exact E|].
    apply Shown_shape; [|exact E].
    apply (whereShape_Dec ok mk translator tokens ok_plain).
  - (* TrimNode *)
    intros t Nodes IH (Hpre & Hsuf & Hwf) (Hp & Hs & Had) p q a H.
    cbn [Accept] in H. cbn [holes]. unfold TrimNode_Accept in H.
    destruct (trimLoop _ _ _ _ _ _ _ _) as [[q0 a0] [e|]] eqn:E; [discriminate|].
    apply (trimLoop_shown Nodes (allNodes_mp2 _ _ _ _ IH Hwf Had) _ _ p _ [] []
             q0 a0) in E;
      [|destruct (negb _); [now apply Shown_literal | apply Shown_nil]].
    cbn [app] in E.
    injection H as <- <-.
    assert (E1 : Sh (if 0 <? length (PrefixOverrides t)
                     then trimPrefixOverrides q0 (PrefixOverrides t) else q0) a0
                   (concat (map (fun c => hs c p) Nodes))).
    { destruct (0 <? length (PrefixOverrides t)); [|exact E].
      apply (Shown_shape (fun q => trimPrefixOverrides q (PrefixOverrides t)));
        [|exact E].
      intros. now apply (trimPrefixOverrides_Dec ok mk translator tokens). }
    set (q1 := if 0 <? length (PrefixOverrides t)
               then trimPrefixOverrides q0 (PrefixOverrides t) else q0) in *.
    assert (E2 : Sh (if 0 <? length (SuffixOverrides t)
                     then trimSuffixOverrides q1 (SuffixOverrides t) else q1) a0
                   (concat (map (fun c => hs c p) Nodes))).
    { clearbody q1. destruct (0 <? length (SuffixOverrides t)); [|exact E1].
      apply (Shown_shape (fun q => trimSuffixOverrides q (SuffixOverrides t)));
        [|exact E1].
      intros. now apply (trimSuffixOverrides_Dec ok mk translator tokens). }
    destruct (negb _); [now apply Shown_app_literal | exact E2].
  - (* ForeachNode *)
    intros f Nodes IH Hwf (Hopen & Hclose & Hsep & Had) p q a H.
    cbn [Accept] in H. cbn [holes]. unfold ForeachNode_Accept in H.
    pose proof (allNodes_mp2 _ _ _ _ IH Hwf Had) as Hall.
    destruct (p (Item f)); [discriminate|].
    destruct (p (Collection f)) as [v|]; [|discriminate].
    destruct (negb (CanInterface v)); [discriminate|].
    assert (Hslice : forall elems,
               acceptSlice (Accept rvs) f Nodes elems translator p = (q, a, None) ->
               Sh q a
                 (concat (map (fun e =>
                                 concat (map (fun c => hs c (elementGroup f p e)) Nodes))
                            (indexed 0 elems)))).
    { intros elems Hs. unfold acceptSlice in Hs.
      destruct (Z.of_nat (length elems) =? 0)%Z eqn:Ez.
      - injection Hs as <- <-.
        apply Z.eqb_eq in Ez. destruct elems; [apply Shown_nil | discriminate].
      - exact (sliceLoop_shown f Nodes _ p Hall Hclose Hsep elems 0%Z (Open f) [] []
                 q a (Shown_literal (Open f) Hopen) Hs). }
    destruct (unwrapInterface (val v)); try discriminate.
    + now apply (Hslice elems).
    + now apply (Hslice elems).
    + unfold acceptMap in H.
      destruct (length entries =? 0) eqn:Ez.
      * injection H as <- <-.
        apply Nat.eqb_eq in Ez. destruct entries; [apply Shown_nil | discriminate].
      * exact (mapLoop_shown f Nodes _ p Hall Hclose Hsep entries 0%Z (Open f) [] []
                 q a (Shown_literal (Open f) Hopen) H).
  - (* SetNode *)
    intros Nodes IH Hwf Had p q a H. cbn [Accept] in H. cbn [holes].
    unfold SetNode_Accept in H.
    destruct (composeLoop _ _ _ _ _ _ _ _) as [[q0 a0] [e|]] eqn:E; [discriminate|].
    apply (composeLoop_shown Nodes (allNodes_mp2 _ _ _ _ IH Hwf Had) _ _ p [] [] []
             q0 a0 Shown_nil) in E.
    cbn [app] in E. injection H as <- <-.
    apply Shown_shape; [|exact E].
    apply (setShape_Dec ok mk translator tokens ok_plain).
  - (* SQLNode *)
    intros id nodes IH Hwf Had p q a H. cbn [Accept] in H. cbn [holes].
    exact (NodeGroup_shown nodes (allNodes_mp2 _ _ _ _ IH Hwf Had) p q a H).
  - (* IncludeNode *)
    intros sqlNode lookup IH1 IH2 Hwf Had p q a H.
    cbn [Accept WellFormedFor Admits holes] in *.
    destruct sqlNode as [s|].
    + exact (IH1 Hwf Had p q a H).
    + destruct lookup as [e|s]; [discriminate|]. exact (IH2 Hwf Had p q a H).
  - (* ChooseNode *)
    intros whens otherwise IH1 IH2 (Hwf1 & Hwf2) (Had1 & Had2) p q a H.
    cbn [Accept] in H. cbn [holes]. unfold ChooseNode_Accept in H.
    pose proof (allNodes_mp2 _ _ _ _ IH1 Hwf1 Had1) as Hall. clear IH1 Hwf1 Had1.
    induction whens as [|node rest IHw].
    + destruct otherwise as [o|].
      * exact (IH2 Hwf2 Had2 p q a H).
      * injection H as <- <-. apply Shown_nil.
    + destruct Hall as [Hnode Hrest]. cbv beta iota zeta in H.
      destruct (Accept rvs node translator p) as [[q1 a1] [e|]] eqn:E; [discriminate|].
      cbn [query fst]. 
      destruct (0 <? length q1).
      * injection H as <- <-. exact (Hnode p q1 a1 E).
      * exact (IHw H Hrest).
  - (* OtherwiseNode *)
    intros Nodes IH Hwf Had p q a H. cbn [Accept] in H. cbn [holes].
    exact (NodeGroup_shown Nodes (allNodes_mp2 _ _ _ _ IH Hwf Had) p q a H).
  - (* ValuesNode *)
    intros v _ Had p q a H. cbn [Accept] in H. cbn [holes Admits] in *.
    unfold ValuesNode_Accept in H.
    destruct (length v =? 0); [injection H as <- <-; apply Shown_nil|].
    exact (TextNode_Accept_shown rvs ok mk translator tokens p _ q a Had H).
  - (* SelectFieldAliasNode *)
    intros s _ Had p q a H. cbn [Accept] in H. cbn [holes Admits] in *.
    rewrite H in Had. cbn [query fst] in Had.
    assert (Ea : a = []).
    { unfold SelectFieldAliasNode_Accept in H.
      destruct (length s =? 0); now injection H as _ <-. }
    subst a. now apply Shown_literal.
Qed.

End Correspondence.

(** *** Placeholder tokens: the translators and trees of the claims *)

Lemma forallb_true (s : str) : forallb (fun _ : ascii => true) s = true.
Proof. induction s; auto. Qed.

(** Every literal text is admitted when every byte is. *)
Lemma Admits_all (rvs : Value -> str) : forall n, Admits (fun _ => true) rvs n.
Proof.
  assert (Htext : forall c, AdmitsText (fun _ => true) rvs c).
  { intros c. split; [apply forallb_true | right; intros; apply forallb_true]. }
  apply (Node_nested_ind (fun n => Admits (fun _ => true) rvs n)).
  - intros g IH. exact IH.
  - intros s. apply forallb_true.
  - intros c. apply Htext.
  - intros expr Nodes IH. exact IH.
  - intros Nodes IH. exact IH.
  - intros t Nodes IH. cbn [Admits].
    split; [apply forallb_true|]. split; [apply forallb_true | exact IH].
  - intros f Nodes IH. cbn [Admits].
    split; [apply forallb_true|]. split; [apply forallb_true|].
    split; [apply forallb_true | exact IH].
  - intros Nodes IH. exact IH.
  - intros id nodes IH. exact IH.
  - intros sqlNode lookup IH1 IH2. cbn [Admits].
    destruct sqlNode as [s|]; [exact IH1|].
    destruct lookup as [e|s]; [exact I | exact IH2].
  - intros whens otherwise IH1 IH2. cbn [Admits]. split; [exact IH1|].
    destruct otherwise as [o|]; [exact IH2 | exact I].
  - intros Nodes IH. exact IH.
  - intros v. apply Htext.
  - intros s. apply forallb_true.
Qed.

(** A safe translator writes tokens that begin with a sigil. *)
Lemma SafeTranslator_Tokens (translator : Translator) :
  SafeTranslator translator -> Tokens sigil translator.
Proof.
  intros Hsafe. split; [exact sigil_starter|].
  intros name. destruct (safeToken_inv _ (Hsafe name)) as (c & rest & -> & Hc & Hrest).
  unfold tokenOf. rewrite Hc, Hrest. cbn [andb].
  destruct (sigil_facts c Hc) as (_ & _ & H1 & H2 & _).
  apply Ascii.eqb_neq in H1. apply Ascii.eqb_neq in H2. now rewrite H1, H2.
Qed.

Lemma WellFormed_For_sigil : forall n, WellFormed n -> WellFormedFor sigil n.
Proof.
  apply (Node_nested_ind (fun n => WellFormed n -> WellFormedFor sigil n)).
  - intros g IH Hwf. exact (allNodes_mp _ _ g IH Hwf).
  - intros s _. exact I.
  - intros c Hwf. exact Hwf.
  - intros expr Nodes IH Hwf. exact (allNodes_mp _ _ Nodes IH Hwf).
  - intros Nodes IH Hwf. exact (allNodes_mp _ _ Nodes IH Hwf).
  - intros t Nodes IH (Hp & Hs & Hwf). cbn [WellFormedFor].
    split; [exact Hp|]. split; [exact Hs|]. exact (allNodes_mp _ _ Nodes IH Hwf).
  - intros f Nodes IH Hwf. exact (allNodes_mp _ _ Nodes IH Hwf).
  - intros Nodes IH Hwf. exact (allNodes_mp _ _ Nodes IH Hwf).
  - intros id nodes IH Hwf. exact (allNodes_mp _ _ nodes IH Hwf).
  - intros sqlNode lookup IH1 IH2 Hwf. cbn [WellFormed WellFormedFor] in *.
    destruct sqlNode as [s|]; [exact (IH1 Hwf)|].
    destruct lookup as [e|s]; [exact I | exact (IH2 Hwf)].
  - intros whens otherwise IH1 IH2 (Hw & Ho). cbn [WellFormedFor].
    split; [exact (allNodes_mp _ _ whens IH1 Hw)|].
    destruct otherwise as [o|]; [exact (IH2 Ho) | exact I].
  - intros Nodes IH Hwf. exact (allNodes_mp _ _ Nodes IH Hwf).
  - intros v _. exact I.
  - intros s _. exact I.
Qed.

(** Under a safe translator the well-formed children of a group give
    no argument when they give no text. *)
Lemma empty_body_no_arguments (rvs : Value -> str) (translator : Translator)
    (nodes : list Node) (p : Param) (a : list value) :
  SafeTranslator translator -> allNodes WellFormed nodes ->
  Accept rvs (NodeGroup nodes) translator p = ([], a, None) -> a = [].
Proof.
  intros Hsafe Hwf H.
  assert (Hwf' : WellFormedFor sigil (NodeGroup nodes)).
  { apply WellFormed_For_sigil. exact Hwf. }
  destruct (WellFormed_Corresponds rvs (fun _ => true) sigil translator
              (SafeTranslator_Tokens translator Hsafe) (fun _ _ => eq_refl)
              (NodeGroup nodes) Hwf' (Admits_all rvs _) p [] a H) as [D ->].
  apply (Dec_nil_inv _ sigil translator (SafeTranslator_Tokens translator Hsafe)) in D.
  now rewrite D.
Qed.

(** *** Placeholder tokens: the claim *)

(** C1, as the code has it. Let the tokens of the translator begin with
    a byte of [mk], a punctuation byte, and go on with name characters
    (such as [?], [:name], [@p1], [$1]), and let the tree have its text
    nodes from [NewTextNode] and no trim override that holds a byte of
    [mk] (nor, at the end, one that begins with a name character). Then
    every successful render returns as its arguments the values of the
    placeholders it went through, in order, each the value its name
    has in the scope in force there; the SQL is literal text with the
    tokens of exactly these placeholders in it, in the same order; and
    when none of the literal text of the statement holds a byte of
    [mk], the literal text of the SQL holds none either, so that the
    tokens in the SQL are as many as the arguments. *)
Theorem C1_placeholders_match_arguments :
  forall (rvs : Value -> str) (mk : ascii -> bool) (translator : Translator)
         (n : Node) (p : Param) (sql : str) (args : list value),
    Tokens mk translator ->
    WellFormedFor mk n ->
    Accept rvs n translator p = (sql, args, None) ->
    args = map snd (holes rvs translator n p) /\
    (exists pieces,
       sql = renderPieces translator pieces /\
       placeholders pieces = holes rvs translator n p) /\
    (Plain mk rvs n ->
     countOf mk sql = length args /\
     exists pieces,
       sql = renderPieces translator pieces /\
       placeholders pieces = holes rvs translator n p /\
       avoids mk (literals pieces) = true).
Proof.
  intros rvs mk translator n p sql args Htok Hwf H.
  destruct (WellFormed_Corresponds rvs (fun _ => true) mk translator Htok
              (fun _ _ => eq_refl) n Hwf (Admits_all rvs n) p sql args H) as [D Ea].
  split; [exact Ea|]. split.
  - destruct (Dec_pieces _ translator sql _ D) as (pieces & Es & Eh & _).
    exists pieces. now split.
  - intros Hplain.
    assert (Hok : forall c, starter c = false -> negb (mk c) = true).
    { intros c Hc. now rewrite (not_starter_not_mk mk translator Htok c Hc). }
    destruct (WellFormed_Corresponds rvs (fun c => negb (mk c)) mk translator Htok
                Hok n Hwf Hplain p sql args H) as [D' _].
    split.
    + rewrite Ea, length_map.
      apply (Dec_count (fun c => negb (mk c)) mk translator Htok); [|exact D'].
      intros c Hc. now apply negb_true_iff in Hc.
    + destruct (Dec_pieces _ translator sql _ D') as (pieces & Es & Eh & El).
      exists pieces. repeat split; assumption.
Qed.

Lemma C1_placeholders_match_arguments_witness :
  [VInt KInt 7] =
    map snd (holes Examples.showValue Examples.questionMark Examples.selectById
               Examples.paramId) /\
  (exists pieces,
     lit "SELECT * FROM users WHERE id = ?" =
       renderPieces Examples.questionMark pieces /\
     placeholders pieces =
       holes Examples.showValue Examples.questionMark Examples.selectById
         Examples.paramId) /\
  (countOf Inputs.isQuestionMark (lit "SELECT * FROM users WHERE id = ?") =
     length [VInt KInt 7] /\
   exists pieces,
     lit "SELECT * FROM users WHERE id = ?" =
       renderPieces Examples.questionMark pieces /\
     placeholders pieces =
       holes Examples.showValue Examples.questionMark Examples.selectById
         Examples.paramId /\
     avoids Inputs.isQuestionMark (literals pieces) = true).
Proof.
  destruct (C1_placeholders_match_arguments Examples.showValue Inputs.isQuestionMark
              Examples.questionMark Examples.selectById Examples.paramId
              (lit "SELECT * FROM users WHERE id = ?") [VInt KInt 7])
    as (H1 & H2 & H3).
  - split.
    + intros c Hc. apply Ascii.eqb_eq in Hc. subst c. reflexivity.
    + intros name. reflexivity.
  - simpl. repeat split.
  - reflexivity.
  - split; [exact H1|]. split; [exact H2|]. apply H3.
    simpl. repeat split. now left.
Defined.

Lemma placeholder_writes_token (ps : list piece) :
  placeholders ps <> [] ->
  In "?"%char (renderPieces Examples.questionMark ps).
Proof.
  induction ps as [|[text|name bound] rest IH]; intros H.
  - now destruct H.
  - simpl. apply in_or_app. right. now apply IH.
  - simpl. now left.
Qed.

(** C1 as stated fails: [<trim suffixOverrides="?">a = #{x}</trim>]
    renders, under the [?] translator, to SQL with no token in it and
    one argument. *)
Lemma C1_override_cuts_token :
  Accept Examples.showValue Examples.trimEatsToken Examples.questionMark
    Examples.paramX = (lit "a = ", [VInt KInt 1], None) /\
  ~ (exists pieces,
       lit "a = " = renderPieces Examples.questionMark pieces /\
       [VInt KInt 1] = map snd (placeholders pieces)).
Proof.
  split; [reflexivity|].
  intros (ps & E & Ea).
  assert (Hne : placeholders ps <> []) by (intros E0; rewrite E0 in Ea; discriminate).
  apply placeholder_writes_token in Hne. rewrite <- E in Hne.
  simpl in Hne. decompose [or] Hne; try discriminate; assumption.
Qed.

(** The tokens [$1] are among those the claim is proved for: under that
    translator the statement of S1 renders to one token and one
    argument. *)
Lemma dollar_tokens_are_covered :
  Tokens Inputs.isDollar Inputs.dollarOne /\
  Accept Examples.showValue Examples.selectById Inputs.dollarOne Examples.paramId =
  (lit "SELECT * FROM users WHERE id = $1", [VInt KInt 7], None) /\
  countOf Inputs.isDollar (lit "SELECT * FROM users WHERE id = $1") = 1.
Proof.
  split; [|split; reflexivity]. split.
  - intros c Hc. apply Ascii.eqb_eq in Hc. subst c. reflexivity.
  - intros name. reflexivity.
Qed.

(** Why [$] needs a name character behind it: the bare token [$] in
    front of [{t}] is taken for the substitution [${t}] and replaced;
    the SQL [X ${t}] holds no token for its one argument. *)
Lemma bare_dollar_taken_for_a_substitution :
  Accept Examples.showValue (Text (NewTextNode (lit "#{a}{t} ${t}")))
    Inputs.bareDollar Inputs.paramAT =
  (lit "X ${t}", [VInt KInt 1], None).
Proof. reflexivity. Qed.

(** Why the count asks for plain text: a question mark of the statement
    text stands in the SQL beside the token, two bytes [?] for one
    argument. *)
Lemma literal_question_mark_beside_the_token :
  Accept Examples.showValue (Text (NewTextNode (lit "a = '?' AND b = #{x}")))
    Examples.questionMark Examples.paramX =
  (lit "a = '?' AND b = ?", [VInt KInt 1], None) /\
  countOf Inputs.isQuestionMark (lit "a = '?' AND b = ?") = 2.
Proof. split; reflexivity. Qed.

(** *** Where, and the arguments of an empty body *)

(** C4, as the code has it. When the children of a [where] compose to
    [body] with the arguments [a], the result has those arguments and is
    empty when [body] is empty; otherwise a leading [and]/[AND] loses its
    first three bytes (or a leading [or]/[OR] its first two), white
    space is trimmed at both ends, and [WHERE] followed by a blank is
    put in front unless the rest begins with [where]/[WHERE]. An empty
    body comes with no arguments when the tokens of the translator are
    safe and the children are well formed. *)
Theorem C4_where_rule :
  forall (rvs : Value -> str) (nodes : list Node) (translator : Translator)
         (p : Param) (body : str) (a : list value),
    Accept rvs (NodeGroup nodes) translator p = (body, a, None) ->
    Accept rvs (WhereNode nodes) translator p =
    ((if eqb_str body [] then []
      else if beginsWithWhere (strings.TrimSpace (stripAndOr body))
           then strings.TrimSpace (stripAndOr body)
           else lit "WHERE " ++ strings.TrimSpace (stripAndOr body)),
     a, None) /\
    (SafeTranslator translator -> allNodes WellFormed nodes -> body = [] -> a = []).
Proof.
  intros rvs nodes translator p body a H. split.
  - now rewrite (WhereNode_of_body _ _ _ _ _ _ H).
  - intros Hsafe Hwf ->.
    exact (empty_body_no_arguments rvs translator nodes p a Hsafe Hwf H).
Qed.

Lemma C4_where_rule_witness :
  Accept Examples.showValue (WhereNode Examples.whereTrailingBlank)
    Examples.questionMark Examples.noParams = (lit "WHERE a", [], None).
Proof.
  apply (C4_where_rule Examples.showValue Examples.whereTrailingBlank
           Examples.questionMark Examples.noParams (lit "a ") []).
  reflexivity.
Defined.

(** C4 as stated fails: the body [a ] keeps its trailing blank under the
    rule of the specification, and loses it in [WhereNode.Accept]. *)
Lemma C4_trailing_space_trimmed :
  Accept Examples.showValue (NodeGroup Examples.whereTrailingBlank)
    Examples.questionMark Examples.noParams = (lit "a ", [], None) /\
  Accept Examples.showValue (WhereNode Examples.whereTrailingBlank)
    Examples.questionMark Examples.noParams = (lit "WHERE a", [], None) /\
  whereSpec (lit "a ") = lit "WHERE a ".
Proof. repeat split. Qed.

(** Why the tokens have to be safe: a translator whose token for [a] is
    the text [#{b}] has that token rewritten by the replacement for
    [b]; the SQL [? #{b}] holds one token for two arguments. *)
Lemma token_rewritten_by_later_replacement :
  Accept Examples.showValue (Text (NewTextNode (lit "#{a} #{b}")))
    Examples.echoTranslator Examples.paramAB =
  (lit "? #{b}", [VInt KInt 1; VInt KInt 2], None).
Proof. reflexivity. Qed.


(* ===================================================================== *)
(** * Further properties of the code                                     *)
(* ===================================================================== *)

(** ** Rendering: errors carry no output                                 *)

Section NoPartialOutput.

Variable rvs : Value -> str.

Lemma Clean_failed (e : error) : Clean (failed e).
Proof. intros e' H. cbn in H. now inversion H. Qed.

Lemma Clean_ok (q : str) (a : list value) : Clean (q, a, None).
Proof. intros e H. discriminate. Qed.

Local Abbreviation CleanNode :=
  (fun n => forall translator p, Clean (Accept rvs n translator p)).

Lemma composeLoop_clean (nodes : list Node) :
  forall n i translator p builder a,
    Clean (composeLoop (Accept rvs) n i nodes translator p builder a).
Proof.
  induction nodes as [|node rest IH]; intros n i translator p builder a.
  - apply Clean_ok.
  - cbn [composeLoop].
    destruct (Accept rvs node translator p) as [[q a'] [e|]].
    + apply Clean_failed.
    + apply IH.
Qed.

Lemma trimLoop_clean (nodes : list Node) :
  forall n i translator p builder a,
    Clean (trimLoop (Accept rvs) n i nodes translator p builder a).
Proof.
  induction nodes as [|node rest IH]; intros n i translator p builder a.
  - apply Clean_ok.
  - cbn [trimLoop].
    destruct (Accept rvs node translator p) as [[q a'] [e|]].
    + apply Clean_failed.
    + apply IH.
Qed.

Lemma foreachNodes_clean (nodes : list Node) :
  forall translator group builder a,
    Clean (foreachNodes (Accept rvs) nodes translator group builder a).
Proof.
  induction nodes as [|node rest IH]; intros translator group builder a.
  - apply Clean_ok.
  - cbn [foreachNodes].
    destruct (Accept rvs node translator group) as [[q a'] [e|]].
    + apply Clean_failed.
    + apply IH.
Qed.

Lemma sliceLoop_clean (f : ForeachAttrs) (Nodes : list Node) (end_ : Z)
    (translator : Translator) (p : Param) (items : list value) :
  forall i builder a,
    Clean (sliceLoop (Accept rvs) f Nodes end_ translator p i items builder a).
Proof.
  induction items as [|item rest IH]; intros i builder a.
  - apply Clean_ok.
  - cbn [sliceLoop].
    destruct (foreachNodes _ _ _ _ _ _) as [[q a'] [e|]].
    + apply Clean_failed.
    + apply IH.
Qed.

Lemma mapLoop_clean (f : ForeachAttrs) (Nodes : list Node) (end_ : Z)
    (translator : Translator) (p : Param) (entries : list (value * value)) :
  forall i builder a,
    Clean (mapLoop (Accept rvs) f Nodes end_ translator p i entries builder a).
Proof.
  induction entries as [|[key item] rest IH]; intros i builder a.
  - apply Clean_ok.
  - cbn [mapLoop].
    destruct (foreachNodes _ _ _ _ _ _) as [[q a'] [e|]].
    + apply Clean_failed.
    + apply IH.
Qed.

Lemma replaceHolder_clean (params : list (list str)) :
  forall query a translator p,
    Clean (replaceHolder params query a translator p).
Proof.
  induction params as [|param rest IH]; intros query a translator p.
  - apply Clean_ok.
  - cbn [replaceHolder].
    destruct param as [|m [|name [|x l]]]; try apply Clean_failed.
    destruct (p name) as [v|]; [|apply Clean_failed].
    destruct (CanInterface v); [apply IH | apply Clean_failed].
Qed.

Lemma TextNode_clean (c : TextNode) (translator : Translator) (p : Param) :
  Clean (TextNode_Accept rvs c translator p).
Proof.
  unfold TextNode_Accept.
  destruct (_ && _); [apply Clean_ok|].
  destruct (replaceHolder _ _ _ _ _) as [[q a] [e|]]; [apply Clean_failed|].
  destruct (replaceTextSubstitution _ _ _ _) as [q' [e|]];
    [apply Clean_failed | apply Clean_ok].
Qed.

Lemma Accept_clean (n : Node) : CleanNode n.
Proof.
  induction n as [g _|s|c|expr Nodes _|Nodes _|t Nodes _|f Nodes _|Nodes _|id nodes _
                 |sqlNode lookup IHs IHl|whens otherwise _ IHo|Nodes _|v|s]
    using Node_nested_ind; intros translator p; cbn [Accept].
  - apply composeLoop_clean.
  - apply Clean_ok.
  - apply TextNode_clean.
  - unfold ConditionNode_Accept.
    destruct (Match expr p) as [[|] [e|]]; try apply Clean_failed; [|apply Clean_ok].
    apply composeLoop_clean.
  - unfold WhereNode_Accept.
    destruct (composeLoop _ _ _ _ _ _ _ _) as [[q a] [e|]]; [apply Clean_failed|].
    destruct (eqb_str q []); apply Clean_ok.
  - unfold TrimNode_Accept.
    destruct (trimLoop _ _ _ _ _ _ _ _) as [[q a] [e|]];
      [apply Clean_failed | apply Clean_ok].
  - unfold ForeachNode_Accept.
    destruct (p (Item f)); [apply Clean_failed|].
    destruct (p (Collection f)) as [v|]; [|apply Clean_failed].
    destruct (negb (CanInterface v)); [apply Clean_failed|].
    destruct (unwrapInterface (val v)); try apply Clean_failed.
    + unfold acceptSlice. destruct (_ =? _)%Z; [apply Clean_ok | apply sliceLoop_clean].
    + unfold acceptSlice. destruct (_ =? _)%Z; [apply Clean_ok | apply sliceLoop_clean].
    + unfold acceptMap. destruct (_ =? _); [apply Clean_ok | apply mapLoop_clean].
  - unfold SetNode_Accept.
    destruct (composeLoop _ _ _ _ _ _ _ _) as [[q a] [e|]];
      [apply Clean_failed | apply Clean_ok].
  - apply composeLoop_clean.
  - destruct sqlNode as [s|]; [apply IHs|].
    destruct lookup as [e|s]; [apply Clean_failed | apply IHl].
  - unfold ChooseNode_Accept.
    induction whens as [|w rest IHw].
    + destruct otherwise as [o|]; [apply IHo | apply Clean_ok].
    + destruct (Accept rvs w translator p) as [[q a] [e|]]; [apply Clean_failed|].
      destruct (0 <? length q); [apply Clean_ok | apply IHw].
  - apply composeLoop_clean.
  - unfold ValuesNode_Accept. destruct (_ =? _); [apply Clean_ok | apply TextNode_clean].
  - unfold SelectFieldAliasNode_Accept. destruct (_ =? _); apply Clean_ok.
Qed.

(** X1: whatever the node, an [Accept] that returns an error returns
    the empty text and no arguments with it: the text and the arguments
    the loops of a group, a trim, a foreach or a choose had gathered
    before the failing child are dropped, through includes and
    otherwise branches as well. *)
Theorem Accept_error_without_output (n : Node) (translator : Translator) (p : Param)
    (e : error) :
  err (Accept rvs n translator p) = Some e ->
  Accept rvs n translator p = failed e.
Proof. apply Accept_clean. Qed.

End NoPartialOutput.

Lemma Accept_error_without_output_witness :
  Accept Examples.showValue Inputs.brokenGroup Examples.questionMark Examples.noParams =
  failed (ErrParameterNotFound (lit "id")).
Proof.
  apply (Accept_error_without_output Examples.showValue Inputs.brokenGroup
           Examples.questionMark Examples.noParams (ErrParameterNotFound (lit "id"))).
  vm_compute. reflexivity.
Defined.

(** ** Rendering: text nodes                                             *)

Section TextProps.

Variable rvs : Value -> str.

Lemma scan_pairs (sg : ascii) (s : str) :
  forall skip, pairs (regexp.scan sg skip s).
Proof.
  unfold pairs.
  induction s as [|c s IH]; intros skip; [constructor|].
  cbn [regexp.scan]. destruct skip as [|k]; [|apply IH].
  destruct (regexp.matchAt sg (c :: s)) as [[m name]|]; [|apply IH].
  constructor; [eauto | apply IH].
Qed.

Lemma scan_without (sg : ascii) (s : str) :
  without sg s = true -> forall skip, regexp.scan sg skip s = [].
Proof.
  unfold without.
  induction s as [|c s IH]; intros Hno skip; [reflexivity|].
  cbn [forallb] in Hno. apply andb_true_iff in Hno. destruct Hno as [Hc Hs].
  cbn [regexp.scan]. destruct skip as [|k]; [|now apply IH].
  assert (E : regexp.matchAt sg (c :: s) = None).
  { unfold regexp.matchAt. destruct s as [|c2 r]; [reflexivity|].
    apply negb_true_iff in Hc. now rewrite Hc. }
  rewrite E. now apply IH.
Qed.

(** [replaceHolder] succeeds exactly when every name resolves to a
    value that can be taken out, and then appends those values in the
    order of the matches. *)
Lemma replaceHolder_ok (translator : Translator) (p : Param) (ms : list (list str)) :
  pairs ms ->
  forall (q : str) (a : list value),
    match replaceHolder ms q a translator p with
    | (q', a', None) =>
        exists vs,
          Forall2 (fun name v => p name = Some v /\ CanInterface v = true) (names ms) vs /\
          a' = a ++ map Interface vs
    | (_, _, Some e) =>
        (exists name, In name (names ms) /\ p name = None /\
                      e = ErrParameterNotFound name) \/
        (exists name v msg, In name (names ms) /\ p name = Some v /\
                            CanInterface v = false /\ e = Panic msg)
    end.
Proof.
  unfold pairs. induction 1 as [|m ms [matched [name ->]] _ IH]; intros q a.
  - cbn. exists []. split; [constructor | now rewrite app_nil_r].
  - cbn [replaceHolder names map nth].
    destruct (p name) as [v|] eqn:Ep.
    + destruct (CanInterface v) eqn:Ec.
      * specialize (IH (strings.Replace1 q matched (Translate translator name))
                       (a ++ [Interface v])).
        fold (names ms).
        destruct (replaceHolder ms _ _ translator p) as [[q' a'] [e|]].
        -- destruct IH as [[n [Hin [Hn He]]] | [n [v' [msg [Hin [Hn [Hc He]]]]]]].
           ++ left. exists n. split; [now right | tauto].
           ++ right. exists n, v', msg. split; [now right | tauto].
        -- destruct IH as [vs [Hvs ->]]. exists (v :: vs). split.
           ++ constructor; [tauto | assumption].
           ++ cbn [map]. now rewrite <- app_assoc.
      * cbn. right. eexists name, v, _. split; [now left|]. repeat split; assumption.
    + cbn. left. exists name. split; [now left|]. split; [assumption | reflexivity].
Qed.

Lemma replaceTextSubstitution_ok (p : Param) (ms : list (list str)) :
  pairs ms ->
  forall (q : str),
    match replaceTextSubstitution rvs ms q p with
    | (_, None) => Forall (fun name => p name <> None) (names ms)
    | (_, Some e) =>
        exists name, In name (names ms) /\ p name = None /\
                     e = ErrParameterNotFound name
    end.
Proof.
  unfold pairs. induction 1 as [|m ms [matched [name ->]] _ IH]; intros q.
  - cbn. constructor.
  - cbn [replaceTextSubstitution names map nth]. fold (names ms).
    destruct (p name) as [v|] eqn:Ep.
    + specialize (IH (strings.Replace1 q matched (rvs v))).
      destruct (replaceTextSubstitution rvs ms _ p) as [q' [e|]].
      * destruct IH as [n [Hin H]]. exists n. split; [now right | assumption].
      * constructor; [congruence | assumption].
    + exists name. split; [now left|]. split; [assumption | reflexivity].
Qed.

(** What [TextNode.Accept] returns on a node whose matches are pairs. *)
Lemma TextNode_Accept_ok (c : TextNode) (translator : Translator) (p : Param) :
  pairs (placeholder c) -> pairs (textSubstitution c) ->
  match TextNode_Accept rvs c translator p with
  | (_, a, None) =>
      (exists vs,
         Forall2 (fun name v => p name = Some v /\ CanInterface v = true)
           (names (placeholder c)) vs /\
         a = map Interface vs) /\
      Forall (fun name => p name <> None) (names (textSubstitution c))
  | (_, _, Some e) =>
      (exists name,
         In name (names (placeholder c) ++ names (textSubstitution c)) /\
         p name = None /\ e = ErrParameterNotFound name) \/
      (exists name v msg, In name (names (placeholder c)) /\ p name = Some v /\
                          CanInterface v = false /\ e = Panic msg)
  end.
Proof.
  intros Hp Hs. unfold TextNode_Accept.
  destruct (placeholder c) as [|m ms] eqn:Epl.
  - destruct (textSubstitution c) as [|m' ms'] eqn:Ets.
    + cbn. split; [exists []; split; [constructor | reflexivity] | constructor].
    + cbn [length Nat.eqb andb replaceHolder].
      pose proof (replaceTextSubstitution_ok p (m' :: ms') Hs (value_ c)) as H.
      destruct (replaceTextSubstitution rvs (m' :: ms') (value_ c) p) as [q [e|]].
      * left. destruct H as [n [Hin H]]. exists n. split; [exact Hin | exact H].
      * split; [exists []; split; [constructor | reflexivity] | exact H].
  - cbn [length Nat.eqb andb].
    pose proof (replaceHolder_ok translator p (m :: ms) Hp (value_ c) []) as H.
    destruct (replaceHolder (m :: ms) (value_ c) [] translator p) as [[q a] [e|]].
    + destruct H as [[n [Hin H]] | H].
      * left. exists n. split; [apply in_or_app; now left | exact H].
      * right. exact H.
    + pose proof (replaceTextSubstitution_ok p (textSubstitution c) Hs q) as H'.
      destruct (replaceTextSubstitution rvs (textSubstitution c) q p) as [q' [e|]].
      * left. destruct H' as [n [Hin H']]. exists n.
        split; [apply in_or_app; now right | exact H'].
      * split; [exact H | exact H'].
Qed.

(** X2: a text in which neither [#] nor [$] occurs has no placeholder
    and no substitution, and [TextNode.Accept] returns it byte for byte
    and without arguments, whatever the translator and the parameters. *)
Theorem Text_without_sigils_verbatim (s : str) (translator : Translator) (p : Param) :
  without "#"%char s = true ->
  without "$"%char s = true ->
  Accept rvs (Text (NewTextNode s)) translator p = (s, [], None).
Proof.
  intros Hh Hd. cbn [Accept]. unfold TextNode_Accept, NewTextNode.
  cbn [placeholder textSubstitution value_].
  unfold regexp.paramRegex_FindAllStringSubmatch, regexp.formatRegexp_FindAllStringSubmatch.
  rewrite (scan_without _ _ Hh), (scan_without _ _ Hd). reflexivity.
Qed.

(** X3: a text node built by [NewTextNode] renders without error
    exactly when every name in a [#{...}] of its text resolves to a value
    that can be taken out as an interface, and every name in a [${...}]
    resolves. *)
Theorem NewTextNode_succeeds_iff (s : str) (translator : Translator) (p : Param) :
  err (Accept rvs (Text (NewTextNode s)) translator p) = None <->
  Forall (fun name => exists v, p name = Some v /\ CanInterface v = true)
    (names (regexp.paramRegex_FindAllStringSubmatch s)) /\
  Forall (fun name => p name <> None)
    (names (regexp.formatRegexp_FindAllStringSubmatch s)).
Proof.
  cbn [Accept].
  pose proof (TextNode_Accept_ok (NewTextNode s) translator p
                (scan_pairs _ _ _) (scan_pairs _ _ _)) as G.
  cbn [NewTextNode placeholder textSubstitution] in G.
  destruct (TextNode_Accept rvs (NewTextNode s) translator p) as [[q a] [e|]]; cbn [err snd].
  - split; [discriminate|]. intros [Hp Hs]. exfalso.
    rewrite Forall_forall in Hp, Hs.
    destruct G as [[n [Hin [Hn _]]] | [n [v [msg [Hin [Hn [Hc _]]]]]]].
    + apply in_app_or in Hin. destruct Hin as [Hin | Hin].
      * destruct (Hp n Hin) as [v [Hv _]]. congruence.
      * now apply (Hs n Hin).
    + destruct (Hp n Hin) as [v' [Hv Hc']]. congruence.
  - split; [|reflexivity]. intros _.
    destruct G as [[vs [Hvs _]] Hs]. split; [|exact Hs].
    clear - Hvs. induction Hvs as [|name v l vs Hv _ IH]; constructor; eauto.
Qed.

(** X4: the only errors of a text node built by [NewTextNode] are the
    parameter that is not found, for a name that stands in the text and
    does not resolve, and the panic of [Interface] on a placeholder
    value that cannot be taken out; the errors for a match of the wrong
    length never arise. *)
Theorem NewTextNode_errors (s : str) (translator : Translator) (p : Param) (e : error) :
  err (Accept rvs (Text (NewTextNode s)) translator p) = Some e ->
  (exists name,
     In name (names (regexp.paramRegex_FindAllStringSubmatch s) ++
              names (regexp.formatRegexp_FindAllStringSubmatch s)) /\
     p name = None /\ e = ErrParameterNotFound name) \/
  (exists name v msg,
     In name (names (regexp.paramRegex_FindAllStringSubmatch s)) /\
     p name = Some v /\ CanInterface v = false /\ e = Panic msg).
Proof.
  intros H. cbn [Accept] in H.
  pose proof (TextNode_Accept_ok (NewTextNode s) translator p
                (scan_pairs _ _ _) (scan_pairs _ _ _)) as G.
  destruct (TextNode_Accept rvs (NewTextNode s) translator p) as [[q a] [e'|]];
    cbn in H; [|discriminate].
  injection H as <-. exact G.
Qed.

(** X5: when a text node built by [NewTextNode] renders, its arguments
    are the values of the names in the [#{...}] of its text, one for
    every match and in the order of the matches, a name that stands
    twice giving its value twice. *)
Theorem NewTextNode_arguments (s : str) (translator : Translator) (p : Param)
    (q : str) (a : list value) :
  Accept rvs (Text (NewTextNode s)) translator p = (q, a, None) ->
  exists vs,
    Forall2 (fun name v => p name = Some v /\ CanInterface v = true)
      (names (regexp.paramRegex_FindAllStringSubmatch s)) vs /\
    a = map Interface vs.
Proof.
  intros H. cbn [Accept] in H.
  pose proof (TextNode_Accept_ok (NewTextNode s) translator p
                (scan_pairs _ _ _) (scan_pairs _ _ _)) as G.
  rewrite H in G. exact (proj1 G).
Qed.

End TextProps.

Lemma Text_without_sigils_verbatim_witness :
  Accept Examples.showValue (Text (NewTextNode (lit "SELECT 1")))
    Examples.questionMark Examples.noParams = (lit "SELECT 1", [], None).
Proof.
  apply (Text_without_sigils_verbatim Examples.showValue (lit "SELECT 1")
           Examples.questionMark Examples.noParams); reflexivity.
Defined.

Lemma NewTextNode_errors_witness :
  (exists name,
     In name (names (regexp.paramRegex_FindAllStringSubmatch (lit "id = #{id}")) ++
              names (regexp.formatRegexp_FindAllStringSubmatch (lit "id = #{id}"))) /\
     Examples.noParams name = None /\
     ErrParameterNotFound (lit "id") = ErrParameterNotFound name) \/
  (exists name v msg,
     In name (names (regexp.paramRegex_FindAllStringSubmatch (lit "id = #{id}"))) /\
     Examples.noParams name = Some v /\ CanInterface v = false /\
     ErrParameterNotFound (lit "id") = Panic msg).
Proof.
  apply (NewTextNode_errors Examples.showValue (lit "id = #{id}")
           Examples.questionMark Examples.noParams (ErrParameterNotFound (lit "id"))).
  vm_compute. reflexivity.
Defined.

Lemma NewTextNode_arguments_witness :
  exists vs,
    Forall2 (fun name v => Examples.paramAB name = Some v /\ CanInterface v = true)
      (names (regexp.paramRegex_FindAllStringSubmatch Inputs.repeated)) vs /\
    [VInt KInt 1; VInt KInt 2; VInt KInt 1] = map Interface vs.
Proof.
  apply (NewTextNode_arguments Examples.showValue Inputs.repeated
           Examples.questionMark Examples.paramAB (lit "a = ? AND b = ? OR a = ?")).
  vm_compute. reflexivity.
Defined.

(** ** Rendering: trim, where, choose and foreach                         *)

Section RenderingProps.

Variable rvs : Value -> str.

(** The loop of [TrimNode.Accept], when every child renders. *)
Lemma trimLoop_trimJoin (translator : Translator) (p : Param) :
  forall (nodes : list Node) (n i : Z) (builder : str) (a : list value),
    Forall (succeeds rvs translator p) nodes ->
    n = (i + Z.of_nat (length nodes))%Z ->
    trimLoop (Accept rvs) n i nodes translator p builder a =
    (builder ++ trimJoin (fragments rvs nodes translator p),
     a ++ arguments rvs nodes translator p, None).
Proof.
  induction nodes as [|node rest IH]; intros n i builder a Hok Hn.
  - simpl. now rewrite !app_nil_r.
  - inversion Hok as [|? ? Hnode Hrest]; subst.
    cbn [trimLoop]. unfold succeeds, err in Hnode.
    unfold fragments, arguments in *. cbn [map concat].
    destruct (Accept rvs node translator p) as [[q a'] e] eqn:E.
    simpl in Hnode. subst e. unfold query, args. cbn [fst snd].
    rewrite !app_if_nonempty, nonempty_eqb.
    rewrite (IH (i + Z.of_nat (length (node :: rest)))%Z (i + 1)%Z);
      [|assumption|cbn [length]; lia].
    destruct rest as [|node' rest'].
    + replace (i <? i + Z.of_nat (length [node]) - 1)%Z with false
        by (symmetry; apply Z.ltb_ge; simpl; lia).
      rewrite !andb_false_r. simpl. now rewrite !app_nil_r.
    + replace (i <? i + Z.of_nat (length (node :: node' :: rest')) - 1)%Z with true
        by (symmetry; apply Z.ltb_lt; cbn [length]; lia).
      rewrite !andb_true_r. cbn [andb map trimJoin].
      destruct (negb (strings.HasSuffix q (lit " "))); destruct (negb (eqb_str q []));
        cbn [andb]; now rewrite <- ?app_assoc, ?app_nil_r.
Qed.

(** X6: when every child renders, a [TrimNode] writes its prefix, then
    the fragments of the children left to right, and after every
    fragment but the last one blank when the fragment does not end in a
    blank and a second one when it is not empty either (so two texts
    [a] and [b] give [a  b]); then the overrides and the suffix are
    applied to all of it; the arguments are those of the children in
    order. *)
Theorem TrimNode_rendering (t : TrimAttrs) (nodes : list Node)
    (translator : Translator) (p : Param) :
  Forall (succeeds rvs translator p) nodes ->
  Accept rvs (TrimNode t nodes) translator p =
  (trimFinish t (Prefix t ++ trimJoin (fragments rvs nodes translator p)),
   arguments rvs nodes translator p, None).
Proof.
  intros Hok. cbn [Accept]. unfold TrimNode_Accept.
  rewrite (trimLoop_trimJoin translator p nodes _ 0%Z _ [] Hok eq_refl).
  cbn [app]. unfold trimFinish.
  destruct (Prefix t); reflexivity.
Qed.

(** X7: [WhereNode.Accept] cuts a leading [and], [AND], [or] or [OR]
    off the body by its length alone, whether or not the word ends
    there: a body [order_id = 1] becomes [WHERE der_id = 1]. *)
Theorem WhereNode_cuts_word_start (nodes : list Node) (translator : Translator)
    (p : Param) (w rest : str) (a : list value) :
  In w [lit "and"; lit "AND"; lit "or"; lit "OR"] ->
  Accept rvs (NodeGroup nodes) translator p = (w ++ rest, a, None) ->
  Accept rvs (WhereNode nodes) translator p =
  ((if beginsWithWhere (strings.TrimSpace rest) then strings.TrimSpace rest
    else lit "WHERE " ++ strings.TrimSpace rest), a, None).
Proof.
  intros Hw H. rewrite (WhereNode_of_body _ _ _ _ _ _ H). unfold whereRule.
  assert (E : eqb_str (w ++ rest) [] = false /\ stripAndOr (w ++ rest) = rest).
  { cbn [In] in Hw.
    destruct Hw as [<-|[<-|[<-|[<-|[]]]]];
      (split; [reflexivity | destruct rest; reflexivity]). }
  destruct E as [-> ->]. reflexivity.
Qed.

Lemma ChooseNode_skips (pre post : list Node) (otherwise : option Node)
    (translator : Translator) (p : Param) :
  Forall (fun n => exists a, Accept rvs n translator p = ([], a, None)) pre ->
  Accept rvs (ChooseNode (pre ++ post) otherwise) translator p =
  Accept rvs (ChooseNode post otherwise) translator p.
Proof.
  intros Hpre. cbn [Accept]. unfold ChooseNode_Accept.
  induction Hpre as [|w pre [a Hw] _ IH]; [reflexivity|].
  cbn [app]. rewrite Hw. cbn. exact IH.
Qed.

(** X8: a [ChooseNode] returns the result of the first [when] whose
    text is not empty; a [when] before it that renders to the empty
    text is passed over, its test true or not, and its arguments are
    dropped. *)
Theorem ChooseNode_first_text (pre post : list Node) (w : Node)
    (otherwise : option Node) (translator : Translator) (p : Param)
    (q : str) (a : list value) :
  Forall (fun n => exists a, Accept rvs n translator p = ([], a, None)) pre ->
  Accept rvs w translator p = (q, a, None) ->
  q <> [] ->
  Accept rvs (ChooseNode (pre ++ w :: post) otherwise) translator p = (q, a, None).
Proof.
  intros Hpre Hw Hq. rewrite (ChooseNode_skips pre (w :: post) otherwise translator p Hpre).
  cbn [Accept]. unfold ChooseNode_Accept. rewrite Hw.
  destruct q; [congruence | reflexivity].
Qed.

(** X9: when every [when] renders to the empty text without error, a
    [ChooseNode] returns what its [otherwise] returns, and the empty
    text with no arguments and no error when it has none. *)
Theorem ChooseNode_falls_through (whens : list Node) (otherwise : option Node)
    (translator : Translator) (p : Param) :
  Forall (fun n => exists a, Accept rvs n translator p = ([], a, None)) whens ->
  Accept rvs (ChooseNode whens otherwise) translator p =
  match otherwise with
  | Some o => Accept rvs o translator p
  | None => ([], [], None)
  end.
Proof.
  intros Hw.
  pose proof (ChooseNode_skips whens [] otherwise translator p Hw) as H.
  rewrite app_nil_r in H. rewrite H. cbn [Accept]. unfold ChooseNode_Accept.
  destruct otherwise; reflexivity.
Qed.

(** The outer loops of [acceptSlice] and [acceptMap], when the children
    render for every element. *)
Lemma sliceLoop_join (f : ForeachAttrs) (Nodes : list Node)
    (translator : Translator) (p : Param) (items : list value) :
  forall (i end_ : Z) (builder : str) (a : list value),
    end_ = (i + Z.of_nat (length items) - 1)%Z ->
    Forall (fun e => Forall (succeeds rvs translator (elementGroup f p e)) Nodes)
      (indexed i items) ->
    sliceLoop (Accept rvs) f Nodes end_ translator p i items builder a =
    (builder ++
       strings.Join (map (elementText rvs f Nodes translator p) (indexed i items))
         (Separator f) ++ Close f,
     a ++ concat (map (elementArgs rvs f Nodes translator p) (indexed i items)),
     None).
Proof.
  induction items as [|item rest IH]; intros i end_ builder a Hend Hok.
  - cbn. now rewrite app_nil_r.
  - cbn [indexed] in Hok. apply Forall_cons_iff in Hok. destruct Hok as [Hitem Hrest].
    assert (Hend' : end_ = (i + 1 + Z.of_nat (length rest) - 1)%Z)
      by (cbn [length] in Hend; lia).
    cbn [sliceLoop indexed map concat].
    change (ParamGroup [AsParam (foreachScope (Item f) (Index f) item (VInt KInt i)); p])
      with (elementGroup f p (VInt KInt i, item)).
    rewrite (foreachNodes_concat rvs translator _ Nodes builder a Hitem).
    rewrite (IH (i + 1)%Z end_ _ _ Hend' Hrest).
    unfold elementText, elementArgs.
    apply (f_equal2 (fun (q : str) (x : list value) => (q, x, @None error))).
    + destruct rest as [|item' rest'].
      * cbn [length indexed map strings.Join].
        replace (i <? end_)%Z with false
          by (symmetry; apply Z.ltb_ge; cbn [length] in Hend; lia).
        now rewrite <- !app_assoc.
      * replace (i <? end_)%Z with true
          by (symmetry; apply Z.ltb_lt; cbn [length] in Hend; lia).
        cbn [indexed map strings.Join]. now rewrite <- !app_assoc.
    + now rewrite <- app_assoc.
Qed.

Lemma mapLoop_join (f : ForeachAttrs) (Nodes : list Node)
    (translator : Translator) (p : Param) (entries : list (value * value)) :
  forall (i end_ : Z) (builder : str) (a : list value),
    end_ = (i + Z.of_nat (length entries) - 1)%Z ->
    Forall (fun e => Forall (succeeds rvs translator (elementGroup f p e)) Nodes)
      entries ->
    mapLoop (Accept rvs) f Nodes end_ translator p i entries builder a =
    (builder ++
       strings.Join (map (elementText rvs f Nodes translator p) entries)
         (Separator f) ++ Close f,
     a ++ concat (map (elementArgs rvs f Nodes translator p) entries),
     None).
Proof.
  induction entries as [|[key item] rest IH]; intros i end_ builder a Hend Hok.
  - cbn. now rewrite app_nil_r.
  - apply Forall_cons_iff in Hok. destruct Hok as [Hitem Hrest].
    assert (Hend' : end_ = (i + 1 + Z.of_nat (length rest) - 1)%Z)
      by (cbn [length] in Hend; lia).
    cbn [mapLoop map concat].
    change (ParamGroup [AsParam (foreachScope (Item f) (Index f) item key); p])
      with (elementGroup f p (key, item)).
    rewrite (foreachNodes_concat rvs translator _ Nodes builder a Hitem).
    rewrite (IH (i + 1)%Z end_ _ _ Hend' Hrest).
    unfold elementText, elementArgs.
    apply (f_equal2 (fun (q : str) (x : list value) => (q, x, @None error))).
    + destruct rest as [|e' rest'].
      * cbn [length map strings.Join].
        replace (i <? end_)%Z with false
          by (symmetry; apply Z.ltb_ge; cbn [length] in Hend; lia).
        now rewrite <- !app_assoc.
      * replace (i <? end_)%Z with true
          by (symmetry; apply Z.ltb_lt; cbn [length] in Hend; lia).
        cbn [map strings.Join]. now rewrite <- !app_assoc.
    + now rewrite <- app_assoc.
Qed.

(** X10: over a slice or array that is not empty, when the children
    render for every element, a [ForeachNode] returns [open], the texts
    of the elements joined by [separator], and [close]; the text of an
    element is that of the children one after the other with nothing
    between them, rendered with the element under [item] and its
    position, from 0, under [index]; the arguments follow the
    elements. *)
Theorem ForeachNode_slice_joined (f : ForeachAttrs) (Nodes : list Node)
    (translator : Translator) (p : Param) (v : Value) (items : list value) :
  p (Item f) = None ->
  p (Collection f) = Some v ->
  CanInterface v = true ->
  unwrapInterface (val v) = VSlice items \/ unwrapInterface (val v) = VArray items ->
  items <> [] ->
  Forall (fun e => Forall (succeeds rvs translator (elementGroup f p e)) Nodes)
    (indexed 0 items) ->
  Accept rvs (ForeachNode f Nodes) translator p =
  (Open f ++
     strings.Join (map (elementText rvs f Nodes translator p) (indexed 0 items))
       (Separator f) ++ Close f,
   concat (map (elementArgs rvs f Nodes translator p) (indexed 0 items)),
   None).
Proof.
  intros Hitem Hcoll Hcan Hkind Hne Hok.
  cbn [Accept]. unfold ForeachNode_Accept. rewrite Hitem, Hcoll, Hcan. cbn [negb].
  assert (G : acceptSlice (Accept rvs) f Nodes items translator p =
              (Open f ++
                 strings.Join (map (elementText rvs f Nodes translator p) (indexed 0 items))
                   (Separator f) ++ Close f,
               concat (map (elementArgs rvs f Nodes translator p) (indexed 0 items)),
               None)).
  { unfold acceptSlice.
    replace (Z.of_nat (length items) =? 0)%Z with false
      by (symmetry; apply Z.eqb_neq; destruct items; [congruence | cbn [length]; lia]).
    rewrite (sliceLoop_join f Nodes translator p items 0%Z
               (Z.of_nat (length items) - 1)%Z (Open f) [] ltac:(lia) Hok).
    reflexivity. }
  destruct Hkind as [-> | ->]; exact G.
Qed.

(** X11: over a map that is not empty it is the same, entry by entry in
    the order [MapKeys] gave, with the key under [index] and the value
    under [item]. *)
Theorem ForeachNode_map_joined (f : ForeachAttrs) (Nodes : list Node)
    (translator : Translator) (p : Param) (v : Value) (entries : list (value * value)) :
  p (Item f) = None ->
  p (Collection f) = Some v ->
  CanInterface v = true ->
  unwrapInterface (val v) = VMap entries ->
  entries <> [] ->
  Forall (fun e => Forall (succeeds rvs translator (elementGroup f p e)) Nodes) entries ->
  Accept rvs (ForeachNode f Nodes) translator p =
  (Open f ++
     strings.Join (map (elementText rvs f Nodes translator p) entries)
       (Separator f) ++ Close f,
   concat (map (elementArgs rvs f Nodes translator p) entries),
   None).
Proof.
  intros Hitem Hcoll Hcan Hkind Hne Hok.
  cbn [Accept]. unfold ForeachNode_Accept. rewrite Hitem, Hcoll, Hcan, Hkind. cbn [negb].
  unfold acceptMap.
  replace (length entries =? 0) with false
    by (symmetry; apply Nat.eqb_neq; destruct entries; [congruence | cbn [length]; lia]).
  rewrite (mapLoop_join f Nodes translator p entries 0%Z
             (Z.of_nat (length entries) - 1)%Z (Open f) [] ltac:(lia) Hok).
  reflexivity.
Qed.

(** X12: a collection that, interfaces unwrapped, is neither an array,
    a slice nor a map (a string, a struct, a pointer to a slice, a nil
    interface) makes [ForeachNode.Accept] fail with "is not a slice or
    map". *)
Theorem ForeachNode_not_a_collection (f : ForeachAttrs) (Nodes : list Node)
    (translator : Translator) (p : Param) (v : Value) :
  p (Item f) = None ->
  p (Collection f) = Some v ->
  CanInterface v = true ->
  iterableKind (Kind (unwrapInterface (val v))) = false ->
  Accept rvs (ForeachNode f Nodes) translator p =
  failed (ErrCollectionNotSliceOrMap (Collection f)).
Proof.
  intros Hitem Hcoll Hcan Hkind.
  cbn [Accept]. unfold ForeachNode_Accept. rewrite Hitem, Hcoll, Hcan. cbn [negb].
  destruct (unwrapInterface (val v)); try reflexivity; discriminate.
Qed.

End RenderingProps.

Lemma TrimNode_rendering_witness :
  Accept Examples.showValue (TrimNode Examples.trimWhere Inputs.twoTexts)
    Examples.questionMark Examples.noParams = (lit "WHERE a  b", [], None).
Proof.
  apply (TrimNode_rendering Examples.showValue Examples.trimWhere Inputs.twoTexts
           Examples.questionMark Examples.noParams).
  repeat constructor.
Defined.

Lemma WhereNode_cuts_word_start_witness :
  Accept Examples.showValue (WhereNode Inputs.whereOrder)
    Examples.questionMark Examples.noParams = (lit "WHERE der_id = 1", [], None).
Proof.
  apply (WhereNode_cuts_word_start Examples.showValue Inputs.whereOrder
           Examples.questionMark Examples.noParams (lit "or") (lit "der_id = 1") []).
  - simpl. tauto.
  - reflexivity.
Defined.

Lemma ChooseNode_first_text_witness :
  Accept Examples.showValue
    (ChooseNode ([Inputs.emptyWhen] ++ Inputs.whenB :: []) (Some Inputs.otherwiseC))
    Examples.questionMark Examples.noParams = (lit "b", [], None).
Proof.
  apply (ChooseNode_first_text Examples.showValue [Inputs.emptyWhen] [] Inputs.whenB
           (Some Inputs.otherwiseC) Examples.questionMark Examples.noParams (lit "b") []).
  - constructor; [exists []; reflexivity | constructor].
  - reflexivity.
  - discriminate.
Defined.

Lemma ChooseNode_falls_through_witness :
  Accept Examples.showValue (ChooseNode [Inputs.emptyWhen] (Some Inputs.otherwiseC))
    Examples.questionMark Examples.noParams =
  Accept Examples.showValue Inputs.otherwiseC Examples.questionMark Examples.noParams.
Proof.
  apply (ChooseNode_falls_through Examples.showValue [Inputs.emptyWhen]
           (Some Inputs.otherwiseC) Examples.questionMark Examples.noParams).
  constructor; [exists []; reflexivity | constructor].
Defined.

Lemma ForeachNode_slice_joined_witness :
  Accept Examples.showValue (ForeachNode Examples.foreachIds Inputs.foreachItem)
    Examples.questionMark Inputs.paramIds =
  (lit "(?,?)", [VInt KInt 7; VInt KInt 8], None).
Proof.
  apply (ForeachNode_slice_joined Examples.showValue Examples.foreachIds
           Inputs.foreachItem Examples.questionMark Inputs.paramIds Inputs.idsSlice
           [VInt KInt 7; VInt KInt 8]).
  - reflexivity.
  - reflexivity.
  - reflexivity.
  - left. reflexivity.
  - discriminate.
  - repeat constructor.
Defined.

Lemma ForeachNode_map_joined_witness :
  Accept Examples.showValue (ForeachNode Examples.foreachIds Inputs.foreachEntry)
    Examples.questionMark Inputs.paramIdsMap =
  (lit "(?=?,?=?)",
   [VString (lit "a"); VInt KInt 1; VString (lit "b"); VInt KInt 2], None).
Proof.
  apply (ForeachNode_map_joined Examples.showValue Examples.foreachIds
           Inputs.foreachEntry Examples.questionMark Inputs.paramIdsMap Inputs.idsMap
           [(VString (lit "a"), VInt KInt 1); (VString (lit "b"), VInt KInt 2)]).
  - reflexivity.
  - reflexivity.
  - reflexivity.
  - reflexivity.
  - discriminate.
  - repeat constructor.
Defined.

Lemma ForeachNode_not_a_collection_witness :
  Accept Examples.showValue (ForeachNode Examples.foreachIds Inputs.foreachItem)
    Examples.questionMark Inputs.paramIdsString =
  failed (ErrCollectionNotSliceOrMap (lit "ids")).
Proof.
  apply (ForeachNode_not_a_collection Examples.showValue Examples.foreachIds
           Inputs.foreachItem Examples.questionMark Inputs.paramIdsString
           Inputs.idsString); reflexivity.
Defined.

(** ** Result maps: the column sets                                      *)

Section ColumnSets.

Import ResultMap.

Lemma has_In (k : str) (m : columnSet) : has k m = true <-> In k m.
Proof.
  unfold has. rewrite existsb_exists. split.
  - intros [x [Hin Heq]]. apply eqb_str_true in Heq. now subst.
  - intros Hin. exists k. split; [assumption | apply eqb_str_refl].
Qed.

Lemma has_false (k : str) (m : columnSet) : has k m = false <-> ~ In k m.
Proof.
  rewrite <- has_In. destruct (has k m); split; congruence.
Qed.

Lemma occurrences_app (k : str) (a b : list str) :
  occurrences k (a ++ b) = occurrences k a + occurrences k b.
Proof. apply count_occ_app. Qed.

Lemma occurrences_In (k : str) (l : list str) : In k l <-> 0 < occurrences k l.
Proof. apply count_occ_In. Qed.

Lemma occurrences_NoDup (l : list str) :
  NoDup l <-> forall k, occurrences k l <= 1.
Proof. apply NoDup_count_occ. Qed.

Lemma occurrences_head (k : str) (l : list str) :
  occurrences k (k :: l) = S (occurrences k l).
Proof. apply count_occ_cons_eq. reflexivity. Qed.

Lemma occurrences_middle (k x : str) (a b : list str) :
  occurrences k (a ++ x :: b) = occurrences k (x :: a ++ b).
Proof.
  change (x :: a ++ b) with ([x] ++ a ++ b).
  change (x :: b) with ([x] ++ b).
  rewrite !occurrences_app. lia.
Qed.

(** Merging succeeds exactly when the keys it adds are new and
    distinct, and then adds them all; the key of its error is there
    twice. *)
Lemma mergeColumns_spec (src dst : columnSet) :
  NoDup dst ->
  match mergeColumns src dst with
  | inr m => NoDup (src ++ dst) /\ m = rev src ++ dst
  | inl (ErrUnbiguous k) => In k src /\ 2 <= occurrences k (src ++ dst)
  end.
Proof.
  revert dst. induction src as [|k rest IH]; intros dst Hdst.
  - cbn. split; [assumption | reflexivity].
  - cbn [mergeColumns]. destruct (has k dst) eqn:Hk.
    + apply has_In in Hk. split; [now left|].
      cbn [app]. rewrite occurrences_head, occurrences_app.
      apply occurrences_In in Hk. lia.
    + apply has_false in Hk.
      specialize (IH (k :: dst) (NoDup_cons k Hk Hdst)).
      destruct (mergeColumns rest (k :: dst)) as [[k']|m].
      * destruct IH as [Hin Hocc]. split; [now right|].
        now rewrite occurrences_middle in Hocc.
      * destruct IH as [Hnd Heq]. split.
        -- apply NoDup_remove in Hnd. destruct Hnd as [Hnd Hnot].
           cbn. constructor; assumption.
        -- rewrite Heq. cbn [rev]. now rewrite <- app_assoc.
Qed.

(** Merging one collected set into another collects both. *)
Lemma mergeColumns_Collects (src dst : columnSet) (cs cd : list str) :
  Collects (inr src) cs -> Collects (inr dst) cd ->
  Collects (mergeColumns src dst) (cd ++ cs).
Proof.
  intros [Hcs [Hsrc Hks]] [Hcd [Hdst Hkd]].
  pose proof (mergeColumns_spec src dst Hdst) as H.
  destruct (mergeColumns src dst) as [[k]|m]; cbn [Collects].
  - destruct H as [Hin Hocc].
    rewrite occurrences_app in *.
    pose proof (proj1 (occurrences_NoDup src) Hsrc k) as Hone.
    assert (Hd : In k dst) by (apply occurrences_In; lia).
    apply Hks in Hin. apply Hkd in Hd.
    apply occurrences_In in Hin. apply occurrences_In in Hd. lia.
  - destruct H as [Hnd ->]. split; [|split].
    + apply occurrences_NoDup. intros k.
      pose proof (proj1 (occurrences_NoDup _) Hnd k) as Hone.
      pose proof (proj1 (occurrences_NoDup _) Hcs k) as Hone_s.
      pose proof (proj1 (occurrences_NoDup _) Hcd k) as Hone_d.
      rewrite occurrences_app in *.
      destruct (Nat.eq_dec (occurrences k cs) 0) as [Hz|Hz]; [lia|].
      destruct (Nat.eq_dec (occurrences k cd) 0) as [Hz'|Hz']; [lia|].
      assert (In k src) by (apply Hks, occurrences_In; lia).
      assert (In k dst) by (apply Hkd, occurrences_In; lia).
      assert (0 < occurrences k src) by now apply occurrences_In.
      assert (0 < occurrences k dst) by now apply occurrences_In.
      lia.
    + apply occurrences_NoDup. intros k.
      pose proof (proj1 (occurrences_NoDup _) Hnd k) as Hone.
      rewrite occurrences_app in *.
      unfold occurrences in *. rewrite count_occ_rev. exact Hone.
    + intros k. rewrite !in_app_iff, <- in_rev. rewrite (Hks k), (Hkd k). tauto.
Qed.

Lemma Collects_nil : Collects (inr []) [].
Proof.
  split; [constructor | split; [constructor | intros k; tauto]].
Qed.

Lemma resultGroup_loop_merge (r : resultGroup) (m : columnSet) :
  resultGroup_loop r m = mergeColumns (map column r) m.
Proof.
  revert m. induction r as [|v rest IH]; intros m; cbn; [reflexivity|].
  destruct (has (column v) m); [reflexivity | apply IH].
Qed.

Lemma resultGroup_Collects (r : resultGroup) :
  Collects (resultGroup_Columns r) (map column r).
Proof.
  unfold resultGroup_Columns. rewrite resultGroup_loop_merge.
  pose proof (mergeColumns_spec (map column r) [] (NoDup_nil _)) as H.
  destruct (mergeColumns (map column r) []) as [[k]|m]; cbn [Collects].
  - destruct H as [_ H]. now rewrite app_nil_r in H.
  - destruct H as [Hnd ->]. rewrite app_nil_r in *. split; [assumption|split].
    + now apply NoDup_rev.
    + intros k. symmetry. apply in_rev.
Qed.

Lemma Collects_widen (k : str) (cols pre post : list str) :
  2 <= occurrences k cols -> 2 <= occurrences k (pre ++ cols ++ post).
Proof. intros H. rewrite !occurrences_app. lia. Qed.

Lemma association_nested_ind (P : association -> Prop) :
  (forall property results associations,
     Forall P associations -> P (mkAssociation property results associations)) ->
  forall a, P a.
Proof.
  intros step. fix IH 1. intros [property results associations].
  apply step. induction associations as [|x rest IHrest]; constructor.
  - apply IH.
  - apply IHrest.
Qed.

Lemma allColumns_eq (property : str) (results : resultGroup)
    (associations : list association) :
  allColumns (mkAssociation property results associations) =
  map column results ++ groupColumns associations.
Proof.
  cbn [allColumns]. f_equal.
  induction associations as [|x rest IH]; [reflexivity|].
  unfold groupColumns. cbn [map concat]. now rewrite IH.
Qed.

Lemma associationGroup_loop_Collects (g : list association) :
  Forall (fun a => Collects (association_Columns a) (allColumns a)) g ->
  forall (m : columnSet) (cm : list str),
    Collects (inr m) cm ->
    Collects (associationGroup_loop association_Columns g m) (cm ++ groupColumns g).
Proof.
  induction 1 as [|a rest Ha _ IH]; intros m cm Hm.
  - cbn. unfold groupColumns. cbn. now rewrite app_nil_r.
  - cbn [associationGroup_loop]. unfold groupColumns. cbn [map concat].
    fold (groupColumns rest).
    destruct (association_Columns a) as [[k]|columns] eqn:Ea.
    + cbn [Collects] in *. now apply Collects_widen.
    + pose proof (mergeColumns_Collects columns m _ _ Ha Hm) as Hmerge.
      destruct (mergeColumns columns m) as [[k]|m'].
      * cbn [Collects] in *. rewrite app_assoc, occurrences_app. lia.
      * specialize (IH m' (cm ++ allColumns a) Hmerge).
        now rewrite <- app_assoc in IH.
Qed.

Lemma association_Collects (a : association) :
  Collects (association_Columns a) (allColumns a).
Proof.
  induction a as [property results associations IH] using association_nested_ind.
  rewrite allColumns_eq. cbn [association_Columns].
  pose proof (resultGroup_Collects results) as Hr.
  destruct (resultGroup_Columns results) as [[k]|rc].
  - cbn [Collects] in *. rewrite occurrences_app. lia.
  - pose proof (mergeColumns_Collects rc [] _ _ Hr Collects_nil) as Hm.
    cbn [app] in Hm.
    destruct (mergeColumns rc []) as [[k]|columns].
    + cbn [Collects] in *. rewrite occurrences_app. lia.
    + pose proof (associationGroup_loop_Collects associations IH [] [] Collects_nil) as Hg.
      cbn [app] in Hg.
      destruct (associationGroup_loop association_Columns associations []) as [[k]|gc].
      * cbn [Collects] in *. rewrite occurrences_app. lia.
      * apply mergeColumns_Collects; assumption.
Qed.

Lemma associationGroup_Collects (g : associationGroup) :
  Collects (associationGroup_Columns g) (groupColumns g).
Proof.
  unfold associationGroup_Columns.
  apply (associationGroup_loop_Collects g) with (m := []) (cm := []).
  - apply Forall_forall. intros a _. apply association_Collects.
  - apply Collects_nil.
Qed.

Lemma collection_Collects (c : collection) :
  Collects (collection_Columns c) (collectionColumns c).
Proof.
  unfold collection_Columns, collectionColumns.
  pose proof (resultGroup_Collects (collection_resultGroup c)) as Hr.
  destruct (resultGroup_Columns (collection_resultGroup c)) as [[k]|rc].
  - cbn [Collects] in *. rewrite occurrences_app. lia.
  - pose proof (mergeColumns_Collects rc [] _ _ Hr Collects_nil) as Hm.
    cbn [app] in Hm.
    destruct (mergeColumns rc []) as [[k]|m].
    + cbn [Collects] in *. rewrite occurrences_app. lia.
    + pose proof (associationGroup_Collects (collection_associationGroup c)) as Hg.
      destruct (associationGroup_Columns (collection_associationGroup c)) as [[k]|gc].
      * cbn [Collects] in *. rewrite occurrences_app. lia.
      * apply mergeColumns_Collects; assumption.
Qed.

Lemma collectionGroup_loop_Collects (g : list collection) (m : columnSet) (cm : list str) :
  Collects (inr m) cm ->
  Collects (collectionGroup_loop g m) (cm ++ concat (map collectionColumns g)).
Proof.
  revert m cm. induction g as [|c rest IH]; intros m cm Hm.
  - cbn. now rewrite app_nil_r.
  - cbn [collectionGroup_loop map concat].
    pose proof (collection_Collects c) as Hc.
    destruct (collection_Columns c) as [[k]|columns].
    + cbn [Collects] in *. now apply Collects_widen.
    + pose proof (mergeColumns_Collects columns m _ _ Hc Hm) as Hmerge.
      destruct (mergeColumns columns m) as [[k]|m'].
      * cbn [Collects] in *. rewrite app_assoc, occurrences_app. lia.
      * specialize (IH m' (cm ++ collectionColumns c) Hmerge).
        now rewrite <- app_assoc in IH.
Qed.

(** X13: [resultGroup.Columns] succeeds exactly when no two results map
    the same column; its set then holds the mapped columns and nothing
    else, and its error otherwise names a column that is mapped twice. *)
Theorem resultGroup_Columns_distinct (r : resultGroup) :
  match resultGroup_Columns r with
  | inr m => NoDup (map column r) /\ sameKeys m (map column r)
  | inl (ErrUnbiguous k) => 2 <= occurrences k (map column r)
  end.
Proof.
  pose proof (resultGroup_Collects r) as H.
  destruct (resultGroup_Columns r) as [[k]|m]; cbn [Collects] in H; tauto.
Qed.

(** X14: [association.Columns], with [associationGroup.Columns] for the
    nested associations, succeeds exactly when the columns of the whole
    tree, those of the results and of every association below, are
    pairwise distinct; its set then holds exactly these columns, and
    its error otherwise names a column that is mapped twice somewhere
    in the tree. *)
Theorem association_Columns_distinct (a : association) :
  match association_Columns a with
  | inr m => NoDup (allColumns a) /\ sameKeys m (allColumns a)
  | inl (ErrUnbiguous k) => 2 <= occurrences k (allColumns a)
  end.
Proof.
  pose proof (association_Collects a) as H.
  destruct (association_Columns a) as [[k]|m]; cbn [Collects] in H; tauto.
Qed.

(** X15: [collectionGroup.Columns], with [collection.Columns] for each
    member, succeeds exactly when the columns of all the collections,
    their results and the trees of their associations, are pairwise
    distinct, across collections as well as inside one. *)
Theorem collectionGroup_Columns_distinct (g : list collection) :
  match collectionGroup_Columns g with
  | inr m => NoDup (concat (map collectionColumns g)) /\
             sameKeys m (concat (map collectionColumns g))
  | inl (ErrUnbiguous k) => 2 <= occurrences k (concat (map collectionColumns g))
  end.
Proof.
  pose proof (collectionGroup_loop_Collects g [] [] Collects_nil) as H.
  cbn [app] in H. unfold collectionGroup_Columns.
  destruct (collectionGroup_loop g []) as [[k]|m]; cbn [Collects] in H; tauto.
Qed.

End ColumnSets.

(** ** The XML loader: environments                                      *)

Section EnvironmentsProps.

Import XMLParser Environments.

Variable Atoi : str -> option Z.

Lemma charDataLoop_closed (name : str) (final : tokenError)
    (pre rest : list Token) (charData : str) :
  noEndElement name pre = true ->
  charDataLoop name charData (pre ++ EndElement name :: rest) final =
  (lastCharData charData pre, None, mkDecoder rest final).
Proof.
  revert charData. induction pre as [|t pre IH]; intros charData Hno.
  - cbn. now rewrite eqb_str_refl.
  - destruct t as [n a|n|data| | |]; cbn in Hno |- *; try (apply IH; assumption).
    apply andb_true_iff in Hno. destruct Hno as [Hn Hno].
    apply negb_true_iff in Hn. rewrite Hn. now apply IH.
Qed.

Lemma charDataLoop_open (name : str) (final : tokenError)
    (tokens : list Token) (charData : str) :
  noEndElement name tokens = true ->
  charDataLoop name charData tokens final =
  if isEOF final then (lastCharData charData tokens, None, mkDecoder [] final)
  else ([], Some final, mkDecoder [] final).
Proof.
  revert charData. induction tokens as [|t tokens IH]; intros charData Hno.
  - reflexivity.
  - destruct t as [n a|n|data| | |]; cbn in Hno |- *; try (apply IH; assumption).
    apply andb_true_iff in Hno. destruct Hno as [Hn Hno].
    apply negb_true_iff in Hn. rewrite Hn. now apply IH.
Qed.

Lemma charDataLoop_shorter (name : str) (final : tokenError)
    (tokens : list Token) (charData : str) :
  length (pending (snd (charDataLoop name charData tokens final))) <= length tokens.
Proof.
  revert charData. induction tokens as [|t tokens IH]; intros charData.
  - cbn. destruct (isEOF final); cbn; lia.
  - destruct t as [n a|n|data| | |]; cbn [charDataLoop length];
      try (etransitivity; [apply IH | lia]).
    destruct (eqb_str n name); [cbn; lia|].
    etransitivity; [apply IH | lia].
Qed.

Lemma parseCharData_shorter (d : Decoder) (name : str) :
  length (pending (snd (parseCharData d name))) <= length (pending d).
Proof. apply charDataLoop_shorter. Qed.

Lemma parseIntCharData_shorter (d : Decoder) (name : str) :
  length (pending (snd (parseIntCharData Atoi d name))) <= length (pending d).
Proof.
  unfold parseIntCharData. pose proof (parseCharData_shorter d name) as H.
  destruct (parseCharData d name) as [[s [e|]] d']; cbn in *; [assumption|].
  destruct (Atoi s); assumption.
Qed.

(** With fuel beyond the tokens to come the loop of [parseEnvironment]
    returns, an environment or an error and never neither, and its
    environment keeps the id it started with. *)
Lemma environmentLoop_returns (fuel : nat) :
  forall (env : Environment) (d : Decoder),
    length (pending d) < fuel ->
    exists r e d',
      environmentLoop Atoi fuel env d = Some (r, e, d') /\
      length (pending d') <= length (pending d) /\
      (e = None -> exists env', r = Some env' /\ ID env' = ID env).
Proof.
  induction fuel as [|fuel IH]; intros env d Hlen; [lia|].
  cbn [environmentLoop].
  destruct (next d) as [[e|t] d1] eqn:En.
  - apply next_error in En. subst d1.
    destruct (isEOF e).
    + exists (Some env), None, d. split; [reflexivity | split; [lia | eauto]].
    + eexists None, (Some _), d. split; [reflexivity | split; [lia | discriminate]].
  - apply next_token in En.
    assert (Hgo : forall env1 d2, ID env1 = ID env ->
              length (pending d2) <= length (pending d1) ->
              exists r e d',
                environmentLoop Atoi fuel env1 d2 = Some (r, e, d') /\
                length (pending d') <= length (pending d) /\
                (e = None -> exists env', r = Some env' /\ ID env' = ID env)).
    { intros env1 d2 Hid Hd2.
      destruct (IH env1 d2) as [r [e [d' [Heq [Hle Hsome]]]]]; [lia|].
      exists r, e, d'. split; [assumption | split; [lia |]].
      intros He. destruct (Hsome He) as [env' [-> Hid']]. exists env'. split; congruence. }
    assert (Hstop : forall (e : loadError) d2,
              length (pending d2) <= length (pending d1) ->
              exists r e' d',
                Some (@None Environment, Some e, d2) = Some (r, e', d') /\
                length (pending d') <= length (pending d) /\
                (e' = None -> exists env', r = Some env' /\ ID env' = ID env)).
    { intros e d2 Hd2. exists None, (Some e), d2.
      split; [reflexivity | split; [lia | discriminate]]. }
    destruct t as [name attr|name|data| | |]; try (apply Hgo; [reflexivity | lia]).
    + repeat match goal with
        | |- context [if eqb_str name ?l then _ else _] =>
            destruct (eqb_str name l)
        end;
      try (apply Hgo; [reflexivity | lia]).
      * unfold parseDataSource.
        pose proof (parseCharData_shorter d1 (lit "dataSource")) as Hs.
        destruct (parseCharData d1 (lit "dataSource")) as [[s [e|]] d2]; cbn [snd] in Hs.
        -- now apply Hstop.
        -- now apply Hgo.
      * unfold parseDriver.
        pose proof (parseCharData_shorter d1 (lit "driver")) as Hs.
        destruct (parseCharData d1 (lit "driver")) as [[s [e|]] d2]; cbn [snd] in Hs.
        -- now apply Hstop.
        -- now apply Hgo.
      * unfold parseMaxIdleConnNum.
        pose proof (parseIntCharData_shorter d1 (lit "maxIdleConnNum")) as Hs.
        destruct (parseIntCharData Atoi d1 (lit "maxIdleConnNum")) as [[s [e|]] d2]; cbn [snd] in Hs.
        -- now apply Hstop.
        -- now apply Hgo.
      * unfold parseMaxOpenConnNum.
        pose proof (parseIntCharData_shorter d1 (lit "maxOpenConnNum")) as Hs.
        destruct (parseIntCharData Atoi d1 (lit "maxOpenConnNum")) as [[s [e|]] d2]; cbn [snd] in Hs.
        -- now apply Hstop.
        -- now apply Hgo.
      * unfold parseMaxConnLifetime.
        pose proof (parseIntCharData_shorter d1 (lit "maxConnLifetime")) as Hs.
        destruct (parseIntCharData Atoi d1 (lit "maxConnLifetime")) as [[s [e|]] d2]; cbn [snd] in Hs.
        -- now apply Hstop.
        -- now apply Hgo.
      * unfold parseMaxIdleConnLifetime.
        pose proof (parseIntCharData_shorter d1 (lit "maxIdleConnLifetime")) as Hs.
        destruct (parseIntCharData Atoi d1 (lit "maxIdleConnLifetime")) as [[s [e|]] d2]; cbn [snd] in Hs.
        -- now apply Hstop.
        -- now apply Hgo.
    + destruct (eqb_str name (lit "environment")).
      * exists (Some env), None, d1. split; [reflexivity | split; [lia | eauto]].
      * apply Hgo; [reflexivity | lia].
Qed.

Lemma parseEnvironment_returns (fuel : nat) (d : Decoder) (attr : list Attr) :
  length (pending d) < fuel ->
  exists r e d',
    parseEnvironment Atoi fuel d attr = Some (r, e, d') /\
    length (pending d') <= length (pending d) /\
    (e = None -> exists env', r = Some env' /\ ID env' <> []).
Proof.
  intros Hlen. unfold parseEnvironment.
  destruct (eqb_str (firstAttr (lit "id") attr) []) eqn:Eid.
  - eexists None, (Some _), d. split; [reflexivity | split; [lia | discriminate]].
  - destruct (environmentLoop_returns fuel
                (mkEnvironment (firstAttr (lit "id") attr) [] [] 0 0 0 0) d Hlen)
      as [r [e [d' [Heq [Hle Hsome]]]]].
    exists r, e, d'. split; [assumption | split; [assumption |]].
    intros He. destruct (Hsome He) as [env' [-> Hid]]. exists env'. split; [reflexivity|].
    rewrite Hid. cbn [ID]. intros Hnil. rewrite Hnil in Eid.
    now rewrite eqb_str_refl in Eid.
Qed.

Lemma hasKey_In (A : Type) (k : str) (m : list (str * A)) :
  hasKey k m = false -> ~ In k (map fst m).
Proof.
  induction m as [|[k' v] m IH]; cbn; [tauto|].
  intros H. apply orb_false_iff in H. destruct H as [Hk Hm].
  intros [Heq | Hin].
  - subst. now rewrite eqb_str_refl in Hk.
  - now apply IH.
Qed.

Lemma environmentsLoop_returns (fuel : nat) :
  forall (envs : Environments) (d : Decoder),
    length (pending d) < fuel ->
    Registered envs ->
    exists r e d',
      environmentsLoop Atoi fuel envs d = Some (r, e, d') /\
      (e = None -> exists envs', r = Some envs' /\ Default envs' = Default envs /\
                                 Registered envs').
Proof.
  induction fuel as [|fuel IH]; intros envs d Hlen Hreg; [lia|].
  cbn [environmentsLoop].
  destruct (next d) as [[e|t] d1] eqn:En.
  - destruct (isEOF e).
    + exists (Some envs), None, d1. split; [reflexivity|]. eauto.
    + eexists None, (Some _), d1. split; [reflexivity | discriminate].
  - apply next_token in En.
    destruct t as [name attr|name|data| | |]; try (apply IH; [lia | assumption]).
    + destruct (eqb_str name (lit "environment")); [|apply IH; [lia | assumption]].
      destruct (parseEnvironment_returns fuel d1 attr) as [r [e [d2 [Heq [Hle Hsome]]]]];
        [lia|].
      rewrite Heq. destruct e as [e|].
      * exists None, (Some e), d2. split; [now destruct r | discriminate].
      * destruct (Hsome eq_refl) as [env' [-> Hid]].
        destruct (hasKey (ID env') (Environments.envs envs)) eqn:Ek.
        -- eexists None, (Some _), d2. split; [reflexivity | discriminate].
        -- destruct (IH (mkEnvironments (Default envs)
                           ((ID env', env') :: Environments.envs envs)) d2)
             as [r [e [d3 [Heq3 Hsome3]]]].
           ++ lia.
           ++ destruct Hreg as [Hnd Hall]. split.
              ** cbn. constructor; [now apply hasKey_In | assumption].
              ** intros k env [Hhd | Htl].
                 --- inversion Hhd; subst. split; [reflexivity | assumption].
                 --- now apply Hall.
           ++ exists r, e, d3. split; [assumption|]. exact Hsome3.
    + destruct (eqb_str name (lit "environments")); [|apply IH; [lia | assumption]].
      exists (Some envs), None, d1. split; [reflexivity|]. eauto.
Qed.


(** X16: [parseCharData] returns the character data it saw last before
    the end element of the given name, not all of the text: what a
    comment or a nested element splits off in front is lost, and with
    no character data at all the result is the empty string. The
    decoder is left just behind that end element. *)
Theorem parseCharData_last_text (d : Decoder) (name : str) (pre rest : list Token) :
  pending d = pre ++ EndElement name :: rest ->
  noEndElement name pre = true ->
  parseCharData d name = (lastCharData [] pre, None, mkDecoder rest (final d)).
Proof.
  intros Hp Hno. unfold parseCharData. rewrite Hp.
  now apply charDataLoop_closed.
Qed.

(** X17: the element [maxLifetime] is read by [parseMaxConnLifetime],
    which waits for the end element [maxConnLifetime]. When none
    follows, the rest of the document is read to its end: the value is
    the number in the character data seen last, whatever element it
    stood in, and the environment is returned with nothing left to
    read, so the elements and environments that followed are lost. *)
Theorem maxLifetime_reads_to_the_end (fuel : nat) (env : Environment)
    (attr : list Attr) (body : list Token) (n : Z) :
  noEndElement (lit "maxConnLifetime") body = true ->
  Atoi (lastCharData [] body) = Some n ->
  environmentLoop Atoi (S (S fuel)) env
    (mkDecoder (StartElement (lit "maxLifetime") attr :: body) io_EOF) =
  Some (Some (mkEnvironment (ID env) (DataSource env) (Driver env)
                (MaxIdleConnNum env) (MaxOpenConnNum env) n
                (MaxIdleConnLifetime env)),
        None, mkDecoder [] io_EOF).
Proof.
  intros Hno Hn.
  cbn [environmentLoop next pending final].
  change (eqb_str (lit "maxLifetime") (lit "dataSource")) with false.
  change (eqb_str (lit "maxLifetime") (lit "driver")) with false.
  change (eqb_str (lit "maxLifetime") (lit "maxIdleConnNum")) with false.
  change (eqb_str (lit "maxLifetime") (lit "maxOpenConnNum")) with false.
  change (eqb_str (lit "maxLifetime") (lit "maxLifetime")) with true.
  cbv iota.
  unfold parseMaxConnLifetime, parseIntCharData, parseCharData.
  cbn [pending final].
  rewrite (charDataLoop_open _ io_EOF body [] Hno).
  cbn [isEOF]. rewrite Hn. reflexivity.
Qed.

(** X18: with fuel beyond the tokens to come, [parseEnvironments]
    returns, and when it returns no error it returns the environments,
    never nil: their default is the attribute [default], which is not
    empty, no id is registered twice, and every environment stands
    under its own id, which is not empty. *)
Theorem parseEnvironments_registers (fuel : nat) (d : Decoder) (attr : list Attr) :
  length (pending d) < fuel ->
  exists r e d',
    parseEnvironments Atoi fuel d attr = Some (r, e, d') /\
    (e = None ->
     exists envs, r = Some envs /\
       Default envs = firstAttr (lit "default") attr /\
       Default envs <> [] /\ Registered envs).
Proof.
  intros Hlen. unfold parseEnvironments.
  destruct (eqb_str (firstAttr (lit "default") attr) []) eqn:Ed.
  - eexists None, (Some _), d. split; [reflexivity | discriminate].
  - destruct (environmentsLoop_returns fuel
                (mkEnvironments (firstAttr (lit "default") attr) []) d Hlen)
      as [r [e [d' [Heq Hsome]]]].
    + split; [constructor | intros k env []].
    + exists r, e, d'. split; [assumption|].
      intros He. destruct (Hsome He) as [envs [-> [Hdef Hreg]]].
      exists envs. cbn [Default] in Hdef.
      split; [reflexivity|]. split; [exact Hdef|]. split; [|exact Hreg].
      rewrite Hdef. intros Hnil. rewrite Hnil in Ed. now rewrite eqb_str_refl in Ed.
Qed.

End EnvironmentsProps.


Lemma parseCharData_last_text_witness :
  XMLParser.pending (XMLParser.mkDecoder (Samples.driverText ++ XMLParser.EndElement (lit "driver") :: Samples.afterDriver) XMLParser.io_EOF)
    = Samples.driverText ++ XMLParser.EndElement (lit "driver") :: Samples.afterDriver /\
  Environments.noEndElement (lit "driver") Samples.driverText = true /\
  Environments.parseCharData
    (XMLParser.mkDecoder (Samples.driverText ++ XMLParser.EndElement (lit "driver") :: Samples.afterDriver) XMLParser.io_EOF)
    (lit "driver") =
  (lit "sql", None, XMLParser.mkDecoder Samples.afterDriver XMLParser.io_EOF).
Proof.
  split; [reflexivity | split; [reflexivity|]].
  apply (parseCharData_last_text
           (XMLParser.mkDecoder (Samples.driverText ++ XMLParser.EndElement (lit "driver") :: Samples.afterDriver) XMLParser.io_EOF)
           (lit "driver") Samples.driverText Samples.afterDriver); reflexivity.
Defined.

Lemma maxLifetime_reads_to_the_end_witness :
  Environments.noEndElement (lit "maxConnLifetime") Samples.afterMaxLifetime = true /\
  Samples.atoiDigits (Environments.lastCharData [] Samples.afterMaxLifetime) = Some 7%Z /\
  Environments.environmentLoop Samples.atoiDigits 2 Samples.bareEnvironment
    (XMLParser.mkDecoder
       (XMLParser.StartElement (lit "maxLifetime") [] :: Samples.afterMaxLifetime)
       XMLParser.io_EOF) =
  Some (Some (Environments.mkEnvironment (lit "prod") [] [] 0 0 7 0),
        None, XMLParser.mkDecoder [] XMLParser.io_EOF).
Proof.
  split; [reflexivity | split; [reflexivity|]].
  apply (maxLifetime_reads_to_the_end Samples.atoiDigits 0 Samples.bareEnvironment
           [] Samples.afterMaxLifetime 7%Z); reflexivity.
Defined.

Lemma parseEnvironments_registers_witness :
  length (XMLParser.pending Samples.twoEnvironments) < 9 /\
  exists r e d',
    Environments.parseEnvironments Samples.atoiDigits 9 Samples.twoEnvironments
      [(lit "default", lit "prod")] = Some (r, e, d') /\
    (e = None ->
     exists envs, r = Some envs /\
       Environments.Default envs = XMLParser.firstAttr (lit "default") [(lit "default", lit "prod")] /\
       Environments.Default envs <> [] /\ Environments.Registered envs).
Proof.
  split; [cbn; lia|].
  apply (parseEnvironments_registers Samples.atoiDigits 9 Samples.twoEnvironments
           [(lit "default", lit "prod")]).
  cbn; lia.
Defined.

(** ** The XML loader: the text of a body, and URLs                      *)

Section LoaderProps.

Import XMLParser Bodies.

Variable IfNode_init : str -> option str.
Variable defaultParamKey : str.

(** The loop of a body that holds no element: it ends on the end
    element, with the text nodes of the body when text is kept. *)
Lemma bodyLoop_leaves
    (rec : str -> Decoder -> str -> list Attr -> option (Parsed Node))
    (mapper endName : str) (keepText strict : bool) (fin : tokenError)
    (rest : list Token) :
  forall (body : list Token) (fuel : nat) (nodes : list Node),
    forallb leaf body = true ->
    length body < fuel ->
    bodyLoop rec fuel mapper endName keepText strict
      (mkDecoder (body ++ EndElement endName :: rest) fin) nodes =
    Some (nodes ++ (if keepText then textNodes body else []), inr Closed,
          mkDecoder rest fin).
Proof.
  induction body as [|t body IH]; intros fuel nodes Hleaf Hlen.
  - destruct fuel as [|fuel]; [cbn in Hlen; lia|].
    cbn [bodyLoop app next pending final]. rewrite eqb_str_refl.
    cbn [textNodes]. destruct keepText; now rewrite app_nil_r.
  - destruct fuel as [|fuel]; [cbn in Hlen; lia|].
    cbn [forallb] in Hleaf. apply andb_true_iff in Hleaf. destruct Hleaf as [Ht Hleaf].
    cbn [length] in Hlen. apply Nat.succ_lt_mono in Hlen.
    cbn [bodyLoop app next pending final].
    destruct t as [n a|n|text| | |]; try discriminate;
      cbn [textNodes]; try (now apply IH).
    destruct keepText; cbn [andb].
    + destruct (negb (eqb_str (strings.TrimSpace text) [])).
      * rewrite (IH fuel _ Hleaf Hlen). now rewrite <- app_assoc.
      * now apply IH.
    + now apply IH.
Qed.

(** X19: [parseTrim] has no case for character data: the text that
    stands directly in a [trim] element is dropped, and a [trim] whose
    body holds no element gets no child at all. *)
Theorem parseTrim_discards_text (mapper : str) (attr : list Attr)
    (body rest : list Token) (fin : tokenError) (fuel : nat) :
  forallb leaf body = true ->
  length body < fuel ->
  parseTags IfNode_init defaultParamKey (S fuel) mapper
    (mkDecoder (body ++ EndElement (lit "trim") :: rest) fin) (lit "trim") attr =
  Some (TrimNode (lastAttr (lit "prefix") attr) (lastAttr (lit "prefixOverrides") attr)
          (lastAttr (lit "suffix") attr) (lastAttr (lit "suffixOverrides") attr) [],
        None, mkDecoder rest fin).
Proof.
  intros Hleaf Hlen. cbn [parseTags].
  change (eqb_str (lit "trim") (lit "if")) with false.
  change (eqb_str (lit "trim") (lit "where")) with false.
  change (eqb_str (lit "trim") (lit "trim")) with true.
  cbv iota. unfold parseTrim.
  now rewrite (bodyLoop_leaves _ mapper (lit "trim") false false fin rest body fuel []
                 Hleaf Hlen).
Qed.

(** X20: [parseWhere] and [parseSet] turn every piece of character data
    into a text node of its own, trimmed of white space on both sides,
    and leave out the pieces that are blank; comments, processing
    instructions and directives give nothing. *)
Theorem parseWhere_keeps_trimmed_text (mapper : str) (attr : list Attr)
    (body rest : list Token) (fin : tokenError) (fuel : nat) :
  forallb leaf body = true ->
  length body < fuel ->
  parseTags IfNode_init defaultParamKey (S fuel) mapper
    (mkDecoder (body ++ EndElement (lit "where") :: rest) fin) (lit "where") attr =
  Some (WhereNode (textNodes body), None, mkDecoder rest fin) /\
  parseTags IfNode_init defaultParamKey (S fuel) mapper
    (mkDecoder (body ++ EndElement (lit "set") :: rest) fin) (lit "set") attr =
  Some (SetNode (textNodes body), None, mkDecoder rest fin).
Proof.
  intros Hleaf Hlen. split; cbn [parseTags].
  - change (eqb_str (lit "where") (lit "if")) with false.
    change (eqb_str (lit "where") (lit "where")) with true.
    cbv iota. unfold parseWhere.
    now rewrite (bodyLoop_leaves _ mapper (lit "where") true false fin rest body fuel []
                   Hleaf Hlen).
  - change (eqb_str (lit "set") (lit "if")) with false.
    change (eqb_str (lit "set") (lit "where")) with false.
    change (eqb_str (lit "set") (lit "trim")) with false.
    change (eqb_str (lit "set") (lit "foreach")) with false.
    change (eqb_str (lit "set") (lit "set")) with true.
    cbv iota. unfold parseSet.
    now rewrite (bodyLoop_leaves _ mapper (lit "set") true false fin rest body fuel []
                   Hleaf Hlen).
Qed.

Variable FS_Open : str -> error + Decoder.
Variable http_Get : str -> error + Decoder.
Variable parseMapperRec : Decoder -> list Attr -> option (Parsed (option Mapper)).

Lemma splitFrom_without (sep : str) (c0 : ascii) (sep' : str) (s : str) :
  sep = c0 :: sep' ->
  without c0 s = true ->
  forall cur, strings.splitFrom sep 0 cur s = [rev cur ++ s].
Proof.
  intros -> Hno. unfold without in Hno.
  induction s as [|c s IH]; intros cur.
  - cbn. now rewrite app_nil_r.
  - cbn [forallb] in Hno. apply andb_true_iff in Hno. destruct Hno as [Hc Hs].
    cbn [strings.splitFrom strings.HasPrefix].
    apply negb_true_iff in Hc. rewrite Ascii.eqb_sym in Hc. rewrite Hc. cbn [andb].
    rewrite (IH Hs). cbn [rev]. now rewrite <- app_assoc.
Qed.

Lemma splitFrom_nonempty (sep : str) (s : str) :
  forall skip cur, strings.splitFrom sep skip cur s <> [].
Proof.
  induction s as [|c s IH]; intros skip cur; cbn [strings.splitFrom].
  - discriminate.
  - destruct skip; [|apply IH].
    destruct (strings.HasPrefix (c :: s) sep); [discriminate | apply IH].
Qed.

Lemma HasPrefix_self (s b : str) : strings.HasPrefix (s ++ b) s = true.
Proof.
  induction s as [|c s IH]; [destruct b; reflexivity|].
  cbn. now rewrite Ascii.eqb_refl.
Qed.

Lemma splitFrom_skip (sep a s cur : str) :
  strings.splitFrom sep (length a) cur (a ++ s) = strings.splitFrom sep 0 cur s.
Proof. induction a as [|c a IH]; [reflexivity | exact IH]. Qed.

Lemma splitFrom_at_sep (c0 : ascii) (sep' a b : str) :
  without c0 a = true ->
  forall cur,
    strings.splitFrom (c0 :: sep') 0 cur (a ++ (c0 :: sep') ++ b) =
    (rev cur ++ a) :: strings.splitFrom (c0 :: sep') 0 [] b.
Proof.
  unfold without. induction a as [|c a IH]; intros Hno cur.
  - cbn [app strings.splitFrom].
    change (c0 :: sep' ++ b) with ((c0 :: sep') ++ b).
    rewrite HasPrefix_self. cbn [length Nat.sub]. rewrite Nat.sub_0_r.
    rewrite splitFrom_skip. now rewrite app_nil_r.
  - cbn [forallb] in Hno. apply andb_true_iff in Hno. destruct Hno as [Hc Hs].
    cbn [app strings.splitFrom strings.HasPrefix].
    apply negb_true_iff in Hc. rewrite Ascii.eqb_sym in Hc. rewrite Hc. cbn [andb].
    rewrite (IH Hs). cbn [rev]. now rewrite <- app_assoc.
Qed.

Lemma splitFrom_at_scheme (a b : str) :
  without ":"%char a = true ->
  forall cur,
    strings.splitFrom (lit "://") 0 cur (a ++ lit "://" ++ b) =
    (rev cur ++ a) :: strings.splitFrom (lit "://") 0 [] b.
Proof. apply (splitFrom_at_sep ":"%char (lit "//")). Qed.

(** X21: a URL [schema://path] with no colon in either part is split
    in these two: [file] reads the resource [path], [http] and [https]
    fetch the whole URL, and any other schema, [HTTP] or [FILE] among
    them, is the error "invalid url schema". *)
Theorem parseMapperByURL_scheme (fuel : nat) (schema path : str) :
  without ":"%char schema = true ->
  without ":"%char path = true ->
  parseMapperByURL FS_Open http_Get parseMapperRec fuel (schema ++ lit "://" ++ path) =
  if eqb_str schema (lit "file")
  then parseMapperByResource FS_Open parseMapperRec fuel path
  else if eqb_str schema (lit "http") || eqb_str schema (lit "https")
       then parseMapperByHttpResponse http_Get parseMapperRec fuel
              (schema ++ lit "://" ++ path)
       else Some (None, Some ErrInvalidURLSchema).
Proof.
  intros Hs Hp. unfold parseMapperByURL, strings.Split.
  rewrite (splitFrom_at_scheme schema path Hs []).
  rewrite (splitFrom_without (lit "://") ":"%char (lit "//") path eq_refl Hp []).
  reflexivity.
Qed.

(** X22: a URL without a colon, and one in which [://] stands twice (an
    [http] URL with another URL in its query), is the error
    "invalid url" with the URL in it: [strings.Split] gives one piece,
    or more than two. *)
Theorem parseMapperByURL_invalid (fuel : nat) (url : str) :
  without ":"%char url = true \/
  (exists a b c, url = a ++ lit "://" ++ b ++ lit "://" ++ c /\
                 without ":"%char a = true /\ without ":"%char b = true) ->
  parseMapperByURL FS_Open http_Get parseMapperRec fuel url =
  Some (None, Some (ErrInvalidURL url)).
Proof.
  intros [Hno | [a [b [c [Hurl [Ha Hb]]]]]]; unfold parseMapperByURL, strings.Split.
  - rewrite (splitFrom_without (lit "://") ":"%char (lit "//") url eq_refl Hno []).
    reflexivity.
  - rewrite Hurl at 1.
    rewrite (splitFrom_at_scheme a _ Ha []).
    rewrite (splitFrom_at_scheme b c Hb []).
    pose proof (splitFrom_nonempty (lit "://") c 0 []) as Hc.
    destruct (strings.splitFrom (lit "://") 0 [] c); [congruence | reflexivity].
Qed.

End LoaderProps.

Lemma parseTrim_discards_text_witness :
  XMLParser.parseTags Examples.initOk (lit "_") 5 (lit "m")
    (XMLParser.mkDecoder (Samples.paddedText ++ XMLParser.EndElement (lit "trim") :: [])
       XMLParser.io_EOF)
    (lit "trim") [(lit "prefix", lit "WHERE ")] =
  Some (XMLParser.TrimNode (lit "WHERE ") [] [] [] [], None,
        XMLParser.mkDecoder [] XMLParser.io_EOF).
Proof.
  apply (parseTrim_discards_text Examples.initOk (lit "_") (lit "m")
           [(lit "prefix", lit "WHERE ")] Samples.paddedText [] XMLParser.io_EOF 4).
  - reflexivity.
  - simpl. lia.
Defined.

Lemma parseWhere_keeps_trimmed_text_witness :
  XMLParser.parseTags Examples.initOk (lit "_") 5 (lit "m")
    (XMLParser.mkDecoder (Samples.paddedText ++ XMLParser.EndElement (lit "where") :: [])
       XMLParser.io_EOF)
    (lit "where") [] =
  Some (XMLParser.WhereNode [XMLParser.TextNode (lit "a = 1")], None,
        XMLParser.mkDecoder [] XMLParser.io_EOF) /\
  XMLParser.parseTags Examples.initOk (lit "_") 5 (lit "m")
    (XMLParser.mkDecoder (Samples.paddedText ++ XMLParser.EndElement (lit "set") :: [])
       XMLParser.io_EOF)
    (lit "set") [] =
  Some (XMLParser.SetNode [XMLParser.TextNode (lit "a = 1")], None,
        XMLParser.mkDecoder [] XMLParser.io_EOF).
Proof.
  apply (parseWhere_keeps_trimmed_text Examples.initOk (lit "_") (lit "m")
           [] Samples.paddedText [] XMLParser.io_EOF 4).
  - reflexivity.
  - simpl. lia.
Defined.

Lemma parseMapperByURL_scheme_witness :
  XMLParser.parseMapperByURL Examples.oneFile Examples.noNetwork
    (XMLParser.parseMapper Examples.initOk (lit "_") Examples.oneFile Examples.noNetwork 5)
    5 (lit "FILE" ++ lit "://" ++ lit "m.xml") =
  Some (None, Some ErrInvalidURLSchema).
Proof.
  apply (parseMapperByURL_scheme Examples.oneFile Examples.noNetwork
           (XMLParser.parseMapper Examples.initOk (lit "_") Examples.oneFile
              Examples.noNetwork 5)
           5 (lit "FILE") (lit "m.xml")); reflexivity.
Defined.

Lemma parseMapperByURL_invalid_witness :
  XMLParser.parseMapperByURL Examples.oneFile Examples.noNetwork
    (XMLParser.parseMapper Examples.initOk (lit "_") Examples.oneFile Examples.noNetwork 5)
    5 (lit "m.xml") =
  Some (None, Some (ErrInvalidURL (lit "m.xml"))).
Proof.
  apply (parseMapperByURL_invalid Examples.oneFile Examples.noNetwork
           (XMLParser.parseMapper Examples.initOk (lit "_") Examples.oneFile
              Examples.noNetwork 5)
           5 (lit "m.xml")).
  left. reflexivity.
Defined.

(** ** The XML loader: the tree of a statement                           *)

Section WellParsed.

Import XMLParser Bodies.

Variable IfNode_init : str -> option str.
Variable defaultParamKey : str.

Lemma wellParsed_all (mapper : str) (l : list Node) :
  (fix all (l : list Node) : Prop :=
     match l with
     | [] => True
     | x :: rest => wellParsed defaultParamKey mapper x /\ all rest
     end) l <-> Forall (wellParsed defaultParamKey mapper) l.
Proof.
  induction l as [|x l IH]; [split; [constructor | trivial]|].
  split.
  - intros [Hx Hl]. constructor; [assumption | now apply IH].
  - intros H. inversion H; subst. split; [assumption | now apply IH].
Qed.

(** What [rec] returns without an error is well parsed. *)
Local Abbreviation Sound :=
  (fun rec : str -> Decoder -> str -> list Attr -> option (Parsed Node) =>
     forall mapper d name attr n d',
       rec mapper d name attr = Some (n, None, d') ->
       wellParsed defaultParamKey mapper n).

Lemma bodyLoop_sound
    (rec : str -> Decoder -> str -> list Attr -> option (Parsed Node)) :
  Sound rec ->
  forall fuel mapper endName keepText strict d nodes nodes' r d',
    bodyLoop rec fuel mapper endName keepText strict d nodes = Some (nodes', r, d') ->
    Forall (wellParsed defaultParamKey mapper) nodes ->
    Forall (wellParsed defaultParamKey mapper) nodes'.
Proof.
  intros Hrec.
  induction fuel as [|fuel IH]; intros mapper endName keepText strict d nodes nodes' r d' H Hn;
    [discriminate|].
  cbn [bodyLoop] in H.
  destruct (next d) as [[e|t] d1].
  - destruct (isEOF e); injection H as <- _ _; assumption.
  - destruct t as [name attr|name|text| | |]; try (eapply IH; eassumption).
    + destruct (rec mapper d1 name attr) as [[[n [e|]] d2]|] eqn:E; [| |discriminate].
      * injection H as <- _ _. assumption.
      * eapply IH; [eassumption|].
        apply Forall_app. split; [assumption|].
        constructor; [|constructor]. eapply Hrec. eassumption.
    + destruct (eqb_str name endName); [injection H as <- _ _; assumption|].
      destruct strict; [injection H as <- _ _; assumption|].
      eapply IH; eassumption.
    + destruct (keepText && negb (eqb_str (strings.TrimSpace text) [])) eqn:E.
      * eapply IH; [eassumption|].
        apply Forall_app. split; [assumption|].
        constructor; [|constructor]. cbn [wellParsed].
        apply andb_true_iff in E. destruct E as [_ E]. apply negb_true_iff in E.
        apply eqb_str_false in E. exact E.
      * eapply IH; eassumption.
Qed.

Lemma parseTags_sound (fuel : nat) : Sound (parseTags IfNode_init defaultParamKey fuel).
Proof.
  induction fuel as [|fuel IH]; intros mapper d name attr n d' H; [discriminate|].
  cbn [parseTags] in H.
  assert (Hbody : forall endName keepText strict nodes' r d2,
            bodyLoop (parseTags IfNode_init defaultParamKey fuel) fuel mapper endName
              keepText strict d [] = Some (nodes', r, d2) ->
            Forall (wellParsed defaultParamKey mapper) nodes').
  { intros. eapply (bodyLoop_sound _ IH); [eassumption | constructor]. }
  destruct (eqb_str name (lit "if")).
  { unfold parseIf in H.
    destruct (eqb_str (firstAttr (lit "test") attr) []) eqn:Et; [discriminate|].
    destruct (IfNode_init _); [discriminate|].
    destruct (bodyLoop _ _ _ _ _ _ _ _) as [[[nodes' [e|le]] d2]|] eqn:E;
      [discriminate| |discriminate].
    injection H as <- _. cbn [wellParsed]. split.
    - apply eqb_str_false in Et. exact Et.
    - apply wellParsed_all. eapply Hbody. eassumption. }
  destruct (eqb_str name (lit "where")).
  { unfold parseWhere in H.
    destruct (bodyLoop _ _ _ _ _ _ _ _) as [[[nodes' [e|le]] d2]|] eqn:E;
      [discriminate| |discriminate].
    injection H as <- _. cbn [wellParsed].
    apply wellParsed_all. eapply Hbody. eassumption. }
  destruct (eqb_str name (lit "trim")).
  { unfold parseTrim in H.
    destruct (bodyLoop _ _ _ _ _ _ _ _) as [[[nodes' [e|le]] d2]|] eqn:E;
      [discriminate| |discriminate].
    injection H as <- _. cbn [wellParsed].
    apply wellParsed_all. eapply Hbody. eassumption. }
  destruct (eqb_str name (lit "foreach")).
  { unfold parseForeach in H.
    destruct (eqb_str (lastAttr (lit "item") attr) []) eqn:Ei; [discriminate|].
    destruct (bodyLoop _ _ _ _ _ _ _ _) as [[[nodes' [e|le]] d2]|] eqn:E;
      [discriminate| |discriminate].
    injection H as <- _. cbn [wellParsed]. split; [|split].
    - apply eqb_str_false in Ei. exact Ei.
    - assert (Hc : forall c : str,
                (if eqb_str c [] then defaultParamKey else c) <> [] \/
                (if eqb_str c [] then defaultParamKey else c) = defaultParamKey).
      { intros c. destruct (eqb_str c []) eqn:Ec; [now right|].
        left. now apply eqb_str_false in Ec. }
      exact (Hc (lastAttr (lit "collection") attr)).
    - apply wellParsed_all. eapply Hbody. eassumption. }
  destruct (eqb_str name (lit "set")).
  { unfold parseSet in H.
    destruct (bodyLoop _ _ _ _ _ _ _ _) as [[[nodes' [e|[|]]] d2]|] eqn:E;
      try discriminate.
    - injection H as <- _. cbn [wellParsed].
      apply wellParsed_all. eapply Hbody. eassumption.
    - injection H as <- _. exact I. }
  destruct (eqb_str name (lit "include")).
  { unfold parseInclude in H.
    destruct (eqb_str (lastAttr (lit "refid") attr) []) eqn:Er; [discriminate|].
    destruct (includeLoop fuel d) as [[[e|le] d2]|]; try discriminate.
    injection H as <- _. cbn [wellParsed]. split; [|reflexivity].
    apply eqb_str_false in Er. exact Er. }
  discriminate.
Qed.

(** X23: with fuel beyond the tokens to come [parseTags] returns, and
    the tree it returns without an error is well parsed: no text node
    in it is empty, every [if] has a test, every [foreach] an item and
    a collection, its own or the default one, and every [include] a
    reference and the mapper it was read in. *)
Theorem parseTags_well_parsed (fuel : nat) (mapper : str) (d : Decoder)
    (name : str) (attr : list Attr) :
  length (pending d) + 1 < fuel ->
  exists n e d',
    parseTags IfNode_init defaultParamKey fuel mapper d name attr = Some (n, e, d') /\
    (e = None -> wellParsed defaultParamKey mapper n).
Proof.
  intros Hlen.
  destruct (parseTags_ends IfNode_init defaultParamKey fuel mapper d name attr Hlen)
    as (n & e & d' & E & _).
  exists n, e, d'. split; [exact E|].
  intros ->. exact (parseTags_sound fuel mapper d name attr n d' E).
Qed.

End WellParsed.

Lemma parseTags_well_parsed_witness :
  exists n e d',
    XMLParser.parseTags Examples.initOk (lit "_") 4 (lit "m") Examples.ifBody
      (lit "if") [(lit "test", lit "id != 0")] = Some (n, e, d') /\
    (e = None -> Bodies.wellParsed (lit "_") (lit "m") n).
Proof.
  apply (parseTags_well_parsed Examples.initOk (lit "_") 4 (lit "m") Examples.ifBody
           (lit "if") [(lit "test", lit "id != 0")]).
  simpl. lia.
Defined.
